(** * Reference-counted pointers of [smart_pointers.h]

    A shallow embedding of [BaseControlBlock], [SharedPtr], [WeakPtr] and
    [EnableSharedFromThis].  Control blocks live in a heap indexed by
    address, every pointer object (named variable, temporary or data
    member) is a slot of an object store, and each C++ member function
    is a computation in a state-and-fault monad.  Calls of the payload's
    deleter, of its in-place destructor and of [Deallocate] are recorded
    in a log. *)

From stdpp Require Import base decidable option list gmap fin_maps.
From Stdlib Require Import ZArith Lia.

Local Open Scope Z_scope.

(** ** Data model *)

Definition addr := positive.

(** [size_t] is 64 bits wide; arithmetic on it wraps around. *)
Definition SIZE_MAX : Z := 2 ^ 64 - 1.
Definition size_t (z : Z) : Z := z mod 2 ^ 64.
Definition is_size_t (z : Z) : Prop := 0 <= z <= SIZE_MAX.

(** A payload pointer [T*]: the complete object it points into, named
    by the address of its allocation, and the offset of the (base)
    subobject it designates.  [None] is [nullptr]. *)
Record Loc := mkLoc { obj : addr; off : Z }.

(** [static_cast<T*>(other.ptr)] from a derived to a base type: same
    object, pointer adjusted by the offset [delta] of the base subobject. *)
Definition static_cast (delta : Z) (p : option Loc) : option Loc :=
  match p with
  | Some l => Some {| obj := obj l; off := off l + delta |}
  | None => None
  end.

(** The two control-block classes derived from [BaseControlBlock]. *)
Inductive Variant :=
| ControlBlockRegular (ptr : option Loc)
| ControlBlockMakeShared.

Record BaseControlBlock := mkBlock {
  shared_cnt : Z;
  weak_cnt : Z;
  variant : Variant
}.

Record SharedPtr := mkSharedPtr { s_cb : option addr; s_ptr : option Loc }.
Record WeakPtr := mkWeakPtr { w_cb : option addr; w_ptr : option Loc }.

Inductive Event :=
| EvDeleter (a : addr) (p : option Loc)
| EvDestroy (a : addr)
| EvDeallocate (a : addr).

Global Instance Loc_eq_dec : EqDecision Loc.
Proof. solve_decision. Defined.
Global Instance Variant_eq_dec : EqDecision Variant.
Proof. solve_decision. Defined.
Global Instance Event_eq_dec : EqDecision Event.
Proof. solve_decision. Defined.
Global Instance SharedPtr_eq_dec : EqDecision SharedPtr.
Proof. solve_decision. Defined.
Global Instance WeakPtr_eq_dec : EqDecision WeakPtr.
Proof. solve_decision. Defined.

(** The program state.
    - [heap]: every control block ever allocated;
    - [released]: the blocks whose storage went back to the allocator;
    - [next_addr]: the allocator's next fresh address;
    - [strongs], [weaks]: all [SharedPtr] and [WeakPtr] objects;
    - [payloads]: the live payloads that hold a [WeakPtr] member (the
      [wptr] of [EnableSharedFromThis], or a field of a client class),
      each with the slot of that member;
    - [trace]: the log, oldest event first. *)
Record State := mkState {
  heap : gmap addr BaseControlBlock;
  released : gset addr;
  next_addr : addr;
  strongs : list SharedPtr;
  weaks : list WeakPtr;
  payloads : gmap addr nat;
  trace : list Event
}.

Definition init : State :=
  {| heap := ∅; released := ∅; next_addr := 1%positive;
     strongs := []; weaks := []; payloads := ∅; trace := [] |}.

Definition with_heap (f : gmap addr BaseControlBlock → gmap addr BaseControlBlock)
    (σ : State) : State :=
  {| heap := f (heap σ); released := released σ; next_addr := next_addr σ;
     strongs := strongs σ; weaks := weaks σ; payloads := payloads σ;
     trace := trace σ |}.
Definition with_strongs (f : list SharedPtr → list SharedPtr) (σ : State) : State :=
  {| heap := heap σ; released := released σ; next_addr := next_addr σ;
     strongs := f (strongs σ); weaks := weaks σ; payloads := payloads σ;
     trace := trace σ |}.
Definition with_weaks (f : list WeakPtr → list WeakPtr) (σ : State) : State :=
  {| heap := heap σ; released := released σ; next_addr := next_addr σ;
     strongs := strongs σ; weaks := f (weaks σ); payloads := payloads σ;
     trace := trace σ |}.
Definition with_payloads (f : gmap addr nat → gmap addr nat) (σ : State) : State :=
  {| heap := heap σ; released := released σ; next_addr := next_addr σ;
     strongs := strongs σ; weaks := weaks σ; payloads := f (payloads σ);
     trace := trace σ |}.

(** ** Computations: state passing with faults *)

(** What C++ leaves undefined is a fault of the model, and so is a call
    of a template that has no well-formed instance. *)
Inductive fault :=
| NullDeref      (* access through a null pointer *)
| UseAfterFree   (* access to a control block that is not (or no longer) allocated *)
| BadObject      (* no such pointer object or payload *)
| IllFormed.     (* the instance does not compile: the program does not exist *)

Inductive outcome (A : Type) :=
| Ok (x : A) (σ : State)
| Fault (f : fault) (σ : State).
Arguments Ok {A} x σ.
Arguments Fault {A} f σ.

Definition M (A : Type) : Type := State → outcome A.

Global Instance M_ret : MRet M := λ A x σ, Ok x σ.
Global Instance M_bind : MBind M := λ A B k m σ,
  match m σ with
  | Ok x σ' => k x σ'
  | Fault f σ' => Fault f σ'
  end.

Definition fail {A} (f : fault) : M A := λ σ, Fault f σ.
Definition get_state : M State := λ σ, Ok σ σ.
Definition modify (f : State → State) : M unit := λ σ, Ok tt (f σ).

(** *** Memory *)

(** [cb->...]: every access through a [BaseControlBlock*]. *)
Definition deref (cb : option addr) : M (addr * BaseControlBlock) := λ σ,
  match cb with
  | None => Fault NullDeref σ
  | Some a =>
    match heap σ !! a with
    | Some b =>
      if decide (a ∈ released σ) then Fault UseAfterFree σ else Ok (a, b) σ
    | None => Fault UseAfterFree σ
    end
  end.

Definition store (a : addr) (b : BaseControlBlock) : M unit :=
  modify (with_heap <[a := b]>).

(** [allocate(new_alloc, 1)]: a fresh address. *)
Definition allocate : M addr := λ σ,
  Ok (next_addr σ)
     {| heap := heap σ; released := released σ;
        next_addr := Pos.succ (next_addr σ);
        strongs := strongs σ; weaks := weaks σ; payloads := payloads σ;
        trace := trace σ |}.

Definition emit (e : Event) : M unit := λ σ,
  Ok tt
     {| heap := heap σ; released := released σ; next_addr := next_addr σ;
        strongs := strongs σ; weaks := weaks σ; payloads := payloads σ;
        trace := trace σ ++ [e] |}.

Definition release (a : addr) : M unit := λ σ,
  Ok tt
     {| heap := heap σ; released := {[a]} ∪ released σ; next_addr := next_addr σ;
        strongs := strongs σ; weaks := weaks σ; payloads := payloads σ;
        trace := trace σ |}.

Definition get_shared_cnt (cb : option addr) : M Z :=
  '(_, b) ← deref cb; mret (shared_cnt b).
Definition get_weak_cnt (cb : option addr) : M Z :=
  '(_, b) ← deref cb; mret (weak_cnt b).

(** [++cb->shared_cnt], [--cb->shared_cnt], [++cb->weak_cnt], [--cb->weak_cnt]. *)
Definition incr_shared_cnt (cb : option addr) : M unit :=
  '(a, b) ← deref cb;
  store a {| shared_cnt := size_t (shared_cnt b + 1); weak_cnt := weak_cnt b;
             variant := variant b |}.
Definition decr_shared_cnt (cb : option addr) : M unit :=
  '(a, b) ← deref cb;
  store a {| shared_cnt := size_t (shared_cnt b - 1); weak_cnt := weak_cnt b;
             variant := variant b |}.
Definition incr_weak_cnt (cb : option addr) : M unit :=
  '(a, b) ← deref cb;
  store a {| shared_cnt := shared_cnt b; weak_cnt := size_t (weak_cnt b + 1);
             variant := variant b |}.
Definition decr_weak_cnt (cb : option addr) : M unit :=
  '(a, b) ← deref cb;
  store a {| shared_cnt := shared_cnt b; weak_cnt := size_t (weak_cnt b - 1);
             variant := variant b |}.

(** *** Pointer objects *)

Definition read_strong (i : nat) : M SharedPtr := λ σ,
  match strongs σ !! i with
  | Some s => Ok s σ
  | None => Fault BadObject σ
  end.
Definition write_strong (i : nat) (s : SharedPtr) : M unit :=
  modify (with_strongs <[i := s]>).
Definition new_strong (s : SharedPtr) : M nat := λ σ,
  Ok (length (strongs σ)) (with_strongs (λ l, l ++ [s]) σ).

Definition read_weak (i : nat) : M WeakPtr := λ σ,
  match weaks σ !! i with
  | Some w => Ok w σ
  | None => Fault BadObject σ
  end.
Definition write_weak (i : nat) (w : WeakPtr) : M unit :=
  modify (with_weaks <[i := w]>).
Definition new_weak (w : WeakPtr) : M nat := λ σ,
  Ok (length (weaks σ)) (with_weaks (λ l, l ++ [w]) σ).

(** ** [BaseControlBlock::Deallocate] *)

(** Both overrides give the block's storage back to its allocator. *)
Definition Deallocate (cb : option addr) : M unit :=
  '(a, _) ← deref cb;
  emit (EvDeallocate a);;
  release a.

(** ** [WeakPtr]: destructor *)

Definition WeakPtr_dtor (this : nat) : M unit :=
  w ← read_weak this;
  match w_cb w with
  | None => mret tt
  | Some _ =>
    decr_weak_cnt (w_cb w);;
    wc ← get_weak_cnt (w_cb w);
    (if wc =? 0 then
       sc ← get_shared_cnt (w_cb w);
       if sc =? 0 then Deallocate (w_cb w) else mret tt
     else mret tt);;
    write_weak this {| w_cb := None; w_ptr := None |}
  end.

(** ** Payloads and [EnableSharedFromThis] *)

(** The implicit constructor of [EnableSharedFromThis<T>], run when the
    payload [o] is constructed: [wptr] is default-constructed.  The
    constructor of a client class with a [WeakPtr<T>] field of its own
    does the same for that field. *)
Definition EnableSharedFromThis_ctor (o : addr) : M unit :=
  wptr ← new_weak {| w_cb := None; w_ptr := None |};
  modify (with_payloads <[o := wptr]>).

(** [new T] for a [T] that holds a [WeakPtr<T>] member. *)
Definition new_payload : M Loc :=
  o ← allocate;
  EnableSharedFromThis_ctor o;;
  mret {| obj := o; off := 0 |}.

(** The [WeakPtr] member of the payload [ptr] points to. *)
Definition wptr_of (ptr : option Loc) : M nat := λ σ,
  match ptr with
  | None => Fault NullDeref σ
  | Some l =>
    match payloads σ !! obj l with
    | Some i => Ok i σ
    | None => Fault BadObject σ
    end
  end.

(** The payload's destructor destroys its [WeakPtr] member, as the
    implicit destructor of [EnableSharedFromThis] destroys [wptr];
    other payloads hold no pointer of this library. *)
Definition payload_dtor (ptr : option Loc) : M unit :=
  match ptr with
  | None => mret tt
  | Some l =>
    σ ← get_state;
    match payloads σ !! obj l with
    | Some wptr =>
      WeakPtr_dtor wptr;;
      modify (with_payloads (delete (obj l)))
    | None => mret tt
    end
  end.

(** ** [BaseControlBlock]: [useDeleter] and [Destroy] *)

(** [ControlBlockRegular::useDeleter] calls [deleter(ptr)] on the adopted
    pointer; the deleter is [std::default_delete<T>], the default
    argument.  [ControlBlockMakeShared::useDeleter] is empty. *)
Definition useDeleter (cb : option addr) : M unit :=
  '(a, b) ← deref cb;
  match variant b with
  | ControlBlockRegular ptr => emit (EvDeleter a ptr);; payload_dtor ptr
  | ControlBlockMakeShared => mret tt
  end.

(** [ControlBlockRegular::Destroy] is empty;
    [ControlBlockMakeShared::Destroy] destroys [data] in place. *)
Definition Destroy (cb : option addr) : M unit :=
  '(a, b) ← deref cb;
  match variant b with
  | ControlBlockRegular _ => mret tt
  | ControlBlockMakeShared =>
    emit (EvDestroy a);; payload_dtor (Some {| obj := a; off := 0 |})
  end.

(** ** [SharedPtr] *)

Definition null_shared : SharedPtr := {| s_cb := None; s_ptr := None |}.
Definition null_weak : WeakPtr := {| w_cb := None; w_ptr := None |}.

(** [SharedPtr()] *)
Definition SharedPtr_default : M nat := new_strong null_shared.

(** [SharedPtr(const SharedPtr& other)] *)
Definition SharedPtr_copy (other : nat) : M nat :=
  o ← read_strong other;
  this ← new_strong {| s_cb := s_cb o; s_ptr := s_ptr o |};
  match s_cb o with
  | Some _ => incr_shared_cnt (s_cb o)
  | None => mret tt
  end;;
  mret this.

(** [SharedPtr(SharedPtr&& other)] *)
Definition SharedPtr_move (other : nat) : M nat :=
  o ← read_strong other;
  this ← new_strong {| s_cb := s_cb o; s_ptr := s_ptr o |};
  write_strong other null_shared;;
  mret this.

(** [template <Derived> SharedPtr(const SharedPtr<Derived>& other)] *)
Definition SharedPtr_copy_conv (delta : Z) (other : nat) : M nat :=
  o ← read_strong other;
  this ← new_strong {| s_cb := s_cb o; s_ptr := static_cast delta (s_ptr o) |};
  match s_cb o with
  | Some _ => incr_shared_cnt (s_cb o)
  | None => mret tt
  end;;
  mret this.

(** [template <Derived> SharedPtr(SharedPtr<Derived>&& other)] *)
Definition SharedPtr_move_conv (delta : Z) (other : nat) : M nat :=
  o ← read_strong other;
  this ← new_strong {| s_cb := s_cb o; s_ptr := static_cast delta (s_ptr o) |};
  write_strong other null_shared;;
  mret this.

(** [~SharedPtr()] *)
Definition SharedPtr_dtor (this : nat) : M unit :=
  s ← read_strong this;
  match s_cb s with
  | None => mret tt
  | Some _ =>
    decr_shared_cnt (s_cb s);;
    sc ← get_shared_cnt (s_cb s);
    (if sc =? 0 then
       useDeleter (s_cb s);;
       Destroy (s_cb s);;
       wc ← get_weak_cnt (s_cb s);
       if wc =? 0 then Deallocate (s_cb s) else mret tt
     else mret tt);;
    write_strong this null_shared
  end.

(** [SharedPtr(ControlBlockMakeShared<Alloc>* cb)] (private); [&cb->data]
    points into the block's own allocation. *)
Definition SharedPtr_from_block (cb : addr) : M nat :=
  new_strong {| s_cb := Some cb; s_ptr := Some {| obj := cb; off := 0 |} |}.

(** [SharedPtr(const WeakPtr<T>& weak)] (private) *)
Definition SharedPtr_from_weak (weak : nat) : M nat :=
  w ← read_weak weak;
  this ← new_strong {| s_cb := w_cb w; s_ptr := w_ptr w |};
  incr_shared_cnt (w_cb w);;
  mret this.

(** [void swap(SharedPtr& other)] *)
Definition SharedPtr_swap (this other : nat) : M unit :=
  t ← read_strong this;
  o ← read_strong other;
  write_strong this o;;
  write_strong other t.

(** [SharedPtr& operator=(const SharedPtr& other)] *)
Definition SharedPtr_assign_copy (this other : nat) : M unit :=
  if decide (this = other) then mret tt
  else
    tmp ← SharedPtr_copy other;
    SharedPtr_swap this tmp;;
    SharedPtr_dtor tmp.

(** [SharedPtr& operator=(SharedPtr&& other)] *)
Definition SharedPtr_assign_move (this other : nat) : M unit :=
  if decide (this = other) then mret tt
  else
    tmp ← SharedPtr_move other;
    SharedPtr_swap this tmp;;
    SharedPtr_dtor tmp.

(** [template <Derived> SharedPtr& operator=(const SharedPtr<Derived>& other)] *)
Definition SharedPtr_assign_copy_conv (delta : Z) (this other : nat) : M unit :=
  if decide (this = other) then mret tt
  else
    tmp ← SharedPtr_copy_conv delta other;
    SharedPtr_swap this tmp;;
    SharedPtr_dtor tmp.

(** [template <Derived> SharedPtr& operator=(SharedPtr<Derived>&& other)] *)
Definition SharedPtr_assign_move_conv (delta : Z) (this other : nat) : M unit :=
  if decide (this = other) then mret tt
  else
    tmp ← SharedPtr_move_conv delta other;
    SharedPtr_swap this tmp;;
    SharedPtr_dtor tmp.

(** [void reset()] *)
Definition SharedPtr_reset (this : nat) : M unit :=
  tmp ← SharedPtr_default;
  SharedPtr_swap this tmp;;
  SharedPtr_dtor tmp.

(** [size_t use_count() const] *)
Definition SharedPtr_use_count (this : nat) : M Z :=
  s ← read_strong this;
  get_shared_cnt (s_cb s).

(** [T* get() const] *)
Definition SharedPtr_get (this : nat) : M (option Loc) :=
  s ← read_strong this;
  mret (s_ptr s).

(** ** [WeakPtr] *)

(** [WeakPtr()] *)
Definition WeakPtr_default : M nat := new_weak null_weak.

(** [WeakPtr(const SharedPtr<T>& shared)] *)
Definition WeakPtr_from_shared (shared : nat) : M nat :=
  s ← read_strong shared;
  this ← new_weak {| w_cb := s_cb s; w_ptr := s_ptr s |};
  incr_weak_cnt (s_cb s);;
  mret this.

(** [WeakPtr(SharedPtr<T>&& shared)] *)
Definition WeakPtr_from_shared_move (shared : nat) : M nat :=
  s ← read_strong shared;
  this ← new_weak {| w_cb := s_cb s; w_ptr := s_ptr s |};
  write_strong shared null_shared;;
  decr_shared_cnt (s_cb s);;
  incr_weak_cnt (s_cb s);;
  mret this.

(** [template <Derived> WeakPtr(const SharedPtr<Derived>& shared)] *)
Definition WeakPtr_from_shared_conv (delta : Z) (shared : nat) : M nat :=
  s ← read_strong shared;
  this ← new_weak {| w_cb := s_cb s; w_ptr := static_cast delta (s_ptr s) |};
  incr_weak_cnt (s_cb s);;
  mret this.

(** [template <Derived> WeakPtr(SharedPtr<Derived>&& shared)] *)
Definition WeakPtr_from_shared_move_conv (delta : Z) (shared : nat) : M nat :=
  s ← read_strong shared;
  this ← new_weak {| w_cb := s_cb s; w_ptr := static_cast delta (s_ptr s) |};
  write_strong shared null_shared;;
  decr_shared_cnt (s_cb s);;
  incr_weak_cnt (s_cb s);;
  mret this.

(** [WeakPtr(const WeakPtr& other)] *)
Definition WeakPtr_copy (other : nat) : M nat :=
  o ← read_weak other;
  this ← new_weak {| w_cb := w_cb o; w_ptr := w_ptr o |};
  incr_weak_cnt (w_cb o);;
  mret this.

(** [WeakPtr(WeakPtr&& other)] *)
Definition WeakPtr_move (other : nat) : M nat :=
  o ← read_weak other;
  this ← new_weak {| w_cb := w_cb o; w_ptr := w_ptr o |};
  write_weak other null_weak;;
  mret this.

(** [template <Derived> WeakPtr(const WeakPtr<Derived>& shared)] *)
Definition WeakPtr_copy_conv (delta : Z) (shared : nat) : M nat :=
  o ← read_weak shared;
  this ← new_weak {| w_cb := w_cb o; w_ptr := static_cast delta (w_ptr o) |};
  incr_weak_cnt (w_cb o);;
  mret this.

(** [template <Derived> WeakPtr(WeakPtr<Derived>&& shared)]: the body
    only increments [weak_cnt]; [shared] is not written. *)
Definition WeakPtr_move_conv (delta : Z) (shared : nat) : M nat :=
  o ← read_weak shared;
  this ← new_weak {| w_cb := w_cb o; w_ptr := static_cast delta (w_ptr o) |};
  incr_weak_cnt (w_cb o);;
  mret this.

(** [void swap(WeakPtr& other)] *)
Definition WeakPtr_swap (this other : nat) : M unit :=
  t ← read_weak this;
  o ← read_weak other;
  write_weak this o;;
  write_weak other t.

(** [WeakPtr& operator=(const WeakPtr& other)] *)
Definition WeakPtr_assign_copy (this other : nat) : M unit :=
  tmp ← WeakPtr_copy other;
  WeakPtr_swap this tmp;;
  WeakPtr_dtor tmp.

(** [WeakPtr& operator=(WeakPtr&& other)] *)
Definition WeakPtr_assign_move (this other : nat) : M unit :=
  tmp ← WeakPtr_move other;
  WeakPtr_swap this tmp;;
  WeakPtr_dtor tmp.

(** The four templated assignment operators return [WeakPtr] by value:
    the result is a copy of [*this], made before [tmp] is destroyed.
    They return the slot of that temporary. *)

(** [template <Derived> WeakPtr operator=(const SharedPtr<Derived>& shared)] *)
Definition WeakPtr_assign_shared_conv (delta : Z) (this shared : nat) : M nat :=
  tmp ← WeakPtr_from_shared_conv delta shared;
  WeakPtr_swap this tmp;;
  result ← WeakPtr_copy this;
  WeakPtr_dtor tmp;;
  mret result.

(** [template <Derived> WeakPtr operator=(SharedPtr<Derived>&& shared)] *)
Definition WeakPtr_assign_shared_move_conv (delta : Z) (this shared : nat) : M nat :=
  tmp ← WeakPtr_from_shared_move_conv delta shared;
  WeakPtr_swap this tmp;;
  result ← WeakPtr_copy this;
  WeakPtr_dtor tmp;;
  mret result.

(** [template <Derived> WeakPtr operator=(const WeakPtr<Derived>& shared)] *)
Definition WeakPtr_assign_copy_conv (delta : Z) (this shared : nat) : M nat :=
  tmp ← WeakPtr_copy_conv delta shared;
  WeakPtr_swap this tmp;;
  result ← WeakPtr_copy this;
  WeakPtr_dtor tmp;;
  mret result.

(** [template <Derived> WeakPtr operator=(WeakPtr<Derived>&& shared)] *)
Definition WeakPtr_assign_move_conv (delta : Z) (this shared : nat) : M nat :=
  tmp ← WeakPtr_move_conv delta shared;
  WeakPtr_swap this tmp;;
  result ← WeakPtr_copy this;
  WeakPtr_dtor tmp;;
  mret result.

(** [bool expired() const noexcept] *)
Definition WeakPtr_expired (this : nat) : M bool :=
  w ← read_weak this;
  match w_cb w with
  | None => mret true
  | Some _ => sc ← get_shared_cnt (w_cb w); mret (sc =? 0)
  end.

(** [SharedPtr<T> lock() const] *)
Definition WeakPtr_lock (this : nat) : M nat :=
  SharedPtr_from_weak this.

(** [T* get() const] *)
Definition WeakPtr_get (this : nat) : M (option Loc) :=
  w ← read_weak this;
  mret (w_ptr w).

(** [size_t use_count() const] *)
Definition WeakPtr_use_count (this : nat) : M Z :=
  w ← read_weak this;
  get_shared_cnt (w_cb w).

(** ** Access to private members *)

(** The class templates of the header.  [cb] and [ptr] of [SharedPtr] and
    of [WeakPtr], and [wptr] of [EnableSharedFromThis], are declared
    before any [public:] and are private. *)
Inductive Class :=
| class_SharedPtr
| class_WeakPtr
| class_EnableSharedFromThis.

(** The friend declarations: [SharedPtr] and [WeakPtr] each declare
    [template <typename U> friend class WeakPtr] and
    [template <typename U> friend class SharedPtr];
    [EnableSharedFromThis] declares no friend. *)
Definition friend_of (owner : Class) (from : Class) : bool :=
  match owner, from with
  | class_SharedPtr, (class_SharedPtr | class_WeakPtr) => true
  | class_WeakPtr, (class_SharedPtr | class_WeakPtr) => true
  | _, _ => false
  end.

Definition same_class (c d : Class) : bool :=
  match c, d with
  | class_SharedPtr, class_SharedPtr => true
  | class_WeakPtr, class_WeakPtr => true
  | class_EnableSharedFromThis, class_EnableSharedFromThis => true
  | _, _ => false
  end.

(** A private member of [owner] can be named in a member of [from] if
    [from] is the class itself or one of its friends. *)
Definition private_accessible (owner from : Class) : bool :=
  same_class owner from || friend_of owner from.

(** ** Factories *)

(** [SharedPtr(T* ptr, Deleter deleter, Alloc alloc)].  [is_base_of] is
    [std::is_base_of_v<EnableSharedFromThis<T>, T>].  The statement of
    the [if constexpr] is instantiated when [is_base_of] holds; it names
    [ptr->wptr], a private member of [EnableSharedFromThis], from a
    member of [SharedPtr], so the constructor has a well-formed instance
    only if [T] does not derive from the mixin or that access is
    allowed.  The statement [ptr->wptr = *this] would select the
    templated [operator=(const SharedPtr<Derived>&)] with [Derived = T],
    for which the cast is the identity; the [WeakPtr] it returns is a
    temporary of the statement. *)
Definition SharedPtr_adopt (is_base_of : bool) (ptr : option Loc) : M nat :=
  if negb is_base_of || private_accessible class_EnableSharedFromThis class_SharedPtr
  then
    this ← new_strong {| s_cb := None; s_ptr := ptr |};
    cb ← allocate;
    write_strong this {| s_cb := Some cb; s_ptr := ptr |};;
    store cb {| shared_cnt := 1; weak_cnt := 0; variant := ControlBlockRegular ptr |};;
    (if is_base_of then
       wptr ← wptr_of ptr;
       result ← WeakPtr_assign_shared_conv 0 wptr this;
       WeakPtr_dtor result
     else mret tt);;
    mret this
  else fail IllFormed.

(** [void reset(T* ptr, Deleter deleter, Alloc alloc)] *)
Definition SharedPtr_reset_ptr (is_base_of : bool) (this : nat) (ptr : option Loc) : M unit :=
  tmp ← SharedPtr_adopt is_base_of ptr;
  SharedPtr_swap this tmp;;
  SharedPtr_dtor tmp.

(** [allocateShared<T>(alloc, args...)]: one allocation holds the block
    and [data]; constructing [data] default-constructs its [WeakPtr]
    member when [T] has one, as a [T] deriving from the mixin has
    ([is_base_of]).  Nothing here names [wptr]. *)
Definition allocateShared (is_base_of : bool) : M nat :=
  cb ← allocate;
  store cb {| shared_cnt := 1; weak_cnt := 0; variant := ControlBlockMakeShared |};;
  (if is_base_of then EnableSharedFromThis_ctor cb else mret tt);;
  SharedPtr_from_block cb.

(** [makeShared<T>(args...)] *)
Definition makeShared (is_base_of : bool) : M nat :=
  allocateShared is_base_of.

(** [EnableSharedFromThis::shared_from_this], called on the payload
    [ptr] points to. *)
Definition shared_from_this (ptr : option Loc) : M nat :=
  wptr ← wptr_of ptr;
  WeakPtr_lock wptr.

(** ** Client programs *)

(** One command per statement a client can write against the public
    interface.  Constructors create a new object, whose slot is the
    current length of its store; a statement that calls a templated
    [WeakPtr::operator=] destroys the temporary it returns.  The
    [WeakPtr] field of a client class is a slot like any other: a client
    can assign to it, [p->self = s] being [WAssignSharedConv 0]. *)
Inductive Cmd :=
| NewPayload
| SDefault
| SAdopt (is_base_of : bool) (ptr : option Loc)
| SCopy (other : nat)
| SMove (other : nat)
| SCopyConv (delta : Z) (other : nat)
| SMoveConv (delta : Z) (other : nat)
| SDtor (this : nat)
| SSwap (this other : nat)
| SAssignCopy (this other : nat)
| SAssignMove (this other : nat)
| SAssignCopyConv (delta : Z) (this other : nat)
| SAssignMoveConv (delta : Z) (this other : nat)
| SReset (this : nat)
| SResetPtr (is_base_of : bool) (this : nat) (ptr : option Loc)
| SAllocateShared (is_base_of : bool)
| SMakeShared (is_base_of : bool)
| WDefault
| WFromShared (shared : nat)
| WFromSharedMove (shared : nat)
| WFromSharedConv (delta : Z) (shared : nat)
| WFromSharedMoveConv (delta : Z) (shared : nat)
| WCopy (other : nat)
| WMove (other : nat)
| WCopyConv (delta : Z) (other : nat)
| WMoveConv (delta : Z) (other : nat)
| WDtor (this : nat)
| WSwap (this other : nat)
| WAssignCopy (this other : nat)
| WAssignMove (this other : nat)
| WAssignSharedConv (delta : Z) (this shared : nat)
| WAssignSharedMoveConv (delta : Z) (this shared : nat)
| WAssignCopyConv (delta : Z) (this other : nat)
| WAssignMoveConv (delta : Z) (this other : nat)
| WLock (this : nat)
| SharedFromThis (ptr : option Loc).

Definition discard {A} (m : M A) : M unit := m ;; mret tt.

Definition exec (c : Cmd) : M unit :=
  match c with
  | NewPayload => discard new_payload
  | SDefault => discard SharedPtr_default
  | SAdopt m p => discard (SharedPtr_adopt m p)
  | SCopy o => discard (SharedPtr_copy o)
  | SMove o => discard (SharedPtr_move o)
  | SCopyConv d o => discard (SharedPtr_copy_conv d o)
  | SMoveConv d o => discard (SharedPtr_move_conv d o)
  | SDtor i => SharedPtr_dtor i
  | SSwap i j => SharedPtr_swap i j
  | SAssignCopy i j => SharedPtr_assign_copy i j
  | SAssignMove i j => SharedPtr_assign_move i j
  | SAssignCopyConv d i j => SharedPtr_assign_copy_conv d i j
  | SAssignMoveConv d i j => SharedPtr_assign_move_conv d i j
  | SReset i => SharedPtr_reset i
  | SResetPtr m i p => SharedPtr_reset_ptr m i p
  | SAllocateShared m => discard (allocateShared m)
  | SMakeShared m => discard (makeShared m)
  | WDefault => discard WeakPtr_default
  | WFromShared s => discard (WeakPtr_from_shared s)
  | WFromSharedMove s => discard (WeakPtr_from_shared_move s)
  | WFromSharedConv d s => discard (WeakPtr_from_shared_conv d s)
  | WFromSharedMoveConv d s => discard (WeakPtr_from_shared_move_conv d s)
  | WCopy o => discard (WeakPtr_copy o)
  | WMove o => discard (WeakPtr_move o)
  | WCopyConv d o => discard (WeakPtr_copy_conv d o)
  | WMoveConv d o => discard (WeakPtr_move_conv d o)
  | WDtor i => WeakPtr_dtor i
  | WSwap i j => WeakPtr_swap i j
  | WAssignCopy i j => WeakPtr_assign_copy i j
  | WAssignMove i j => WeakPtr_assign_move i j
  | WAssignSharedConv d i s => r ← WeakPtr_assign_shared_conv d i s; WeakPtr_dtor r
  | WAssignSharedMoveConv d i s => r ← WeakPtr_assign_shared_move_conv d i s; WeakPtr_dtor r
  | WAssignCopyConv d i j => r ← WeakPtr_assign_copy_conv d i j; WeakPtr_dtor r
  | WAssignMoveConv d i j => r ← WeakPtr_assign_move_conv d i j; WeakPtr_dtor r
  | WLock i => discard (WeakPtr_lock i)
  | SharedFromThis p => discard (shared_from_this p)
  end.

Fixpoint run (cs : list Cmd) : M unit :=
  match cs with
  | [] => mret tt
  | c :: cs => exec c ;; run cs
  end.

(** What a state shows of the block at [a]. *)
Definition counts (σ : State) (a : addr) : option (Z * Z) :=
  match heap σ !! a with
  | Some b => Some (shared_cnt b, weak_cnt b)
  | None => None
  end.

Definition final {A} (o : outcome A) : State :=
  match o with
  | Ok _ σ => σ
  | Fault _ σ => σ
  end.

Definition status {A} (o : outcome A) : option fault :=
  match o with
  | Ok _ _ => None
  | Fault f _ => Some f
  end.

(** ** Outcomes, frames and payloads *)

(** The outcome [o] with its final state replaced: by [ok] of it where
    the computation returned, by [ko] of it where it faulted. *)
Definition rebase {A} (ok ko : State → State) (o : outcome A) : outcome A :=
  match o with
  | Ok x σ => Ok x (ok σ)
  | Fault f σ => Fault f (ko σ)
  end.

(** A computation that neither reads nor writes the [SharedPtr] objects. *)
Definition frame {A} (m : M A) : Prop :=
  ∀ f σ, m (with_strongs f σ) = rebase (with_strongs f) (with_strongs f) (m σ).

(** What [~SharedPtr] does between its null test and the reset of its
    own fields. *)
Definition SharedPtr_release (cb : option addr) : M unit :=
  decr_shared_cnt cb;;
  sc ← get_shared_cnt cb;
  if sc =? 0 then
    useDeleter cb;;
    Destroy cb;;
    wc ← get_weak_cnt cb;
    if wc =? 0 then Deallocate cb else mret tt
  else mret tt.

(** The payload object of the block [b] at [a]: the object the adopted
    pointer points into, or [data] inside the block itself. *)
Definition payload_of (a : addr) (b : BaseControlBlock) : option addr :=
  match variant b with
  | ControlBlockRegular ptr => obj <$> ptr
  | ControlBlockMakeShared => Some a
  end.

(** The slot of the [WeakPtr] member of that payload, if it has one. *)
Definition member_of (σ : State) (a : addr) (b : BaseControlBlock) : option nat :=
  match payload_of a b with
  | Some o => payloads σ !! o
  | None => None
  end.

(** The log entry of the payload's destruction. *)
Definition cleanup (a : addr) (b : BaseControlBlock) : list Event :=
  match variant b with
  | ControlBlockRegular ptr => [EvDeleter a ptr]
  | ControlBlockMakeShared => [EvDestroy a]
  end.

(** ** The counting invariant *)

(** The block at [a] is allocated, holds [b], and its storage has not
    been released. *)
Definition live (σ : State) (a : addr) (b : BaseControlBlock) : Prop :=
  heap σ !! a = Some b ∧ a ∉ released σ.

(** 1 when the control-block pointer [c] is the address [a], else 0. *)
Definition ind (a : addr) (c : option addr) : Z :=
  if decide (c = Some a) then 1 else 0.

(** Number of entries of [l] that reference the block at [a]. *)
Fixpoint refs (a : addr) (l : list (option addr)) : Z :=
  match l with
  | [] => 0
  | c :: l => ind a c + refs a l
  end.

Definition strong_refs (σ : State) (a : addr) : Z := refs a (s_cb <$> strongs σ).
Definition weak_refs (σ : State) (a : addr) : Z := refs a (w_cb <$> weaks σ).

(** How often [Deallocate] was called on the block at [a]. *)
Definition deallocations (σ : State) (a : addr) : nat :=
  length (filter (λ e, e = EvDeallocate a) (trace σ)).

(** While [~SharedPtr] runs on a pointer to the block at [a], between
    its decrement and the reset of its own fields, the dying pointer is
    still in the store but no longer counted: the block is [pending]. *)
Definition pending (pend : option addr) (a : addr) : Z := ind a pend.

Record Inv_at (pend : option addr) (σ : State) : Prop := {
  inv_shared : ∀ a b, heap σ !! a = Some b →
    shared_cnt b = strong_refs σ a - pending pend a;
  inv_weak : ∀ a b, heap σ !! a = Some b → weak_cnt b = weak_refs σ a;
  inv_strong_dom : ∀ a, heap σ !! a = None → strong_refs σ a = 0;
  inv_weak_dom : ∀ a, heap σ !! a = None → weak_refs σ a = 0;
  inv_pending : ∀ a b, pend = Some a → heap σ !! a = Some b → shared_cnt b = 0;
  inv_released : ∀ a, a ∈ released σ →
    ∃ b, heap σ !! a = Some b ∧ shared_cnt b = 0 ∧ weak_cnt b = 0;
  inv_drained : ∀ a b, heap σ !! a = Some b →
    shared_cnt b = 0 → weak_cnt b = 0 → pend ≠ Some a → a ∈ released σ;
  inv_next : ∀ a, is_Some (heap σ !! a) → (a < next_addr σ)%positive;
  inv_log : ∀ a,
    deallocations σ a = if decide (a ∈ released σ) then 1%nat else 0%nat
}.

Definition Inv : State → Prop := Inv_at None.

(** Fewer pointer objects than [size_t] can count. *)
Definition Bounded (σ : State) : Prop :=
  Z.of_nat (length (strongs σ)) <= SIZE_MAX ∧
  Z.of_nat (length (weaks σ)) <= SIZE_MAX.

Definition grows (σ σ' : State) : Prop :=
  (length (strongs σ) <= length (strongs σ'))%nat ∧
  (length (weaks σ) <= length (weaks σ'))%nat.

(** A computation keeps the invariant, as long as the store stays
    within [Bounded]. *)
Definition keeps (pend : option addr) {A} (m : M A) : Prop :=
  ∀ σ x σ', m σ = Ok x σ' →
    grows σ σ' ∧ (Bounded σ' → Inv_at pend σ → Inv_at pend σ').

Definition reachable (σ : State) : Prop := ∃ cs, run cs init = Ok tt σ.

(** The cleanup calls leave the [SharedPtr] objects alone. *)
Definition strongs_kept {A} (m : M A) : Prop :=
  ∀ σ x σ', m σ = Ok x σ' → strongs σ' = strongs σ.

(** ** Scenarios *)

Definition P100 : option Loc := Some {| obj := 100%positive; off := 0 |}.

(** A weak pointer taken from a strong pointer, then the strong pointer
    destroyed. *)
Definition expired_weak : State :=
  final (run [SAdopt false P100; WFromShared 0; SDtor 0] init).

(** A strong pointer (slot 0) and a weak pointer (slot 0) on one block. *)
Definition strong_and_weak : State :=
  final (run [SAdopt false P100; WFromShared 0] init).

(** A default-constructed weak pointer (slot 0). *)
Definition empty_weak : State := final (run [WDefault] init).

(** A payload with a [WeakPtr] member (slot 0), not yet adopted. *)
Definition fresh_payload : State := final (run [NewPayload] init).
Definition P1 : option Loc := Some {| obj := 1%positive; off := 0 |}.

(** The only strong pointer of a block moved into a weak pointer, which
    is then destroyed; [regular] chooses between an adopted payload and
    [makeShared]. *)
Definition strong_moved_to_weak (regular : bool) : outcome unit :=
  run [if regular then SAdopt false P100 else SMakeShared false;
       WFromSharedMove 0; WDtor 0] init.

(** A payload of a client class [struct Node { WeakPtr<Node> self; }]:
    [SharedPtr<Node> s(new Node); s->self = s;], then [s] is destroyed. *)
Definition self_observer_destroyed : outcome unit :=
  run [NewPayload; SAdopt false P1; WAssignSharedConv 0 0 0; SDtor 0] init.

(** A payload of a class deriving from [EnableSharedFromThis], handed to
    the raw-pointer constructor. *)
Definition mixin_adopted : outcome unit :=
  run [NewPayload; SAdopt true P1] init.

(** A [WeakPtr<Derived>] (slot 0) used to move-construct a
    [WeakPtr<Base>] (slot 1), the base subobject at offset 8. *)
Definition weak_converting_move : outcome unit :=
  run [SAdopt false P100; WFromShared 0; WMoveConv 8 0] init.

(** The same payload, adopted and observing itself, its strong pointer
    alive. *)
Definition self_observer_adopted : State :=
  final (run [NewPayload; SAdopt false P1; WAssignSharedConv 0 0 0] init).

(** The last strong pointer destroyed before the last weak pointer, and
    after it. *)
Definition strong_then_weak : list Cmd :=
  [SAdopt false P100; WFromShared 0; SDtor 0; WDtor 0].
Definition weak_then_strong : list Cmd :=
  [SAdopt false P100; WFromShared 0; WDtor 0; SDtor 0].

(** One strong pointer; two strong pointers on one block; two strong
    pointers on two blocks; two blocks with a strong and a weak pointer
    each, and an empty weak pointer. *)
Definition one_strong : State := final (run [SAdopt false P100] init).
Definition two_strong : State := final (run [SAdopt false P100; SCopy 0] init).
Definition P200 : option Loc := Some {| obj := 200%positive; off := 0 |}.
Definition two_blocks : State := final (run [SAdopt false P100; SAdopt false P200] init).
Definition two_weak_blocks : State :=
  final (run [SAdopt false P100; SAdopt false P200; WFromShared 0; WFromShared 1;
              WDefault] init).

(** The self-observing payload of [self_observer_adopted], with one
    more weak pointer (slot 3) on its block. *)
Definition self_observer_and_weak : State :=
  final (run [NewPayload; SAdopt false P1; WAssignSharedConv 0 0 0; WFromShared 0] init).

(** The self-observing payload of [self_observer_adopted], and a second
    block with its own strong pointer (slot 1). *)
Definition self_observer_and_block : State :=
  final (run [NewPayload; SAdopt false P1; WAssignSharedConv 0 0 0; SAdopt false P100]
           init).

(** A payload of a class deriving from [EnableSharedFromThis], made by
    [makeShared]. *)
Definition mixin_made_shared : State := final (run [SMakeShared true] init).

(** * Properties *)

Ltac munfold :=
  cbv [mbind M_bind mret M_ret fail get_state modify deref store allocate emit release
       get_shared_cnt get_weak_cnt incr_shared_cnt decr_shared_cnt incr_weak_cnt
       decr_weak_cnt read_strong write_strong new_strong read_weak write_weak new_weak
       with_heap with_strongs with_weaks with_payloads discard];
  cbn [heap released next_addr strongs weaks payloads trace].

Ltac munfold_in H :=
  cbv [mbind M_bind mret M_ret fail get_state modify deref store allocate emit release
       get_shared_cnt get_weak_cnt incr_shared_cnt decr_shared_cnt incr_weak_cnt
       decr_weak_cnt read_strong write_strong new_strong read_weak write_weak new_weak
       with_heap with_strongs with_weaks with_payloads discard] in H;
  cbn [heap released next_addr strongs weaks payloads trace] in H.

Lemma lookup_snoc {A} (l : list A) x : (l ++ [x]) !! length l = Some x.
Proof. by rewrite lookup_app_r, Nat.sub_diag. Qed.

Lemma lookup_snoc_old {A} (l : list A) x i y :
  l !! i = Some y → (l ++ [x]) !! i = Some y.
Proof. intros H. rewrite lookup_app_l; [done | by eapply lookup_lt_Some]. Qed.

Lemma lookup_snoc_at {A} (l : list A) x i :
  i = length l → (l ++ [x]) !! i = Some x.
Proof. intros ->. apply lookup_snoc. Qed.

Ltac lensolve :=
  rewrite ?length_insert, ?length_app; simpl;
  repeat match goal with
         | H : _ !! _ = Some _ |- _ => apply lookup_lt_Some in H
         end; lia.

Ltac mstep :=
  first
  [ progress cbn [heap released next_addr strongs weaks payloads trace
                  shared_cnt weak_cnt variant s_cb s_ptr w_cb w_ptr fst snd]
  | match goal with
    | H : ?x = Some _ |- context [match ?x with _ => _ end] => rewrite H
    | H : ?x = None |- context [match ?x with _ => _ end] => rewrite H
    | |- context [<[?a := _]> _ !! ?a] => rewrite lookup_insert_eq
    | |- context [(?l ++ [?x]) !! length ?l] => rewrite (lookup_snoc l x)
    | H : ?l !! ?i = Some _ |- context [(?l ++ [?x]) !! ?i] =>
        rewrite (lookup_snoc_old l x i _ H)
    | |- context [(?l ++ [?x]) !! ?i] =>
        first [ rewrite (lookup_app_l l [x] i) by lensolve
              | rewrite (lookup_snoc_at l x i) by lensolve ]
    | |- context [<[?i := ?x]> ?l !! ?i] =>
        rewrite (list_lookup_insert_eq l i x) by lensolve
    | |- context [<[?i := ?x]> ?l !! ?j] =>
        rewrite (list_lookup_insert_ne l i j x) by lensolve
    | H : ?a ∉ ?X |- context [decide (?a ∈ ?X)] =>
        rewrite (decide_False (P := a ∈ X)) by exact H
    end ].

Lemma size_t_id z : is_size_t z → size_t z = z.
Proof. unfold is_size_t, size_t, SIZE_MAX. intros H. apply Z.mod_small. lia. Qed.

Lemma static_cast_obj delta p : obj <$> static_cast delta p = obj <$> p.
Proof. by destruct p. Qed.


(** The innermost scrutinee of a term. *)
Ltac scrutinee t k :=
  lazymatch t with
  | context [match ?y with _ => _ end] => scrutinee y k
  | _ => k t
  end.

(** Case analysis on a run that returned, with the lookups in updated
    stores resolved first. *)
Ltac mnorm H :=
  cbn [heap released next_addr strongs weaks payloads trace
       shared_cnt weak_cnt variant s_cb s_ptr w_cb w_ptr fst snd] in H;
  repeat first
    [ rewrite lookup_insert_eq in H
    | rewrite lookup_snoc in H
    | match type of H with
      | context [(?l ++ [?x]) !! ?i] =>
          match goal with
          | H' : l !! i = Some _ |- _ => rewrite (lookup_snoc_old l x i _ H') in H
          end
      | context [<[?i := ?x]> ?l !! ?i] =>
          rewrite (list_lookup_insert_eq l i x) in H by lensolve
      | context [decide (?a ∈ ?X)] =>
          match goal with
          | H' : a ∉ X |- _ => rewrite (decide_False (P := a ∈ X)) in H by exact H'
          end
      end ];
  cbn [heap released next_addr strongs weaks payloads trace
       shared_cnt weak_cnt variant s_cb s_ptr w_cb w_ptr fst snd] in H.

Ltac mcases H :=
  repeat (
    mnorm H;
    lazymatch type of H with
    | context [match ?x with _ => _ end] =>
        scrutinee x ltac:(fun y => destruct y eqn:?; try discriminate H)
    end);
  try mnorm H.

Ltac finish H := injection H as <- <-.

(** ** Single operations on a live block *)

Lemma SharedPtr_from_weak_live σ weak w a b :
  weaks σ !! weak = Some w → w_cb w = Some a → live σ a b →
  SharedPtr_from_weak weak σ =
    Ok (length (strongs σ))
       (with_heap <[a := {| shared_cnt := size_t (shared_cnt b + 1);
                            weak_cnt := weak_cnt b; variant := variant b |}]>
          (with_strongs (λ l, l ++ [{| s_cb := Some a; s_ptr := w_ptr w |}]) σ)).
Proof.
  intros Hw Hcb [Hb Hr]. unfold SharedPtr_from_weak. munfold.
  repeat mstep. reflexivity.
Qed.

Lemma WeakPtr_expired_false σ this w :
  weaks σ !! this = Some w → WeakPtr_expired this σ = Ok false σ →
  ∃ a b, w_cb w = Some a ∧ live σ a b ∧ shared_cnt b ≠ 0.
Proof.
  intros Hw H. unfold WeakPtr_expired in H. munfold_in H. rewrite Hw in H.
  mcases H. injection H as H. apply Z.eqb_neq in H.
  eexists _, _. by repeat split.
Qed.

Lemma WeakPtr_use_count_live σ this w a b :
  weaks σ !! this = Some w → w_cb w = Some a → live σ a b →
  WeakPtr_use_count this σ = Ok (shared_cnt b) σ.
Proof.
  intros Hw Hcb [Hb Hr]. unfold WeakPtr_use_count. munfold. by repeat mstep.
Qed.

Lemma SharedPtr_use_count_live σ this s a b :
  strongs σ !! this = Some s → s_cb s = Some a → live σ a b →
  SharedPtr_use_count this σ = Ok (shared_cnt b) σ.
Proof.
  intros Hs Hcb [Hb Hr]. unfold SharedPtr_use_count. munfold. by repeat mstep.
Qed.

(** ** Promotion of a weak pointer *)

(** C6: a weak pointer that is not expired, over a block whose strong
    count is [n], locks to a strong pointer with the weak pointer's
    payload pointer and a use count of [n + 1]. *)
Theorem WeakPtr_lock_not_expired σ this w n :
  weaks σ !! this = Some w →
  WeakPtr_expired this σ = Ok false σ →
  WeakPtr_use_count this σ = Ok n σ →
  0 <= n < SIZE_MAX →
  ∃ σ', WeakPtr_lock this σ = Ok (length (strongs σ)) σ' ∧
    SharedPtr_get (length (strongs σ)) σ' = Ok (w_ptr w) σ' ∧
    WeakPtr_get this σ' = Ok (w_ptr w) σ' ∧
    SharedPtr_use_count (length (strongs σ)) σ' = Ok (n + 1) σ'.
Proof.
  intros Hw Hexp Huse Hn.
  destruct (WeakPtr_expired_false _ _ _ Hw Hexp) as (a & b & Hcb & Hlive & _).
  rewrite (WeakPtr_use_count_live _ _ _ _ _ Hw Hcb Hlive) in Huse.
  injection Huse as <-.
  unfold WeakPtr_lock. rewrite (SharedPtr_from_weak_live _ _ _ _ _ Hw Hcb Hlive).
  destruct Hlive as [Hb Hr].
  eexists; split; [reflexivity|].
  unfold SharedPtr_get, WeakPtr_get, SharedPtr_use_count. munfold.
  rewrite lookup_snoc, Hw. repeat mstep.
  rewrite size_t_id by (unfold is_size_t; lia). done.
Qed.

Lemma WeakPtr_lock_not_expired_witness :
  ∃ σ', WeakPtr_lock 0 strong_and_weak = Ok 1%nat σ' ∧
    SharedPtr_get 1 σ' = Ok P100 σ' ∧
    WeakPtr_get 0 σ' = Ok P100 σ' ∧
    SharedPtr_use_count 1 σ' = Ok 2 σ'.
Proof.
  apply (WeakPtr_lock_not_expired strong_and_weak 0
           {| w_cb := Some 1%positive; w_ptr := P100 |} 1).
  - reflexivity.
  - vm_compute. reflexivity.
  - vm_compute. reflexivity.
  - unfold SIZE_MAX. lia.
Defined.

(** C1: the weak pointer of [expired_weak] is expired, its block has a
    strong count of 0, and [lock()] returns a strong pointer that is not
    empty, after raising the strong count to 1; destroying that pointer
    calls the deleter on the payload a second time. *)
Theorem WeakPtr_lock_expired_resurrects :
  WeakPtr_expired 0 expired_weak = Ok true expired_weak ∧
  counts expired_weak 1%positive = Some (0, 1) ∧
  trace expired_weak = [EvDeleter 1%positive P100] ∧
  status (WeakPtr_lock 0 expired_weak) = None ∧
  strongs (final (WeakPtr_lock 0 expired_weak)) !! 1%nat =
    Some {| s_cb := Some 1%positive; s_ptr := P100 |} ∧
  counts (final (WeakPtr_lock 0 expired_weak)) 1%positive = Some (1, 1) ∧
  trace (final (SharedPtr_dtor 1 (final (WeakPtr_lock 0 expired_weak)))) =
    [EvDeleter 1%positive P100; EvDeleter 1%positive P100].
Proof. repeat split; vm_compute; reflexivity. Qed.

(** On every expired weak pointer that is not empty, [lock()] returns a
    strong pointer on the block and sets its strong count to 1. *)
Lemma WeakPtr_lock_expired σ this w a b :
  weaks σ !! this = Some w → w_cb w = Some a → live σ a b → shared_cnt b = 0 →
  ∃ σ', WeakPtr_lock this σ = Ok (length (strongs σ)) σ' ∧
    strongs σ' !! length (strongs σ) = Some {| s_cb := Some a; s_ptr := w_ptr w |} ∧
    counts σ' a = Some (1, weak_cnt b).
Proof.
  intros Hw Hcb Hlive H0. unfold WeakPtr_lock.
  rewrite (SharedPtr_from_weak_live _ _ _ _ _ Hw Hcb Hlive).
  eexists; split; [reflexivity|]. unfold counts. munfold.
  rewrite lookup_snoc. repeat mstep. by rewrite H0.
Qed.

(** ** Cleanup of the payload *)

(** C2: when the only strong pointer of a block is moved into a weak
    pointer and that weak pointer is destroyed, no pointer is left, the
    block's storage is released, and neither the deleter (adopted
    payload) nor the in-place destructor ([makeShared]) was ever called. *)
Theorem WeakPtr_from_shared_move_skips_cleanup :
  ∀ regular,
    status (strong_moved_to_weak regular) = None ∧
    strongs (final (strong_moved_to_weak regular)) = [null_shared] ∧
    weaks (final (strong_moved_to_weak regular)) = [null_weak] ∧
    counts (final (strong_moved_to_weak regular)) 1%positive = Some (0, 0) ∧
    trace (final (strong_moved_to_weak regular)) = [EvDeallocate 1%positive].
Proof. intros []; repeat split; vm_compute; reflexivity. Qed.

(** ** Release of the block's storage *)

(** C3: [Deallocate] is not called exactly once, at the operation that
    brings both counts to 0, when the payload holds a weak pointer to
    itself.  For a client class [struct Node { WeakPtr<Node> self; }],
    after [SharedPtr<Node> s(new Node); s->self = s;] the block has
    counts (1, 1) and nothing is logged.  [~SharedPtr] on [s] takes the
    strong count to 0 and calls the deleter; the payload's destructor
    destroys [self], the last weak pointer, and [~WeakPtr] deallocates
    the block from inside [useDeleter].  [~SharedPtr] then goes on to
    use the released block: the call [cb->Destroy()] is a use after
    free, with the fields of [s] still set. *)
Theorem SharedPtr_dtor_self_observer_use_after_free :
  status (run [NewPayload; SAdopt false P1; WAssignSharedConv 0 0 0] init) = None ∧
  counts self_observer_adopted 2%positive = Some (1, 1) ∧
  strongs self_observer_adopted !! 0%nat =
    Some {| s_cb := Some 2%positive; s_ptr := P1 |} ∧
  weaks self_observer_adopted !! 0%nat =
    Some {| w_cb := Some 2%positive; w_ptr := P1 |} ∧
  payloads self_observer_adopted !! 1%positive = Some 0%nat ∧
  trace self_observer_adopted = [] ∧
  self_observer_destroyed = SharedPtr_dtor 0 self_observer_adopted ∧
  status self_observer_destroyed = Some UseAfterFree ∧
  trace (final self_observer_destroyed) =
    [EvDeleter 2%positive P1; EvDeallocate 2%positive] ∧
  counts (final self_observer_destroyed) 2%positive = Some (0, 0) ∧
  2%positive ∈ released (final self_observer_destroyed) ∧
  strongs (final self_observer_destroyed) !! 0%nat =
    Some {| s_cb := Some 2%positive; s_ptr := P1 |}.
Proof.
  do 10 (split; [by vm_compute|]).
  split; [|by vm_compute].
  apply (bool_decide_unpack _). by vm_compute.
Qed.

(** ** Conversions *)

(** C4: the converting move constructor of [WeakPtr] is the converting
    copy constructor: the source keeps its control block and payload
    pointer, and the weak count goes from 1 to 2. *)
Theorem WeakPtr_move_conv_copies :
  (∀ delta shared, WeakPtr_move_conv delta shared = WeakPtr_copy_conv delta shared) ∧
  status weak_converting_move = None ∧
  counts strong_and_weak 1%positive = Some (1, 1) ∧
  counts (final weak_converting_move) 1%positive = Some (1, 2) ∧
  weaks (final weak_converting_move) =
    [ {| w_cb := Some 1%positive; w_ptr := P100 |};
      {| w_cb := Some 1%positive;
         w_ptr := Some {| obj := 100%positive; off := 8 |} |} ].
Proof. repeat split; vm_compute; reflexivity. Qed.

(** C5: the converting copy of a non-empty strong pointer allocates
    nothing, references the same control block, so that [use_count()]
    agrees through both pointers, and points into the same object. *)
Theorem SharedPtr_copy_conv_shares σ delta other s a b :
  strongs σ !! other = Some s → s_cb s = Some a → live σ a b →
  ∃ σ' s' n,
    SharedPtr_copy_conv delta other σ = Ok (length (strongs σ)) σ' ∧
    strongs σ' !! length (strongs σ) = Some s' ∧
    strongs σ' !! other = Some s ∧
    s_cb s' = s_cb s ∧
    s_ptr s' = static_cast delta (s_ptr s) ∧
    obj <$> s_ptr s' = obj <$> s_ptr s ∧
    dom (heap σ') = dom (heap σ) ∧
    next_addr σ' = next_addr σ ∧
    SharedPtr_use_count other σ' = Ok n σ' ∧
    SharedPtr_use_count (length (strongs σ)) σ' = Ok n σ'.
Proof.
  intros Hs Hcb [Hb Hr].
  unfold SharedPtr_copy_conv. munfold. repeat mstep.
  eexists _, _, _. split; [reflexivity|]. cbn.
  rewrite lookup_snoc, (lookup_snoc_old _ _ _ _ Hs).
  repeat split; cbn; try done.
  - apply static_cast_obj.
  - apply dom_insert_lookup_L. by rewrite Hb.
  - unfold SharedPtr_use_count. munfold.
    rewrite (lookup_snoc_old _ _ _ _ Hs). repeat mstep. reflexivity.
  - unfold SharedPtr_use_count. munfold.
    rewrite lookup_snoc. repeat mstep. reflexivity.
Qed.

Lemma SharedPtr_copy_conv_shares_witness :
  ∃ σ' s' n,
    SharedPtr_copy_conv 8 0 strong_and_weak = Ok 1%nat σ' ∧
    strongs σ' !! 1%nat = Some s' ∧
    strongs σ' !! 0%nat = Some {| s_cb := Some 1%positive; s_ptr := P100 |} ∧
    s_cb s' = Some 1%positive ∧
    s_ptr s' = static_cast 8 P100 ∧
    obj <$> s_ptr s' = obj <$> P100 ∧
    dom (heap σ') = dom (heap strong_and_weak) ∧
    next_addr σ' = next_addr strong_and_weak ∧
    SharedPtr_use_count 0 σ' = Ok n σ' ∧
    SharedPtr_use_count 1 σ' = Ok n σ'.
Proof.
  apply (SharedPtr_copy_conv_shares strong_and_weak 8 0
           {| s_cb := Some 1%positive; s_ptr := P100 |} 1%positive
           {| shared_cnt := 1; weak_cnt := 1; variant := ControlBlockRegular P100 |}).
  - reflexivity.
  - reflexivity.
  - split; [reflexivity | by vm_compute].
Defined.

(** C7: move-constructing a weak pointer from a non-empty strong
    pointer takes 1 off the strong count, adds 1 to the weak count and
    leaves the strong pointer empty. *)
Theorem WeakPtr_from_shared_move_transfers σ shared s a b :
  strongs σ !! shared = Some s → s_cb s = Some a → live σ a b →
  1 <= shared_cnt b <= SIZE_MAX → 0 <= weak_cnt b < SIZE_MAX →
  ∃ σ', WeakPtr_from_shared_move shared σ = Ok (length (weaks σ)) σ' ∧
    counts σ' a = Some (shared_cnt b - 1, weak_cnt b + 1) ∧
    strongs σ' !! shared = Some null_shared ∧
    weaks σ' !! length (weaks σ) = Some {| w_cb := Some a; w_ptr := s_ptr s |}.
Proof.
  intros Hs Hcb [Hb Hr] Hsc Hwc.
  unfold WeakPtr_from_shared_move. munfold. repeat mstep.
  eexists; split; [reflexivity|].
  unfold counts; repeat mstep.
  rewrite !size_t_id by (unfold is_size_t; lia). done.
Qed.

Lemma WeakPtr_from_shared_move_transfers_witness :
  ∃ σ', WeakPtr_from_shared_move 0 strong_and_weak = Ok 1%nat σ' ∧
    counts σ' 1%positive = Some (1 - 1, 1 + 1) ∧
    strongs σ' !! 0%nat = Some null_shared ∧
    weaks σ' !! 1%nat = Some {| w_cb := Some 1%positive; w_ptr := P100 |}.
Proof.
  apply (WeakPtr_from_shared_move_transfers strong_and_weak 0
           {| s_cb := Some 1%positive; s_ptr := P100 |} 1%positive
           {| shared_cnt := 1; weak_cnt := 1; variant := ControlBlockRegular P100 |}).
  - reflexivity.
  - reflexivity.
  - split; [reflexivity | by vm_compute].
  - unfold SIZE_MAX; simpl; lia.
  - unfold SIZE_MAX; simpl; lia.
Defined.

(** ** Null control blocks *)

(** C9: on an empty weak pointer [expired()] answers [true] and leaves
    the state alone, while [lock()] and [use_count()] go through the
    null control block; on a non-empty weak pointer neither of them
    does, and both return when its block is live; [expired()] never
    goes through a null control block and returns on every weak pointer
    that is empty or has a live block. *)
Theorem WeakPtr_null_control_block :
  (∀ σ this w, weaks σ !! this = Some w → w_cb w = None →
     WeakPtr_expired this σ = Ok true σ ∧
     status (WeakPtr_lock this σ) = Some NullDeref ∧
     WeakPtr_use_count this σ = Fault NullDeref σ) ∧
  (∀ σ this w a, weaks σ !! this = Some w → w_cb w = Some a →
     status (WeakPtr_lock this σ) ≠ Some NullDeref ∧
     status (WeakPtr_use_count this σ) ≠ Some NullDeref) ∧
  (∀ σ this w a b, weaks σ !! this = Some w → w_cb w = Some a → live σ a b →
     status (WeakPtr_lock this σ) = None ∧
     WeakPtr_use_count this σ = Ok (shared_cnt b) σ ∧
     WeakPtr_expired this σ = Ok (shared_cnt b =? 0) σ) ∧
  (∀ σ this, status (WeakPtr_expired this σ) ≠ Some NullDeref).
Proof.
  split; [|split; [|split]].
  - intros σ this w Hw Hcb.
    unfold WeakPtr_expired, WeakPtr_lock, SharedPtr_from_weak, WeakPtr_use_count.
    munfold. rewrite Hw, Hcb. done.
  - intros σ this w a Hw Hcb.
    unfold WeakPtr_lock, SharedPtr_from_weak, WeakPtr_use_count.
    munfold. rewrite Hw, Hcb. cbn.
    destruct (heap σ !! a); [destruct (decide (a ∈ released σ))|]; done.
  - intros σ this w a b Hw Hcb Hlive. split; [|split].
    + unfold WeakPtr_lock. by rewrite (SharedPtr_from_weak_live _ _ _ _ _ Hw Hcb Hlive).
    + by apply (WeakPtr_use_count_live _ _ w a).
    + destruct Hlive as [Hb Hr]. unfold WeakPtr_expired. munfold. by repeat mstep.
  - intros σ this. unfold WeakPtr_expired. munfold.
    destruct (weaks σ !! this) as [w|]; [|done].
    destruct (w_cb w) as [a|]; [|done].
    destruct (heap σ !! a); [destruct (decide (a ∈ released σ))|]; done.
Qed.

Lemma WeakPtr_null_control_block_witness :
  (WeakPtr_expired 0 empty_weak = Ok true empty_weak ∧
   status (WeakPtr_lock 0 empty_weak) = Some NullDeref ∧
   WeakPtr_use_count 0 empty_weak = Fault NullDeref empty_weak) ∧
  (status (WeakPtr_lock 0 strong_and_weak) = None ∧
   WeakPtr_use_count 0 strong_and_weak = Ok 1 strong_and_weak ∧
   WeakPtr_expired 0 strong_and_weak = Ok false strong_and_weak).
Proof.
  split.
  - apply (proj1 WeakPtr_null_control_block empty_weak 0%nat null_weak);
      reflexivity.
  - apply (proj1 (proj2 (proj2 WeakPtr_null_control_block)) strong_and_weak 0%nat
             {| w_cb := Some 1%positive; w_ptr := P100 |} 1%positive
             {| shared_cnt := 1; weak_cnt := 1; variant := ControlBlockRegular P100 |}).
    + reflexivity.
    + reflexivity.
    + split; [reflexivity | by vm_compute].
Defined.

(** ** Self-assignment of a weak pointer *)

Lemma size_t_incr_decr z : is_size_t z → size_t (size_t (z + 1) - 1) = z.
Proof.
  unfold is_size_t, size_t, SIZE_MAX. intros H.
  rewrite Zminus_mod_idemp_l. replace (z + 1 - 1) with z by lia.
  apply Z.mod_small. lia.
Qed.

(** X25: copy-assigning a non-empty weak pointer to itself leaves its
    control block, its payload pointer, both counts, the released blocks
    and the log unchanged, although the operator has no self-assignment
    check. *)
Theorem WeakPtr_assign_copy_self σ this w a b :
  weaks σ !! this = Some w → w_cb w = Some a → live σ a b →
  1 <= weak_cnt b <= SIZE_MAX →
  ∃ σ', WeakPtr_assign_copy this this σ = Ok tt σ' ∧
    weaks σ' !! this = Some w ∧
    heap σ' = heap σ ∧
    released σ' = released σ ∧
    trace σ' = trace σ ∧
    strongs σ' = strongs σ.
Proof.
  intros Hw Hcb [Hb Hr] Hwc.
  assert (Hlt : (this < length (weaks σ))%nat) by (by eapply lookup_lt_Some).
  unfold WeakPtr_assign_copy, WeakPtr_copy, WeakPtr_swap, WeakPtr_dtor. munfold.
  repeat mstep.
  rewrite size_t_incr_decr by (unfold is_size_t; lia).
  destruct (Z.eqb_spec (weak_cnt b) 0) as [?|_]; [lia|].
  eexists; split; [reflexivity|]. cbn.
  repeat split.
  - rewrite !list_lookup_insert_ne by lia.
    rewrite list_lookup_insert_eq by (rewrite length_app; simpl; lia).
    destruct w; simpl in *; by subst.
  - rewrite insert_insert_eq. apply insert_id. rewrite Hb. by destruct b.
Qed.

Lemma WeakPtr_assign_copy_self_witness :
  ∃ σ', WeakPtr_assign_copy 0 0 strong_and_weak = Ok tt σ' ∧
    weaks σ' !! 0%nat = Some {| w_cb := Some 1%positive; w_ptr := P100 |} ∧
    heap σ' = heap strong_and_weak ∧
    released σ' = released strong_and_weak ∧
    trace σ' = trace strong_and_weak ∧
    strongs σ' = strongs strong_and_weak.
Proof.
  apply (WeakPtr_assign_copy_self strong_and_weak 0
           {| w_cb := Some 1%positive; w_ptr := P100 |} 1%positive
           {| shared_cnt := 1; weak_cnt := 1; variant := ControlBlockRegular P100 |}).
  - reflexivity.
  - reflexivity.
  - split; [reflexivity | by vm_compute].
  - unfold SIZE_MAX; simpl; lia.
Defined.

(** C10: the copy self-assignment [w = w] of an empty weak pointer does
    not leave it unchanged: the copy constructor called by the
    assignment increments [weak_cnt] through the null control block, so
    the assignment does not return.  The null test that [~WeakPtr],
    [expired()] and the copy constructors of [SharedPtr] make is
    missing. *)
Lemma WeakPtr_assign_copy_self_empty :
  weaks empty_weak !! 0%nat = Some null_weak ∧
  status (WeakPtr_assign_copy 0 0 empty_weak) = Some NullDeref ∧
  ¬ ∃ σ', WeakPtr_assign_copy 0 0 empty_weak = Ok tt σ' ∧
      weaks σ' !! 0%nat = Some null_weak ∧
      heap σ' = heap empty_weak ∧
      released σ' = released empty_weak ∧
      trace σ' = trace empty_weak ∧
      strongs σ' = strongs empty_weak.
Proof.
  split; [reflexivity|]. split; [reflexivity|].
  intros (σ' & H & _). discriminate H.
Qed.

(** ** The counting invariant is kept *)

Lemma ind_range a c : 0 <= ind a c <= 1.
Proof. unfold ind. case_decide; lia. Qed.

Lemma refs_nonneg a l : 0 <= refs a l.
Proof. induction l as [|c l IH]; simpl; [lia|]. pose proof (ind_range a c). lia. Qed.

Lemma refs_le_length a l : refs a l <= Z.of_nat (length l).
Proof.
  induction l as [|c l IH]; simpl; [lia|]. pose proof (ind_range a c). lia.
Qed.

Lemma refs_app a l1 l2 : refs a (l1 ++ l2) = refs a l1 + refs a l2.
Proof. induction l1 as [|c l1 IH]; simpl; lia. Qed.

Lemma refs_snoc {A} (f : A → option addr) a l x :
  refs a (f <$> (l ++ [x])) = refs a (f <$> l) + ind a (f x).
Proof. rewrite fmap_app, refs_app. simpl. lia. Qed.

Lemma refs_insert_raw a l i c c' :
  l !! i = Some c → refs a (<[i := c']> l) = refs a l - ind a c + ind a c'.
Proof.
  revert i. induction l as [|d l IH]; intros [|i] H; simplify_eq/=; [lia|].
  rewrite (IH _ H). lia.
Qed.

Lemma refs_insert {A} (f : A → option addr) a l i x y :
  l !! i = Some y →
  refs a (f <$> <[i := x]> l) = refs a (f <$> l) - ind a (f y) + ind a (f x).
Proof.
  intros H. rewrite list_fmap_insert.
  apply refs_insert_raw. by rewrite list_lookup_fmap, H.
Qed.

Lemma refs_lookup {A} (f : A → option addr) a l i x :
  l !! i = Some x → f x = Some a → 1 <= refs a (f <$> l).
Proof.
  revert i. induction l as [|d l IH]; intros [|i] H Hf; simplify_eq/=.
  - pose proof (refs_nonneg a (f <$> l)). unfold ind. rewrite Hf.
    rewrite decide_True by done. lia.
  - pose proof (ind_range a (f d)). specialize (IH _ H Hf). lia.
Qed.

Lemma keeps_ret pend {A} (x : A) : keeps pend (mret x).
Proof. intros σ y σ' H. injection H as <- <-. split; [split; lia | done]. Qed.

Lemma grows_trans σ1 σ2 σ3 : grows σ1 σ2 → grows σ2 σ3 → grows σ1 σ3.
Proof. unfold grows. lia. Qed.

Lemma Bounded_grows σ σ' : grows σ σ' → Bounded σ' → Bounded σ.
Proof. unfold grows, Bounded. lia. Qed.

Lemma keeps_bind pend {A B} (m : M A) (k : A → M B) :
  keeps pend m → (∀ x, keeps pend (k x)) → keeps pend (m ≫= k).
Proof.
  intros Hm Hk σ y σ' H. unfold mbind, M_bind in H.
  destruct (m σ) as [x σ1|] eqn:E; [|done].
  destruct (Hm _ _ _ E) as [G1 I1]. destruct (Hk x _ _ _ H) as [G2 I2].
  split; [by eapply grows_trans|].
  intros HB HI. apply I2; [done|]. apply I1; [|done]. by eapply Bounded_grows.
Qed.

Lemma strong_refs_bound σ a : 0 <= strong_refs σ a <= Z.of_nat (length (strongs σ)).
Proof.
  unfold strong_refs. split; [apply refs_nonneg|].
  etrans; [apply refs_le_length|]. by rewrite length_fmap.
Qed.
Lemma weak_refs_bound σ a : 0 <= weak_refs σ a <= Z.of_nat (length (weaks σ)).
Proof.
  unfold weak_refs. split; [apply refs_nonneg|].
  etrans; [apply refs_le_length|]. by rewrite length_fmap.
Qed.

(** Facts of the invariant about the block at [a]. *)
Ltac inv_facts HI a :=
  lazymatch type of HI with
  | Inv_at _ ?σ =>
    let Hb := fresh "Hbnd" in
    pose proof (strong_refs_bound σ a) as Hb; unfold strong_refs in Hb;
    let Hb := fresh "Hbnd" in
    pose proof (weak_refs_bound σ a) as Hb; unfold weak_refs in Hb;
    try match goal with
    | Hs : strongs σ !! _ = Some ?s, Hc : s_cb ?s = Some a |- _ =>
        pose proof (refs_lookup s_cb a _ _ _ Hs Hc)
    end;
    try match goal with
    | Hs : weaks σ !! _ = Some ?w, Hc : w_cb ?w = Some a |- _ =>
        pose proof (refs_lookup w_cb a _ _ _ Hs Hc)
    end;
    lazymatch goal with
    | Hl : heap σ !! a = Some ?b |- _ =>
        let H1 := fresh "Hsh" in let H2 := fresh "Hwk" in
        pose proof (inv_shared _ _ HI a b Hl) as H1;
        pose proof (inv_weak _ _ HI a b Hl) as H2;
        unfold strong_refs in H1; unfold weak_refs in H2;
        try pose proof (inv_pending _ _ HI a b eq_refl Hl)
    | Hl : heap σ !! a = None |- _ =>
        let H1 := fresh "Hsh" in let H2 := fresh "Hwk" in
        pose proof (inv_strong_dom _ _ HI a Hl) as H1;
        pose proof (inv_weak_dom _ _ HI a Hl) as H2;
        unfold strong_refs in H1; unfold weak_refs in H2
    | _ => idtac
    end
  end.

Lemma lookup_insert_Some_inv {V} (m : gmap addr V) a a' v v' :
  <[a := v]> m !! a' = Some v' → (a' = a ∧ v' = v) ∨ (a' ≠ a ∧ m !! a' = Some v').
Proof.
  rewrite lookup_insert. case_decide; intros; simplify_eq; auto.
Qed.

Lemma lookup_insert_None_inv {V} (m : gmap addr V) a a' v :
  <[a := v]> m !! a' = None → a' ≠ a ∧ m !! a' = None.
Proof. rewrite lookup_insert. case_decide; intros; simplify_eq; auto. Qed.

(** Lookups in the stores of a final state, for [refs_insert]. *)
Ltac lookup_solve :=
  first
  [ eassumption
  | apply lookup_snoc
  | eapply lookup_snoc_old; eassumption
  | rewrite list_lookup_insert_ne by lia; lookup_solve
  | rewrite list_lookup_insert_eq by lensolve; reflexivity ].

Ltac refs_norm :=
  unfold strong_refs, weak_refs, deallocations;
  cbn [heap released next_addr strongs weaks payloads trace];
  repeat first
    [ rewrite refs_snoc
    | erewrite refs_insert by lookup_solve ];
  cbn [s_cb s_ptr w_cb w_ptr].

(** Split a lookup in the updated heap into the updated block and the
    others. *)
Ltac heap_cases Hl :=
  repeat match type of Hl with
  | <[_ := _]> _ !! _ = Some _ =>
      apply lookup_insert_Some_inv in Hl as [[-> ->]|[? Hl]]
  | <[_ := _]> _ !! _ = None =>
      apply lookup_insert_None_inv in Hl as [? Hl]
  end.

Lemma count_snoc_Deallocate a' a t :
  length (filter (λ e, e = EvDeallocate a') (t ++ [EvDeallocate a])) =
  (length (filter (λ e, e = EvDeallocate a') t) + if decide (a' = a) then 1 else 0)%nat.
Proof.
  rewrite filter_app, length_app. f_equal.
  rewrite filter_cons, filter_nil. repeat case_decide; simplify_eq; done.
Qed.

Lemma count_snoc_Deleter a' a p t :
  length (filter (λ e, e = EvDeallocate a') (t ++ [EvDeleter a p])) =
  length (filter (λ e, e = EvDeallocate a') t).
Proof.
  rewrite filter_app, length_app, filter_cons, filter_nil.
  case_decide; simplify_eq. simpl. lia.
Qed.

Lemma count_snoc_Destroy a' a t :
  length (filter (λ e, e = EvDeallocate a') (t ++ [EvDestroy a])) =
  length (filter (λ e, e = EvDeallocate a') t).
Proof.
  rewrite filter_app, length_app, filter_cons, filter_nil.
  case_decide; simplify_eq. simpl. lia.
Qed.

Lemma log_release (R : gset addr) a a' (k : nat) :
  a ∉ R →
  k = (if decide (a' ∈ R) then 1 else 0)%nat →
  (k + if decide (a' = a) then 1 else 0)%nat =
  (if decide (a' ∈ {[a]} ∪ R) then 1 else 0)%nat.
Proof.
  intros Hr ->.
  destruct (decide (a' = a)) as [->|Hne].
  - rewrite (decide_False (P := a ∈ R)) by done.
    rewrite decide_True; [done|]. apply elem_of_union_l. by apply elem_of_singleton.
  - destruct (decide (a' ∈ R)) as [Hin|Hnin].
    + rewrite decide_True; [done|]. by apply elem_of_union_r.
    + rewrite decide_False; [done|].
      rewrite elem_of_union, elem_of_singleton. tauto.
Qed.

Ltac arith :=
  unfold pending, ind, is_size_t in *;
  cbn [shared_cnt weak_cnt variant] in *;
  repeat match goal with
  | H : (_ =? _) = true |- _ => apply Z.eqb_eq in H
  | H : (_ =? _) = false |- _ => apply Z.eqb_neq in H
  end;
  repeat case_decide; simplify_eq/=;
  repeat match goal with
  | H : context [size_t ?z] |- _ =>
      rewrite (size_t_id z) in H by (unfold is_size_t; lia)
  end;
  rewrite ?size_t_id by (unfold is_size_t; lia);
  try lia.

Ltac inv_fields HI a :=
  cbv [with_heap with_strongs with_weaks with_payloads];
  constructor;
  cbn [heap released next_addr strongs weaks payloads trace];
  [ (* inv_shared *)
    intros a_ b_ Hl_; refs_norm; heap_cases Hl_;
    inv_facts HI a; try inv_facts HI a_; arith
  | (* inv_weak *)
    intros a_ b_ Hl_; refs_norm; heap_cases Hl_;
    inv_facts HI a; try inv_facts HI a_; arith
  | (* inv_strong_dom *)
    intros a_ Hl_; refs_norm; heap_cases Hl_;
    inv_facts HI a; try inv_facts HI a_; arith
  | (* inv_weak_dom *)
    intros a_ Hl_; refs_norm; heap_cases Hl_;
    inv_facts HI a; try inv_facts HI a_; arith
  | (* inv_pending *)
    intros a_ b_ Hp_ Hl_; try discriminate Hp_; heap_cases Hl_;
    try solve [ pose proof (inv_pending _ _ HI _ _ Hp_ ltac:(eassumption)); arith
              | inv_facts HI a; arith ]
  | (* inv_released *)
    intros a_ Hr_;
    try (rewrite elem_of_union, elem_of_singleton in Hr_;
         destruct Hr_ as [->|Hr_];
         [ eexists; split; [first [apply lookup_insert_eq | eassumption]|];
           inv_facts HI a; refs_norm; arith | ]);
    try (destruct (inv_released _ _ HI a_ Hr_) as (b_ & Hl_ & ? & ?);
         rewrite ?lookup_insert; repeat case_decide; simplify_eq;
         solve [contradiction | eauto])
  | (* inv_drained *)
    intros a_ b_ Hl_ Hs_ Hw_ Hp_; rewrite ?elem_of_union, ?elem_of_singleton;
    heap_cases Hl_;
    try solve [ auto
              | eapply (inv_drained _ _ HI); eauto; congruence
              | right; eapply (inv_drained _ _ HI); eauto; congruence
              | exfalso; inv_facts HI a; refs_norm; arith
              | destruct (decide (a_ = a)) as [->|];
                [ first [ by left | exfalso; inv_facts HI a; refs_norm; arith ]
                | first [ eapply (inv_drained _ _ HI); eauto; congruence
                        | right; eapply (inv_drained _ _ HI); eauto; congruence ] ] ]
  | (* inv_next *)
    intros a_ [b_ Hl_]; heap_cases Hl_;
    try solve [ apply (inv_next _ _ HI); eauto
              | lia
              | pose proof (inv_next _ _ HI a_ ltac:(eauto)); lia ]
  | (* inv_log *)
    intros a_; unfold deallocations;
    cbn [heap released next_addr strongs weaks payloads trace];
    rewrite ?count_snoc_Deallocate, ?count_snoc_Deleter, ?count_snoc_Destroy;
    pose proof (inv_log _ _ HI a_) as Hlog_; unfold deallocations in Hlog_;
    try solve [ exact Hlog_ | apply log_release; assumption ] ].

(** A computation whose result state is known in full. *)
Ltac keeps_start f :=
  let H := fresh "H" in
  intros σ x σ' H; unfold f in H; unfold Deallocate in H; munfold_in H; mcases H; finish H;
  (split; [split; cbn [strongs weaks]; lensolve|]);
  intros [HB1 HB2] HI;
  cbn [strongs weaks] in HB1, HB2;
  repeat first [ rewrite length_insert in HB1 | rewrite length_app in HB1
               | rewrite length_insert in HB2 | rewrite length_app in HB2 ];
  cbn [length] in HB1, HB2.


Lemma SharedPtr_default_keeps : keeps None SharedPtr_default.
Proof. keeps_start SharedPtr_default. inv_fields HI 1%positive. Qed.

Lemma SharedPtr_copy_keeps other : keeps None (SharedPtr_copy other).
Proof.
  keeps_start SharedPtr_copy.
  - inv_fields HI a.
  - inv_fields HI 1%positive.
Qed.

Lemma SharedPtr_copy_conv_keeps delta other : keeps None (SharedPtr_copy_conv delta other).
Proof.
  keeps_start SharedPtr_copy_conv.
  - inv_fields HI a.
  - inv_fields HI 1%positive.
Qed.

Lemma SharedPtr_move_keeps other : keeps None (SharedPtr_move other).
Proof. keeps_start SharedPtr_move. inv_fields HI 1%positive. Qed.

Lemma SharedPtr_move_conv_keeps delta other : keeps None (SharedPtr_move_conv delta other).
Proof. keeps_start SharedPtr_move_conv. inv_fields HI 1%positive. Qed.

Lemma SharedPtr_from_weak_keeps weak : keeps None (SharedPtr_from_weak weak).
Proof. keeps_start SharedPtr_from_weak. inv_fields HI a. Qed.

Lemma WeakPtr_default_keeps pend : keeps pend WeakPtr_default.
Proof. keeps_start WeakPtr_default. inv_fields HI 1%positive. Qed.

Lemma WeakPtr_from_shared_keeps shared : keeps None (WeakPtr_from_shared shared).
Proof. keeps_start WeakPtr_from_shared. inv_fields HI a. Qed.

Lemma WeakPtr_from_shared_conv_keeps delta shared :
  keeps None (WeakPtr_from_shared_conv delta shared).
Proof. keeps_start WeakPtr_from_shared_conv. inv_fields HI a. Qed.

Lemma WeakPtr_copy_keeps other : keeps None (WeakPtr_copy other).
Proof. keeps_start WeakPtr_copy. inv_fields HI a. Qed.

Lemma WeakPtr_copy_conv_keeps delta other : keeps None (WeakPtr_copy_conv delta other).
Proof. keeps_start WeakPtr_copy_conv. inv_fields HI a. Qed.

Lemma WeakPtr_move_conv_keeps delta other : keeps None (WeakPtr_move_conv delta other).
Proof. keeps_start WeakPtr_move_conv. inv_fields HI a. Qed.

Lemma WeakPtr_move_keeps other : keeps None (WeakPtr_move other).
Proof. keeps_start WeakPtr_move. inv_fields HI 1%positive. Qed.

Lemma WeakPtr_from_shared_move_keeps shared : keeps None (WeakPtr_from_shared_move shared).
Proof. keeps_start WeakPtr_from_shared_move. inv_fields HI a. Qed.

Lemma WeakPtr_from_shared_move_conv_keeps delta shared :
  keeps None (WeakPtr_from_shared_move_conv delta shared).
Proof. keeps_start WeakPtr_from_shared_move_conv. inv_fields HI a. Qed.

Lemma SharedPtr_swap_keeps this other : keeps None (SharedPtr_swap this other).
Proof.
  destruct (decide (this = other)) as [->|Hne].
  - keeps_start SharedPtr_swap. inv_fields HI 1%positive.
  - keeps_start SharedPtr_swap. inv_fields HI 1%positive.
Qed.

Lemma WeakPtr_swap_keeps this other : keeps None (WeakPtr_swap this other).
Proof.
  destruct (decide (this = other)) as [->|Hne].
  - keeps_start WeakPtr_swap. inv_fields HI 1%positive.
  - keeps_start WeakPtr_swap. inv_fields HI 1%positive.
Qed.

Lemma WeakPtr_dtor_keeps pend this : keeps pend (WeakPtr_dtor this).
Proof.
  keeps_start WeakPtr_dtor; try done.
  - inv_fields HI a.
  - inv_fields HI a.
  - inv_fields HI a.
Qed.

Lemma bind_Ok_inv {A B} (m : M A) (k : A → M B) σ y σ' :
  (m ≫= k) σ = Ok y σ' → ∃ x σ1, m σ = Ok x σ1 ∧ k x σ1 = Ok y σ'.
Proof.
  unfold mbind, M_bind. destruct (m σ) as [x σ1|]; [|done]. eauto.
Qed.

Lemma keeps_ext pend {A} (m m' : M A) :
  (∀ σ, m σ = m' σ) → keeps pend m' → keeps pend m.
Proof. intros E K σ x σ' H. rewrite E in H. exact (K _ _ _ H). Qed.

Lemma grows_refl σ : grows σ σ.
Proof. unfold grows. lia. Qed.

Lemma keeps_deref pend cb : keeps pend (deref cb).
Proof.
  intros σ x σ' H. unfold deref in H. mcases H; finish H.
  split; [apply grows_refl | auto].
Qed.

Lemma keeps_get_state pend : keeps pend get_state.
Proof.
  intros σ x σ' H. injection H as <- <-. split; [apply grows_refl | auto].
Qed.

Lemma keeps_payloads pend f : keeps pend (modify (with_payloads f)).
Proof.
  intros σ x σ' H. injection H as <- <-. split; [unfold grows; cbn; lia|].
  intros _ HI. inv_fields HI 1%positive.
Qed.

Lemma keeps_emit_Deleter pend a p : keeps pend (emit (EvDeleter a p)).
Proof.
  intros σ x σ' H. injection H as <- <-. split; [unfold grows; cbn; lia|].
  intros _ HI. inv_fields HI 1%positive.
Qed.

Lemma keeps_emit_Destroy pend a : keeps pend (emit (EvDestroy a)).
Proof.
  intros σ x σ' H. injection H as <- <-. split; [unfold grows; cbn; lia|].
  intros _ HI. inv_fields HI 1%positive.
Qed.

Lemma payload_dtor_keeps pend ptr : keeps pend (payload_dtor ptr).
Proof.
  unfold payload_dtor. destruct ptr as [l|]; [|apply keeps_ret].
  apply keeps_bind; [apply keeps_get_state|]. intros σ0.
  destruct (payloads σ0 !! obj l); [|apply keeps_ret].
  apply keeps_bind; [apply WeakPtr_dtor_keeps|]. intros _. apply keeps_payloads.
Qed.

Lemma useDeleter_keeps pend cb : keeps pend (useDeleter cb).
Proof.
  unfold useDeleter. apply keeps_bind; [apply keeps_deref|]. intros [a b].
  destruct (variant b); [|apply keeps_ret].
  apply keeps_bind; [apply keeps_emit_Deleter|]. intros _. apply payload_dtor_keeps.
Qed.

Lemma Destroy_keeps pend cb : keeps pend (Destroy cb).
Proof.
  unfold Destroy. apply keeps_bind; [apply keeps_deref|]. intros [a b].
  destruct (variant b); [apply keeps_ret|].
  apply keeps_bind; [apply keeps_emit_Destroy|]. intros _. apply payload_dtor_keeps.
Qed.

Lemma strongs_kept_bind {A B} (m : M A) (k : A → M B) :
  strongs_kept m → (∀ x, strongs_kept (k x)) → strongs_kept (m ≫= k).
Proof.
  intros Hm Hk σ y σ' H. apply bind_Ok_inv in H as (x & σ1 & H1 & H2).
  rewrite (Hk _ _ _ _ H2). by eapply Hm.
Qed.

Lemma strongs_kept_ret {A} (x : A) : strongs_kept (mret x).
Proof. intros σ y σ' H. by injection H as <- <-. Qed.

Lemma WeakPtr_dtor_strongs this : strongs_kept (WeakPtr_dtor this).
Proof.
  intros σ x σ' H. unfold WeakPtr_dtor, Deallocate in H. munfold_in H.
  mcases H; by finish H.
Qed.

Lemma payload_dtor_strongs ptr : strongs_kept (payload_dtor ptr).
Proof.
  unfold payload_dtor. destruct ptr as [l|]; [|apply strongs_kept_ret].
  apply strongs_kept_bind; [by intros σ x σ' [= <- <-]|]. intros σ0.
  destruct (payloads σ0 !! obj l); [|apply strongs_kept_ret].
  apply strongs_kept_bind; [apply WeakPtr_dtor_strongs|].
  by intros _ σ x σ' [= <- <-].
Qed.

Lemma useDeleter_strongs cb : strongs_kept (useDeleter cb).
Proof.
  unfold useDeleter. apply strongs_kept_bind.
  { intros σ x σ' H. unfold deref in H. mcases H. by finish H. }
  intros [a b]. destruct (variant b); [|apply strongs_kept_ret].
  apply strongs_kept_bind; [by intros σ x σ' [= <- <-]|].
  intros _. apply payload_dtor_strongs.
Qed.

Lemma Destroy_strongs cb : strongs_kept (Destroy cb).
Proof.
  unfold Destroy. apply strongs_kept_bind.
  { intros σ x σ' H. unfold deref in H. mcases H. by finish H. }
  intros [a b]. destruct (variant b); [apply strongs_kept_ret|].
  apply strongs_kept_bind; [by intros σ x σ' [= <- <-]|].
  intros _. apply payload_dtor_strongs.
Qed.


(** The state between the decrement of [~SharedPtr] and its cleanup
    calls: the block at [a] is pending. *)
Lemma SharedPtr_dtor_pending σ this s a b :
  strongs σ !! this = Some s → s_cb s = Some a → live σ a b →
  size_t (shared_cnt b - 1) = 0 →
  Bounded σ → Inv σ →
  Inv_at (Some a)
    (with_heap <[a := {| shared_cnt := size_t (shared_cnt b - 1);
                         weak_cnt := weak_cnt b; variant := variant b |}]> σ).
Proof.
  intros Hs Hcb [Hb Hr] H0 [HB1 HB2] HI. unfold Inv in HI. inv_fields HI a.
Qed.

Lemma SharedPtr_dtor_keeps this : keeps None (SharedPtr_dtor this).
Proof.
  intros σ x σ' H. unfold SharedPtr_dtor, Deallocate in H. munfold_in H.
  mcases H; finish H.
  all: try match goal with
       | H1 : useDeleter _ _ = Ok _ ?σ2, H2 : Destroy _ ?σ2 = Ok _ ?σ3 |- _ =>
           destruct (useDeleter_keeps (Some a) _ _ _ _ H1) as [G1 I1];
           destruct (Destroy_keeps (Some a) _ _ _ _ H2) as [G2 I2];
           pose proof (useDeleter_strongs _ _ _ _ H1) as F1;
           pose proof (Destroy_strongs _ _ _ _ H2) as F2;
           cbn [strongs] in F1; rewrite F1 in F2;
           unfold grows in G1, G2; cbn [strongs weaks] in G1, G2;
           simplify_eq;
           (split; [unfold grows; cbn [strongs weaks]; lensolve|]);
           intros [HB1 HB2] HI; cbn [strongs weaks] in HB1, HB2;
           rewrite length_insert in HB1;
           assert (HI1 : Inv_at (Some a) σ3)
             by (apply I2; [split; lia|]; apply I1; [split; rewrite ?F1; lia|];
                 apply (SharedPtr_dtor_pending σ this s a b);
                 [done | done | done | by apply Z.eqb_eq
                 | split; rewrite <- ?F2; lia | done]);
           rewrite <- F2 in *
       end.
  - inv_fields HI1 a.
  - inv_fields HI1 a.
  - split; [unfold grows; cbn [strongs weaks]; lensolve|].
    intros [HB1 HB2] HI. cbn [strongs weaks] in HB1, HB2.
    rewrite length_insert in HB1. inv_fields HI a.
  - split; [apply grows_refl | auto].
Qed.

Lemma next_addr_fresh pend σ : Inv_at pend σ → heap σ !! next_addr σ = None.
Proof.
  intros HI. destruct (heap σ !! next_addr σ) eqn:E; [|done].
  pose proof (inv_next _ _ HI (next_addr σ) ltac:(eauto)). lia.
Qed.

Lemma SharedPtr_adopt_block_keeps ptr :
  keeps None
    (this ← new_strong {| s_cb := None; s_ptr := ptr |};
     cb ← allocate;
     write_strong this {| s_cb := Some cb; s_ptr := ptr |};;
     store cb {| shared_cnt := 1; weak_cnt := 0; variant := ControlBlockRegular ptr |};;
     mret this).
Proof.
  intros σ x σ' H. munfold_in H. finish H.
  split; [unfold grows; cbn [strongs weaks]; lensolve|].
  intros [HB1 HB2] HI. cbn [strongs weaks] in HB1, HB2.
  rewrite length_insert, length_app in HB1. cbn [length] in HB1.
  pose proof (next_addr_fresh _ _ HI) as Hfresh.
  inv_fields HI (next_addr σ).
Qed.

Lemma allocateShared_keeps is_base_of : keeps None (allocateShared is_base_of).
Proof.
  intros σ x σ' H.
  unfold allocateShared, EnableSharedFromThis_ctor, SharedPtr_from_block in H.
  destruct is_base_of; munfold_in H; finish H.
  all: split; [unfold grows; cbn [strongs weaks]; lensolve|].
  all: intros [HB1 HB2] HI; cbn [strongs weaks] in HB1, HB2.
  all: rewrite length_app in HB1; try rewrite length_app in HB2.
  all: cbn [length] in HB1, HB2.
  all: pose proof (next_addr_fresh _ _ HI) as Hfresh.
  all: inv_fields HI (next_addr σ).
Qed.

Lemma new_payload_keeps : keeps None new_payload.
Proof.
  intros σ x σ' H. unfold new_payload, EnableSharedFromThis_ctor in H.
  munfold_in H. finish H.
  split; [unfold grows; cbn [strongs weaks]; lensolve|].
  intros [HB1 HB2] HI. cbn [strongs weaks] in HB1, HB2.
  inv_fields HI (next_addr σ).
Qed.

Lemma wptr_of_keeps pend ptr : keeps pend (wptr_of ptr).
Proof.
  intros σ x σ' H. unfold wptr_of in H. mcases H; finish H.
  split; [apply grows_refl | auto].
Qed.

Create HintDb keeps.
#[local] Hint Resolve keeps_ret SharedPtr_default_keeps SharedPtr_copy_keeps
  SharedPtr_copy_conv_keeps SharedPtr_move_keeps SharedPtr_move_conv_keeps
  SharedPtr_from_weak_keeps SharedPtr_swap_keeps SharedPtr_dtor_keeps
  WeakPtr_default_keeps WeakPtr_from_shared_keeps WeakPtr_from_shared_conv_keeps
  WeakPtr_from_shared_move_keeps WeakPtr_from_shared_move_conv_keeps
  WeakPtr_copy_keeps WeakPtr_copy_conv_keeps WeakPtr_move_keeps
  WeakPtr_move_conv_keeps WeakPtr_swap_keeps WeakPtr_dtor_keeps
  allocateShared_keeps new_payload_keeps wptr_of_keeps : keeps.

(** Computations put together from calls that keep the invariant. *)
Ltac keeps_seq :=
  repeat first
    [ solve [auto with keeps]
    | apply keeps_bind; [|intros ?]
    | case_decide ].

Lemma SharedPtr_assign_copy_keeps this other :
  keeps None (SharedPtr_assign_copy this other).
Proof. unfold SharedPtr_assign_copy. keeps_seq. Qed.

Lemma SharedPtr_assign_move_keeps this other :
  keeps None (SharedPtr_assign_move this other).
Proof. unfold SharedPtr_assign_move. keeps_seq. Qed.

Lemma SharedPtr_assign_copy_conv_keeps delta this other :
  keeps None (SharedPtr_assign_copy_conv delta this other).
Proof. unfold SharedPtr_assign_copy_conv. keeps_seq. Qed.

Lemma SharedPtr_assign_move_conv_keeps delta this other :
  keeps None (SharedPtr_assign_move_conv delta this other).
Proof. unfold SharedPtr_assign_move_conv. keeps_seq. Qed.

Lemma SharedPtr_reset_keeps this : keeps None (SharedPtr_reset this).
Proof. unfold SharedPtr_reset. keeps_seq. Qed.

Lemma WeakPtr_assign_copy_keeps this other : keeps None (WeakPtr_assign_copy this other).
Proof. unfold WeakPtr_assign_copy. keeps_seq. Qed.

Lemma WeakPtr_assign_move_keeps this other : keeps None (WeakPtr_assign_move this other).
Proof. unfold WeakPtr_assign_move. keeps_seq. Qed.

Lemma WeakPtr_assign_shared_conv_keeps delta this shared :
  keeps None (WeakPtr_assign_shared_conv delta this shared).
Proof. unfold WeakPtr_assign_shared_conv. keeps_seq. Qed.

Lemma WeakPtr_assign_shared_move_conv_keeps delta this shared :
  keeps None (WeakPtr_assign_shared_move_conv delta this shared).
Proof. unfold WeakPtr_assign_shared_move_conv. keeps_seq. Qed.

Lemma WeakPtr_assign_copy_conv_keeps delta this other :
  keeps None (WeakPtr_assign_copy_conv delta this other).
Proof. unfold WeakPtr_assign_copy_conv. keeps_seq. Qed.

Lemma WeakPtr_assign_move_conv_keeps delta this other :
  keeps None (WeakPtr_assign_move_conv delta this other).
Proof. unfold WeakPtr_assign_move_conv. keeps_seq. Qed.

#[local] Hint Resolve SharedPtr_assign_copy_keeps SharedPtr_assign_move_keeps
  SharedPtr_assign_copy_conv_keeps SharedPtr_assign_move_conv_keeps
  SharedPtr_reset_keeps WeakPtr_assign_copy_keeps WeakPtr_assign_move_keeps
  WeakPtr_assign_shared_conv_keeps WeakPtr_assign_shared_move_conv_keeps
  WeakPtr_assign_copy_conv_keeps WeakPtr_assign_move_conv_keeps : keeps.

Lemma SharedPtr_adopt_keeps is_base_of ptr : keeps None (SharedPtr_adopt is_base_of ptr).
Proof.
  unfold SharedPtr_adopt.
  destruct (negb is_base_of || private_accessible class_EnableSharedFromThis class_SharedPtr);
    [|intros σ x σ' H; discriminate H].
  eapply (keeps_ext _ _
    ((this ← new_strong {| s_cb := None; s_ptr := ptr |};
      cb ← allocate;
      write_strong this {| s_cb := Some cb; s_ptr := ptr |};;
      store cb {| shared_cnt := 1; weak_cnt := 0;
                  variant := ControlBlockRegular ptr |};;
      mret this) ≫= λ this,
     (if is_base_of then
        wptr ← wptr_of ptr;
        result ← WeakPtr_assign_shared_conv 0 wptr this;
        WeakPtr_dtor result
      else mret tt);;
     mret this)); [done|].
  apply keeps_bind; [apply SharedPtr_adopt_block_keeps|]. intros this.
  destruct is_base_of; keeps_seq.
Qed.

#[local] Hint Resolve SharedPtr_adopt_keeps : keeps.

Lemma SharedPtr_reset_ptr_keeps is_base_of this ptr :
  keeps None (SharedPtr_reset_ptr is_base_of this ptr).
Proof. unfold SharedPtr_reset_ptr. keeps_seq. Qed.

Lemma exec_keeps c : keeps None (exec c).
Proof.
  destruct c; unfold exec, discard, makeShared, WeakPtr_lock, shared_from_this,
    WeakPtr_lock; keeps_seq; apply SharedPtr_reset_ptr_keeps.
Qed.

Lemma run_keeps cs : keeps None (run cs).
Proof.
  induction cs as [|c cs IH]; simpl; [apply keeps_ret|].
  apply keeps_bind; [apply exec_keeps | by intros _].
Qed.

Lemma Inv_init : Inv init.
Proof.
  constructor; cbn.
  - intros a b H. by rewrite lookup_empty in H.
  - intros a b H. by rewrite lookup_empty in H.
  - done.
  - done.
  - intros a b _ H. by rewrite lookup_empty in H.
  - intros a H. by apply not_elem_of_empty in H.
  - intros a b H. by rewrite lookup_empty in H.
  - intros a [b H]. by rewrite lookup_empty in H.
  - intros a. unfold deallocations. cbn. by rewrite decide_False by apply not_elem_of_empty.
Qed.

Theorem reachable_Inv σ : reachable σ → Bounded σ → Inv σ.
Proof.
  intros [cs H] HB. destruct (run_keeps cs _ _ _ H) as [_ HI].
  apply HI; [done | apply Inv_init].
Qed.

(** ** Consequences of the invariant *)

(** X1: In every state a client program reaches, the counts of a block are
    the numbers of [SharedPtr] and [WeakPtr] objects that reference it,
    and [Deallocate] has been called on it once if both counts are 0
    and never otherwise. *)
Theorem Deallocate_once_when_drained σ a b :
  reachable σ → Bounded σ → heap σ !! a = Some b →
  shared_cnt b = strong_refs σ a ∧
  weak_cnt b = weak_refs σ a ∧
  deallocations σ a =
    if decide (shared_cnt b = 0 ∧ weak_cnt b = 0) then 1%nat else 0%nat.
Proof.
  intros Hreach HB Hb. pose proof (reachable_Inv _ Hreach HB) as HI.
  split; [|split].
  - rewrite (inv_shared _ _ HI a b Hb). unfold pending, ind.
    rewrite decide_False by done. lia.
  - apply (inv_weak _ _ HI a b Hb).
  - rewrite (inv_log _ _ HI a). destruct (decide (a ∈ released σ)) as [Hr|Hr].
    + destruct (inv_released _ _ HI a Hr) as (b' & Hb' & H1 & H2).
      simplify_eq. by rewrite decide_True.
    + destruct (decide (shared_cnt b = 0 ∧ weak_cnt b = 0)) as [[H1 H2]|]; [|done].
      destruct Hr. by apply (inv_drained _ _ HI a b).
Qed.

(** X2: In every state a client program reaches, a pointer that is not
    empty references a live block, which counts it; so the counts are
    within [size_t] with room to spare as long as one more pointer
    object fits in the store. *)
Theorem nonempty_pointer_live σ :
  reachable σ → Bounded σ →
  (∀ i s a, strongs σ !! i = Some s → s_cb s = Some a →
     ∃ b, live σ a b ∧
       1 <= shared_cnt b <= Z.of_nat (length (strongs σ)) ∧
       0 <= weak_cnt b <= Z.of_nat (length (weaks σ))) ∧
  (∀ i w a, weaks σ !! i = Some w → w_cb w = Some a →
     ∃ b, live σ a b ∧
       0 <= shared_cnt b <= Z.of_nat (length (strongs σ)) ∧
       1 <= weak_cnt b <= Z.of_nat (length (weaks σ))).
Proof.
  intros Hreach HB. pose proof (reachable_Inv _ Hreach HB) as HI.
  unfold Inv in HI.
  assert (Hlive : ∀ a b, heap σ !! a = Some b →
            1 <= shared_cnt b ∨ 1 <= weak_cnt b → a ∉ released σ).
  { intros a b Hb Hpos Hr.
    destruct (inv_released _ _ HI a Hr) as (b' & Hb' & H1 & H2).
    simplify_eq. lia. }
  split.
  - intros i s a Hs Hcb.
    pose proof (refs_lookup s_cb a _ _ _ Hs Hcb) as Hrefs.
    destruct (heap σ !! a) as [b|] eqn:Hb.
    2: { pose proof (inv_strong_dom _ _ HI a Hb) as H0.
         unfold strong_refs in H0. lia. }
    inv_facts HI a. unfold pending, ind in *. rewrite decide_False in * by done.
    exists b. split; [split; [done|]; eapply Hlive; eauto; lia | lia].
  - intros i w a Hw Hcb.
    pose proof (refs_lookup w_cb a _ _ _ Hw Hcb) as Hrefs.
    destruct (heap σ !! a) as [b|] eqn:Hb.
    2: { pose proof (inv_weak_dom _ _ HI a Hb) as H0.
         unfold weak_refs in H0. lia. }
    inv_facts HI a. unfold pending, ind in *. rewrite decide_False in * by done.
    exists b. split; [split; [done|]; eapply Hlive; eauto; lia | lia].
Qed.

(** Both orders of destroying the last strong and the last weak pointer
    release the block at the second destruction. *)
Lemma Deallocate_both_orders :
  trace (final (run (take 3 strong_then_weak) init)) = [EvDeleter 1%positive P100] ∧
  trace (final (run strong_then_weak init)) =
    [EvDeleter 1%positive P100; EvDeallocate 1%positive] ∧
  trace (final (run (take 3 weak_then_strong) init)) = [] ∧
  trace (final (run weak_then_strong init)) =
    [EvDeleter 1%positive P100; EvDeallocate 1%positive].
Proof. repeat split; vm_compute; reflexivity. Qed.

(** ** Adoption of a payload deriving from [EnableSharedFromThis] *)

Lemma static_cast_0 p : static_cast 0 p = p.
Proof.
  destruct p as [[o k]|]; [|done]. unfold static_cast; cbn. by rewrite Z.add_0_r.
Qed.

(** C8: the raw-pointer constructor has no instance for a [T] that
    derives from [EnableSharedFromThis<T>]: its statement
    [ptr->wptr = *this] names a private member of the mixin, and
    [SharedPtr] is not among the mixin's friends.  A program that adopts
    such a payload does not compile, wherever the adoption stands in it,
    so no block with counts (1, 1) is set up, and [reset(ptr)] fares the
    same.  Through [makeShared] a payload of such a type is owned with
    counts (1, 0), its [wptr] left empty. *)
Theorem SharedPtr_adopt_mixin_ill_formed :
  private_accessible class_EnableSharedFromThis class_SharedPtr = false ∧
  (∀ σ ptr, SharedPtr_adopt true ptr σ = Fault IllFormed σ) ∧
  (∀ σ this ptr, SharedPtr_reset_ptr true this ptr σ = Fault IllFormed σ) ∧
  status mixin_adopted = Some IllFormed ∧
  heap (final mixin_adopted) = ∅ ∧
  (∀ cs cs' ptr σ, status (run (cs ++ SAdopt true ptr :: cs') σ) ≠ None) ∧
  (∀ σ, ∃ σ',
     makeShared true σ = Ok (length (strongs σ)) σ' ∧
     counts σ' (next_addr σ) = Some (1, 0) ∧
     payloads σ' !! next_addr σ = Some (length (weaks σ)) ∧
     weaks σ' !! length (weaks σ) = Some null_weak).
Proof.
  split; [reflexivity|]. split; [reflexivity|]. split; [reflexivity|].
  split; [reflexivity|]. split; [reflexivity|].
  split.
  { intros cs cs' ptr. induction cs as [|c cs IH]; intros σ; simpl.
    - done.
    - cbv [mbind M_bind]. destruct (exec c σ) as [[] σ1|e σ1]; [apply IH | done]. }
  intros σ. unfold makeShared, allocateShared, EnableSharedFromThis_ctor,
    SharedPtr_from_block. munfold.
  eexists; split; [reflexivity|]. unfold counts. cbn. repeat mstep. done.
Qed.

(** * Operation by operation *)

(** Evaluation with the cleanup calls unfolded. *)
Ltac munfold_calls :=
  unfold useDeleter, Destroy, payload_dtor, Deallocate; munfold.

Ltac msteps := repeat first [mstep | progress cbn [obj off]].

Ltac zstep :=
  match goal with
  | |- context [size_t ?z] => rewrite (size_t_id z) by (unfold is_size_t; lia)
  | |- context [if ?x =? ?y then _ else _] =>
      destruct (Z.eqb_spec x y); [try lia | try lia]
  end.

Lemma rebuild_shared s : {| s_cb := s_cb s; s_ptr := s_ptr s |} = s.
Proof. by destruct s. Qed.

Lemma rebuild_weak w : {| w_cb := w_cb w; w_ptr := w_ptr w |} = w.
Proof. by destruct w. Qed.

(** X3: [SharedPtr(const SharedPtr&)]: the copy of a non-empty pointer has
    the same control block and payload pointer and raises the strong
    count by 1; the copy of an empty pointer is empty and touches no
    block. *)
Theorem SharedPtr_copy_spec :
  (∀ σ other s a b,
     strongs σ !! other = Some s → s_cb s = Some a → live σ a b →
     0 <= shared_cnt b < SIZE_MAX →
     ∃ σ', SharedPtr_copy other σ = Ok (length (strongs σ)) σ' ∧
       strongs σ' !! length (strongs σ) = Some s ∧
       strongs σ' !! other = Some s ∧
       counts σ' a = Some (shared_cnt b + 1, weak_cnt b) ∧
       (∀ a', a' ≠ a → heap σ' !! a' = heap σ !! a') ∧
       trace σ' = trace σ ∧ released σ' = released σ) ∧
  (∀ σ other s,
     strongs σ !! other = Some s → s_cb s = None →
     SharedPtr_copy other σ =
       Ok (length (strongs σ)) (with_strongs (λ l, l ++ [s]) σ)).
Proof.
  split.
  - intros σ other s a b Hs Hcb [Hb Hr] Hsc.
    unfold SharedPtr_copy. munfold. repeat mstep.
    eexists; split; [reflexivity|]. unfold counts. repeat mstep.
    rewrite size_t_id by (unfold is_size_t; lia).
    rewrite <- Hcb, rebuild_shared. repeat split; try done.
    intros a' Hne. by rewrite lookup_insert_ne.
  - intros σ other s Hs Hcb. unfold SharedPtr_copy. munfold. repeat mstep.
    by rewrite <- Hcb, rebuild_shared.
Qed.

(** [~SharedPtr] on a pointer to a live block whose payload holds no
    observer: the state it ends in. *)
Lemma SharedPtr_dtor_eval σ this s a b :
  strongs σ !! this = Some s → s_cb s = Some a → live σ a b →
  1 <= shared_cnt b <= SIZE_MAX →
  match variant b with
  | ControlBlockRegular (Some l) => payloads σ !! obj l = None
  | ControlBlockRegular None => True
  | ControlBlockMakeShared => payloads σ !! a = None
  end →
  SharedPtr_dtor this σ =
    Ok tt
      {| heap := <[a := {| shared_cnt := shared_cnt b - 1; weak_cnt := weak_cnt b;
                           variant := variant b |}]> (heap σ);
         released :=
           if decide (shared_cnt b = 1 ∧ weak_cnt b = 0)
           then {[a]} ∪ released σ else released σ;
         next_addr := next_addr σ;
         strongs := <[this := null_shared]> (strongs σ);
         weaks := weaks σ;
         payloads := payloads σ;
         trace :=
           trace σ ++
           (if decide (shared_cnt b = 1) then
              match variant b with
              | ControlBlockRegular ptr => [EvDeleter a ptr]
              | ControlBlockMakeShared => [EvDestroy a]
              end ++
              (if decide (weak_cnt b = 0) then [EvDeallocate a] else [])
            else []) |}.
Proof.
  intros Hs Hcb [Hb Hr] Hsc Hp.
  unfold SharedPtr_dtor. munfold_calls. repeat mstep.
  rewrite size_t_id by (unfold is_size_t; lia).
  destruct (Z.eqb_spec (shared_cnt b - 1) 0) as [H1|H1].
  - rewrite (decide_True (P := shared_cnt b = 1)) by lia.
    destruct (variant b) as [[l|]|] eqn:Hv; msteps;
      (destruct (Z.eqb_spec (weak_cnt b) 0) as [H0|H0];
       [ rewrite (decide_True (P := weak_cnt b = 0)) by done;
         rewrite (decide_True (P := shared_cnt b = 1 ∧ weak_cnt b = 0)) by (split; lia)
       | rewrite (decide_False (P := weak_cnt b = 0)) by done;
         rewrite (decide_False (P := shared_cnt b = 1 ∧ weak_cnt b = 0)) by tauto ]);
      msteps; rewrite ?insert_insert_eq, <- ?app_assoc; reflexivity.
  - rewrite (decide_False (P := shared_cnt b = 1)) by lia.
    rewrite (decide_False (P := shared_cnt b = 1 ∧ weak_cnt b = 0)) by lia.
    repeat mstep. by rewrite app_nil_r.
Qed.

Lemma SharedPtr_copy_spec_witness :
  (∃ σ', SharedPtr_copy 0 strong_and_weak = Ok 1%nat σ' ∧
     strongs σ' !! 1%nat = Some {| s_cb := Some 1%positive; s_ptr := P100 |} ∧
     strongs σ' !! 0%nat = Some {| s_cb := Some 1%positive; s_ptr := P100 |} ∧
     counts σ' 1%positive = Some (1 + 1, 1) ∧
     (∀ a', a' ≠ 1%positive → heap σ' !! a' = heap strong_and_weak !! a') ∧
     trace σ' = trace strong_and_weak ∧ released σ' = released strong_and_weak) ∧
  SharedPtr_copy 0 expired_weak =
    Ok 1%nat (with_strongs (λ l, l ++ [null_shared]) expired_weak).
Proof.
  split.
  - apply (proj1 SharedPtr_copy_spec strong_and_weak 0%nat
             {| s_cb := Some 1%positive; s_ptr := P100 |} 1%positive
             {| shared_cnt := 1; weak_cnt := 1; variant := ControlBlockRegular P100 |}).
    + reflexivity.
    + reflexivity.
    + split; [reflexivity | by vm_compute].
    + unfold SIZE_MAX; simpl; lia.
  - apply (proj2 SharedPtr_copy_spec expired_weak 0%nat null_shared); reflexivity.
Defined.

(** [~WeakPtr] on a pointer to a live block: the state it ends in. *)
Lemma WeakPtr_dtor_eval σ this w a b :
  weaks σ !! this = Some w → w_cb w = Some a → live σ a b →
  1 <= weak_cnt b <= SIZE_MAX →
  WeakPtr_dtor this σ =
    Ok tt
      {| heap := <[a := {| shared_cnt := shared_cnt b; weak_cnt := weak_cnt b - 1;
                           variant := variant b |}]> (heap σ);
         released :=
           if decide (weak_cnt b = 1 ∧ shared_cnt b = 0)
           then {[a]} ∪ released σ else released σ;
         next_addr := next_addr σ;
         strongs := strongs σ;
         weaks := <[this := null_weak]> (weaks σ);
         payloads := payloads σ;
         trace :=
           trace σ ++
           (if decide (weak_cnt b = 1 ∧ shared_cnt b = 0)
            then [EvDeallocate a] else []) |}.
Proof.
  intros Hw Hcb [Hb Hr] Hwc.
  unfold WeakPtr_dtor. munfold_calls. repeat mstep.
  rewrite size_t_id by (unfold is_size_t; lia).
  destruct (Z.eqb_spec (weak_cnt b - 1) 0) as [H1|H1]; repeat mstep.
  - destruct (Z.eqb_spec (shared_cnt b) 0) as [H0|H0]; repeat mstep.
    + rewrite !decide_True by (split; lia). reflexivity.
    + rewrite !decide_False by tauto. by rewrite app_nil_r.
  - rewrite !decide_False by lia. by rewrite app_nil_r.
Qed.

(** X5: [~WeakPtr]: an empty pointer is left alone; otherwise the weak count
    drops by 1 and the pointer becomes empty.  [Deallocate] is called if
    and only if this was the last weak pointer and no strong pointer is
    left; the deleter is never called. *)
Theorem WeakPtr_dtor_spec :
  (∀ σ this w, weaks σ !! this = Some w → w_cb w = None →
     WeakPtr_dtor this σ = Ok tt σ) ∧
  (∀ σ this w a b,
     weaks σ !! this = Some w → w_cb w = Some a → live σ a b →
     1 <= weak_cnt b <= SIZE_MAX →
     ∃ σ', WeakPtr_dtor this σ = Ok tt σ' ∧
       weaks σ' !! this = Some null_weak ∧
       strongs σ' = strongs σ ∧
       counts σ' a = Some (shared_cnt b, weak_cnt b - 1) ∧
       (weak_cnt b = 1 → shared_cnt b = 0 →
          trace σ' = trace σ ++ [EvDeallocate a] ∧
          released σ' = {[a]} ∪ released σ) ∧
       (1 < weak_cnt b ∨ shared_cnt b ≠ 0 →
          trace σ' = trace σ ∧ released σ' = released σ)).
Proof.
  split.
  - intros σ this w Hw Hcb. unfold WeakPtr_dtor. munfold. by repeat mstep.
  - intros σ this w a b Hw Hcb Hlive Hwc.
    rewrite (WeakPtr_dtor_eval σ this w a b) by done.
    eexists; split; [reflexivity|]. unfold counts. repeat mstep.
    split; [done|]. split; [done|]. split; [done|]. repeat split.
    + by rewrite decide_True.
    + by rewrite decide_True.
    + rewrite decide_False by lia. apply app_nil_r.
    + rewrite decide_False by lia. done.
Qed.

Lemma WeakPtr_dtor_spec_witness :
  WeakPtr_dtor 0 empty_weak = Ok tt empty_weak ∧
  ∃ σ', WeakPtr_dtor 0 expired_weak = Ok tt σ' ∧
    weaks σ' !! 0%nat = Some null_weak ∧
    strongs σ' = strongs expired_weak ∧
    counts σ' 1%positive = Some (0, 1 - 1) ∧
    (1 = 1 → 0 = 0 →
       trace σ' = trace expired_weak ++ [EvDeallocate 1%positive] ∧
       released σ' = {[1%positive]} ∪ released expired_weak) ∧
    (1 < 1 ∨ 0 ≠ 0 →
       trace σ' = trace expired_weak ∧ released σ' = released expired_weak).
Proof.
  split.
  - apply (proj1 WeakPtr_dtor_spec empty_weak 0%nat null_weak); reflexivity.
  - apply (proj2 WeakPtr_dtor_spec expired_weak 0%nat
             {| w_cb := Some 1%positive; w_ptr := P100 |} 1%positive
             {| shared_cnt := 0; weak_cnt := 1; variant := ControlBlockRegular P100 |}).
    + reflexivity.
    + reflexivity.
    + split; [reflexivity | by vm_compute].
    + unfold SIZE_MAX; simpl; lia.
Defined.

(** X6: [SharedPtr(SharedPtr&&)] and its converting form: the new pointer
    takes the control block and the (converted) payload pointer, the
    source becomes empty, and no count, block or log entry changes;
    destroying the moved-from pointer afterwards does nothing. *)
Theorem SharedPtr_move_spec σ other s :
  strongs σ !! other = Some s →
  (∃ σ', SharedPtr_move other σ = Ok (length (strongs σ)) σ' ∧
     strongs σ' !! length (strongs σ) = Some s ∧
     strongs σ' !! other = Some null_shared ∧
     heap σ' = heap σ ∧ released σ' = released σ ∧ trace σ' = trace σ ∧
     SharedPtr_dtor other σ' = Ok tt σ') ∧
  (∀ delta,
     ∃ σ', SharedPtr_move_conv delta other σ = Ok (length (strongs σ)) σ' ∧
       strongs σ' !! length (strongs σ) =
         Some {| s_cb := s_cb s; s_ptr := static_cast delta (s_ptr s) |} ∧
       strongs σ' !! other = Some null_shared ∧
       heap σ' = heap σ ∧ released σ' = released σ ∧ trace σ' = trace σ ∧
       SharedPtr_dtor other σ' = Ok tt σ').
Proof.
  intros Hs. split; [|intros delta].
  - unfold SharedPtr_move. munfold. repeat mstep.
    eexists; split; [reflexivity|]. repeat mstep. rewrite rebuild_shared.
    repeat split. unfold SharedPtr_dtor. munfold. by repeat mstep.
  - unfold SharedPtr_move_conv. munfold. repeat mstep.
    eexists; split; [reflexivity|]. repeat mstep.
    repeat split. unfold SharedPtr_dtor. munfold. by repeat mstep.
Qed.

Lemma SharedPtr_move_spec_witness :
  (∃ σ', SharedPtr_move 0 one_strong = Ok 1%nat σ' ∧
     strongs σ' !! 1%nat = Some {| s_cb := Some 1%positive; s_ptr := P100 |} ∧
     strongs σ' !! 0%nat = Some null_shared ∧
     heap σ' = heap one_strong ∧ released σ' = released one_strong ∧
     trace σ' = trace one_strong ∧
     SharedPtr_dtor 0 σ' = Ok tt σ') ∧
  (∀ delta,
     ∃ σ', SharedPtr_move_conv delta 0 one_strong = Ok 1%nat σ' ∧
       strongs σ' !! 1%nat =
         Some {| s_cb := Some 1%positive; s_ptr := static_cast delta P100 |} ∧
       strongs σ' !! 0%nat = Some null_shared ∧
       heap σ' = heap one_strong ∧ released σ' = released one_strong ∧
       trace σ' = trace one_strong ∧
       SharedPtr_dtor 0 σ' = Ok tt σ').
Proof.
  apply (SharedPtr_move_spec one_strong 0%nat
           {| s_cb := Some 1%positive; s_ptr := P100 |}).
  reflexivity.
Defined.

Lemma swap_back {A} (l : list A) i j x y :
  l !! i = Some x → l !! j = Some y →
  <[j := y]> (<[i := x]> (<[j := x]> (<[i := y]> l))) = l.
Proof.
  intros Hi Hj.
  assert (i < length l)%nat by (by eapply lookup_lt_Some).
  assert (j < length l)%nat by (by eapply lookup_lt_Some).
  apply list_eq. intros k.
  destruct (decide (k = j)) as [->|Hkj].
  - by rewrite list_lookup_insert_eq by (rewrite !length_insert; lia).
  - rewrite list_lookup_insert_ne by done.
    destruct (decide (k = i)) as [->|Hki].
    + by rewrite list_lookup_insert_eq by (rewrite !length_insert; lia).
    + by rewrite !list_lookup_insert_ne by done.
Qed.

Lemma swapped_lookups {A} (l : list A) i j x y :
  l !! i = Some x → l !! j = Some y →
  <[j := x]> (<[i := y]> l) !! i = Some y ∧
  <[j := x]> (<[i := y]> l) !! j = Some x.
Proof.
  intros Hi Hj.
  assert (i < length l)%nat by (by eapply lookup_lt_Some).
  assert (j < length l)%nat by (by eapply lookup_lt_Some).
  split.
  - destruct (decide (i = j)) as [->|Hne].
    + rewrite list_lookup_insert_eq by (rewrite length_insert; lia). congruence.
    + rewrite list_lookup_insert_ne by done. by rewrite list_lookup_insert_eq.
  - by rewrite list_lookup_insert_eq by (rewrite length_insert; lia).
Qed.

(** X7: [swap] exchanges the fields of two pointers of the same kind and
    changes nothing else (no count moves); swapping twice restores the
    state, and a pointer may be swapped with itself. *)
Theorem swap_spec :
  (∀ σ this other t o,
     strongs σ !! this = Some t → strongs σ !! other = Some o →
     ∃ σ', SharedPtr_swap this other σ = Ok tt σ' ∧
       strongs σ' !! this = Some o ∧ strongs σ' !! other = Some t ∧
       heap σ' = heap σ ∧ weaks σ' = weaks σ ∧
       released σ' = released σ ∧ trace σ' = trace σ ∧
       SharedPtr_swap this other σ' = Ok tt σ) ∧
  (∀ σ this other t o,
     weaks σ !! this = Some t → weaks σ !! other = Some o →
     ∃ σ', WeakPtr_swap this other σ = Ok tt σ' ∧
       weaks σ' !! this = Some o ∧ weaks σ' !! other = Some t ∧
       heap σ' = heap σ ∧ strongs σ' = strongs σ ∧
       released σ' = released σ ∧ trace σ' = trace σ ∧
       WeakPtr_swap this other σ' = Ok tt σ).
Proof.
  split; intros σ this other t o Ht Ho.
  - destruct (swapped_lookups _ _ _ _ _ Ht Ho) as [L1 L2].
    unfold SharedPtr_swap. munfold. rewrite Ht, Ho.
    eexists; split; [reflexivity|]. cbn.
    rewrite L1, L2. repeat split; try done.
    repeat (cbn [strongs]; first [rewrite L1 | rewrite L2]). cbn.
    rewrite (swap_back _ _ _ _ _ Ht Ho). by destruct σ.
  - destruct (swapped_lookups _ _ _ _ _ Ht Ho) as [L1 L2].
    unfold WeakPtr_swap. munfold. rewrite Ht, Ho.
    eexists; split; [reflexivity|]. cbn.
    rewrite L1, L2. repeat split; try done.
    repeat (cbn [weaks]; first [rewrite L1 | rewrite L2]). cbn.
    rewrite (swap_back _ _ _ _ _ Ht Ho). by destruct σ.
Qed.

Lemma swap_spec_witness :
  (∃ σ', SharedPtr_swap 0 1 two_blocks = Ok tt σ' ∧
     strongs σ' !! 0%nat = Some {| s_cb := Some 2%positive; s_ptr := P200 |} ∧
     strongs σ' !! 1%nat = Some {| s_cb := Some 1%positive; s_ptr := P100 |} ∧
     heap σ' = heap two_blocks ∧ weaks σ' = weaks two_blocks ∧
     released σ' = released two_blocks ∧ trace σ' = trace two_blocks ∧
     SharedPtr_swap 0 1 σ' = Ok tt two_blocks) ∧
  (∃ σ', WeakPtr_swap 0 0 strong_and_weak = Ok tt σ' ∧
     weaks σ' !! 0%nat = Some {| w_cb := Some 1%positive; w_ptr := P100 |} ∧
     weaks σ' !! 0%nat = Some {| w_cb := Some 1%positive; w_ptr := P100 |} ∧
     heap σ' = heap strong_and_weak ∧ strongs σ' = strongs strong_and_weak ∧
     released σ' = released strong_and_weak ∧ trace σ' = trace strong_and_weak ∧
     WeakPtr_swap 0 0 σ' = Ok tt strong_and_weak).
Proof.
  split.
  - apply (proj1 swap_spec two_blocks 0%nat 1%nat); reflexivity.
  - apply (proj2 swap_spec strong_and_weak 0%nat 0%nat); reflexivity.
Defined.

(** [~SharedPtr] on a pointer that is not the last one of its block. *)
Lemma SharedPtr_dtor_not_last σ this s a b :
  strongs σ !! this = Some s → s_cb s = Some a → live σ a b →
  2 <= shared_cnt b <= SIZE_MAX →
  SharedPtr_dtor this σ =
    Ok tt
      (with_strongs <[this := null_shared]>
         (with_heap <[a := {| shared_cnt := shared_cnt b - 1;
                              weak_cnt := weak_cnt b; variant := variant b |}]> σ)).
Proof.
  intros Hs Hcb [Hb Hr] Hsc.
  unfold SharedPtr_dtor. munfold. repeat mstep.
  rewrite size_t_id by (unfold is_size_t; lia).
  destruct (Z.eqb_spec (shared_cnt b - 1) 0) as [H1|H1]; [lia|]. reflexivity.
Qed.

(** X10: [SharedPtr::use_count()] reads the strong count through the control
    block without a null check: it goes through a null pointer on an
    empty [SharedPtr], where [get()] returns the null payload pointer. *)
Theorem SharedPtr_use_count_spec :
  (∀ σ this s, strongs σ !! this = Some s → s_cb s = None →
     SharedPtr_use_count this σ = Fault NullDeref σ ∧
     SharedPtr_get this σ = Ok (s_ptr s) σ) ∧
  (∀ σ this s a b, strongs σ !! this = Some s → s_cb s = Some a → live σ a b →
     SharedPtr_use_count this σ = Ok (shared_cnt b) σ ∧
     SharedPtr_get this σ = Ok (s_ptr s) σ).
Proof.
  split.
  - intros σ this s Hs Hcb. unfold SharedPtr_use_count, SharedPtr_get. munfold.
    by repeat mstep.
  - intros σ this s a b Hs Hcb [Hb Hr]. unfold SharedPtr_use_count, SharedPtr_get.
    munfold. by repeat mstep.
Qed.

Lemma SharedPtr_use_count_spec_witness :
  (SharedPtr_use_count 0 expired_weak = Fault NullDeref expired_weak ∧
   SharedPtr_get 0 expired_weak = Ok None expired_weak) ∧
  (SharedPtr_use_count 0 two_strong = Ok 2 two_strong ∧
   SharedPtr_get 0 two_strong = Ok P100 two_strong).
Proof.
  split.
  - apply (proj1 SharedPtr_use_count_spec expired_weak 0%nat null_shared);
      reflexivity.
  - apply (proj2 SharedPtr_use_count_spec two_strong 0%nat
             {| s_cb := Some 1%positive; s_ptr := P100 |} 1%positive
             {| shared_cnt := 2; weak_cnt := 0; variant := ControlBlockRegular P100 |}).
    + reflexivity.
    + reflexivity.
    + split; [reflexivity | by vm_compute].
Defined.

(** X11: [makeShared]/[allocateShared] make one allocation: the block, with
    counts (1, 0), holds the payload the new pointer points to.
    Destroying that pointer destroys the payload in place and then
    releases the allocation; no deleter is involved. *)
Theorem makeShared_spec σ :
  next_addr σ ∉ released σ → payloads σ !! next_addr σ = None →
  ∃ σ1 σ2,
    makeShared false σ = Ok (length (strongs σ)) σ1 ∧
    allocateShared false σ = Ok (length (strongs σ)) σ1 ∧
    strongs σ1 !! length (strongs σ) =
      Some {| s_cb := Some (next_addr σ);
              s_ptr := Some {| obj := next_addr σ; off := 0 |} |} ∧
    heap σ1 !! next_addr σ =
      Some {| shared_cnt := 1; weak_cnt := 0; variant := ControlBlockMakeShared |} ∧
    next_addr σ1 = Pos.succ (next_addr σ) ∧
    trace σ1 = trace σ ∧
    SharedPtr_dtor (length (strongs σ)) σ1 = Ok tt σ2 ∧
    trace σ2 = trace σ ++ [EvDestroy (next_addr σ); EvDeallocate (next_addr σ)] ∧
    released σ2 = {[next_addr σ]} ∪ released σ ∧
    strongs σ2 !! length (strongs σ) = Some null_shared.
Proof.
  intros Hr Hp.
  unfold makeShared, allocateShared, SharedPtr_from_block. munfold.
  eexists _, _. split; [reflexivity|]. split; [reflexivity|]. repeat mstep.
  split; [done|]. split; [done|]. split; [done|]. split; [done|].
  erewrite (SharedPtr_dtor_eval _ (length (strongs σ)) _ (next_addr σ)).
  2: { cbn [strongs]. apply lookup_snoc. }
  2: reflexivity.
  2: { split; cbn [heap released]; [apply lookup_insert_eq | done]. }
  2: { cbn. unfold SIZE_MAX. lia. }
  2: { cbn. done. }
  split; [reflexivity|]. cbn. by repeat mstep.
Qed.

Lemma makeShared_spec_witness :
  ∃ σ1 σ2,
    makeShared false one_strong = Ok 1%nat σ1 ∧
    allocateShared false one_strong = Ok 1%nat σ1 ∧
    strongs σ1 !! 1%nat =
      Some {| s_cb := Some 2%positive;
              s_ptr := Some {| obj := 2%positive; off := 0 |} |} ∧
    heap σ1 !! 2%positive =
      Some {| shared_cnt := 1; weak_cnt := 0; variant := ControlBlockMakeShared |} ∧
    next_addr σ1 = 3%positive ∧
    trace σ1 = trace one_strong ∧
    SharedPtr_dtor 1 σ1 = Ok tt σ2 ∧
    trace σ2 = trace one_strong ++ [EvDestroy 2%positive; EvDeallocate 2%positive] ∧
    released σ2 = {[2%positive]} ∪ released one_strong ∧
    strongs σ2 !! 1%nat = Some null_shared.
Proof.
  apply (makeShared_spec one_strong).
  - by vm_compute.
  - reflexivity.
Defined.

(** Closed [size_t] and comparison terms. *)
Ltac zconst :=
  match goal with
  | |- context [size_t ?z] =>
      let v := eval vm_compute in (size_t z) in progress change (size_t z) with v
  | |- context [?x =? ?y] =>
      let v := eval vm_compute in (x =? y) in progress change (x =? y) with v
  | |- context [?x - ?y] =>
      let v := eval vm_compute in (x - y) in progress change (x - y) with v
  end.

(** X12: Adoption followed by a converting copy: the adopted pointer
    has a use count of 1, a (converting) copy raises it to 2, destroying
    the first pointer lowers it to 1 and calls nothing, and destroying
    the second calls the deleter once, on the pointer that was adopted
    and not on the converted one, and then releases the block. *)
Theorem SharedPtr_adopt_copy_destroy σ ptr delta :
  next_addr σ ∉ released σ →
  match ptr with Some l => payloads σ !! obj l = None | None => True end →
  ∃ σ1 σ2 σ3 σ4,
    SharedPtr_adopt false ptr σ = Ok (length (strongs σ)) σ1 ∧
    SharedPtr_use_count (length (strongs σ)) σ1 = Ok 1 σ1 ∧
    SharedPtr_copy_conv delta (length (strongs σ)) σ1 = Ok (S (length (strongs σ))) σ2 ∧
    SharedPtr_use_count (length (strongs σ)) σ2 = Ok 2 σ2 ∧
    SharedPtr_get (S (length (strongs σ))) σ2 = Ok (static_cast delta ptr) σ2 ∧
    SharedPtr_dtor (length (strongs σ)) σ2 = Ok tt σ3 ∧
    SharedPtr_use_count (S (length (strongs σ))) σ3 = Ok 1 σ3 ∧
    trace σ3 = trace σ ∧
    SharedPtr_dtor (S (length (strongs σ))) σ3 = Ok tt σ4 ∧
    trace σ4 = trace σ ++ [EvDeleter (next_addr σ) ptr; EvDeallocate (next_addr σ)] ∧
    released σ4 = {[next_addr σ]} ∪ released σ.
Proof.
  intros Hr Hp.
  eexists _, _, _, _.
  split; [unfold SharedPtr_adopt; munfold; reflexivity|].
  split; [unfold SharedPtr_use_count; munfold; by msteps|].
  split.
  { unfold SharedPtr_copy_conv. munfold. msteps.
    rewrite length_insert, length_app, Nat.add_1_r. reflexivity. }
  split; [unfold SharedPtr_use_count; munfold; msteps; by repeat zconst|].
  split; [unfold SharedPtr_get; munfold; by msteps|].
  split.
  { unfold SharedPtr_dtor. munfold. msteps. repeat zconst. msteps. reflexivity. }
  split; [unfold SharedPtr_use_count; munfold; by msteps|].
  split; [done|].
  split.
  { unfold SharedPtr_dtor. munfold_calls. msteps. repeat zconst. msteps.
    destruct ptr as [l|]; msteps; repeat zconst; msteps; reflexivity. }
  cbn. by rewrite <- app_assoc.
Qed.

Lemma SharedPtr_adopt_copy_destroy_witness :
  ∃ σ1 σ2 σ3 σ4,
    SharedPtr_adopt false P100 init = Ok 0%nat σ1 ∧
    SharedPtr_use_count 0 σ1 = Ok 1 σ1 ∧
    SharedPtr_copy_conv 8 0 σ1 = Ok 1%nat σ2 ∧
    SharedPtr_use_count 0 σ2 = Ok 2 σ2 ∧
    SharedPtr_get 1 σ2 = Ok (static_cast 8 P100) σ2 ∧
    SharedPtr_dtor 0 σ2 = Ok tt σ3 ∧
    SharedPtr_use_count 1 σ3 = Ok 1 σ3 ∧
    trace σ3 = trace init ∧
    SharedPtr_dtor 1 σ3 = Ok tt σ4 ∧
    trace σ4 = trace init ++ [EvDeleter 1%positive P100; EvDeallocate 1%positive] ∧
    released σ4 = {[1%positive]} ∪ released init.
Proof.
  apply (SharedPtr_adopt_copy_destroy init P100 8).
  - by vm_compute.
  - reflexivity.
Defined.

(** X13: The [WeakPtr] constructors that increment a count do so through the
    control block of their argument without a null check: from an empty
    [SharedPtr] or [WeakPtr] they go through a null pointer.  Only the
    move constructor [WeakPtr(WeakPtr&&)] accepts an empty argument. *)
Theorem WeakPtr_ctor_of_empty :
  (∀ σ shared s delta, strongs σ !! shared = Some s → s_cb s = None →
     status (WeakPtr_from_shared shared σ) = Some NullDeref ∧
     status (WeakPtr_from_shared_conv delta shared σ) = Some NullDeref ∧
     status (WeakPtr_from_shared_move shared σ) = Some NullDeref ∧
     status (WeakPtr_from_shared_move_conv delta shared σ) = Some NullDeref) ∧
  (∀ σ other w delta, weaks σ !! other = Some w → w_cb w = None →
     status (WeakPtr_copy other σ) = Some NullDeref ∧
     status (WeakPtr_copy_conv delta other σ) = Some NullDeref ∧
     status (WeakPtr_move_conv delta other σ) = Some NullDeref ∧
     ∃ σ', WeakPtr_move other σ = Ok (length (weaks σ)) σ' ∧
       weaks σ' !! length (weaks σ) = Some w ∧
       weaks σ' !! other = Some null_weak ∧
       heap σ' = heap σ).
Proof.
  split.
  - intros σ shared s delta Hs Hcb.
    unfold WeakPtr_from_shared, WeakPtr_from_shared_conv, WeakPtr_from_shared_move,
      WeakPtr_from_shared_move_conv.
    munfold. rewrite Hs, Hcb. done.
  - intros σ other w delta Hw Hcb.
    unfold WeakPtr_copy, WeakPtr_copy_conv, WeakPtr_move_conv, WeakPtr_move.
    munfold. rewrite Hw, Hcb. cbn. repeat split.
    eexists; split; [reflexivity|]. cbn. repeat mstep.
    by rewrite <- Hcb, rebuild_weak.
Qed.

Lemma WeakPtr_ctor_of_empty_witness :
  (status (WeakPtr_from_shared 0 expired_weak) = Some NullDeref ∧
   status (WeakPtr_from_shared_conv 8 0 expired_weak) = Some NullDeref ∧
   status (WeakPtr_from_shared_move 0 expired_weak) = Some NullDeref ∧
   status (WeakPtr_from_shared_move_conv 8 0 expired_weak) = Some NullDeref) ∧
  (status (WeakPtr_copy 0 empty_weak) = Some NullDeref ∧
   status (WeakPtr_copy_conv 8 0 empty_weak) = Some NullDeref ∧
   status (WeakPtr_move_conv 8 0 empty_weak) = Some NullDeref ∧
   ∃ σ', WeakPtr_move 0 empty_weak = Ok 1%nat σ' ∧
     weaks σ' !! 1%nat = Some null_weak ∧
     weaks σ' !! 0%nat = Some null_weak ∧
     heap σ' = heap empty_weak).
Proof.
  split.
  - apply (proj1 WeakPtr_ctor_of_empty expired_weak 0%nat null_shared 8);
      reflexivity.
  - apply (proj2 WeakPtr_ctor_of_empty empty_weak 0%nat null_weak 8);
      reflexivity.
Defined.

(** X14: [WeakPtr(const SharedPtr<T>&)]: the observer takes the control block
    and the payload pointer of the strong pointer, adds 1 to the weak
    count and leaves the strong count and the strong pointer alone; it
    is not expired while the strong pointer lives, and destroying it
    again restores the block. *)
Theorem WeakPtr_from_shared_spec σ shared s a b :
  strongs σ !! shared = Some s → s_cb s = Some a → live σ a b →
  1 <= shared_cnt b → 0 <= weak_cnt b < SIZE_MAX →
  ∃ σ' σ'',
    WeakPtr_from_shared shared σ = Ok (length (weaks σ)) σ' ∧
    weaks σ' !! length (weaks σ) = Some {| w_cb := Some a; w_ptr := s_ptr s |} ∧
    strongs σ' = strongs σ ∧
    counts σ' a = Some (shared_cnt b, weak_cnt b + 1) ∧
    WeakPtr_expired (length (weaks σ)) σ' = Ok false σ' ∧
    WeakPtr_use_count (length (weaks σ)) σ' = Ok (shared_cnt b) σ' ∧
    trace σ' = trace σ ∧
    WeakPtr_dtor (length (weaks σ)) σ' = Ok tt σ'' ∧
    heap σ'' = heap σ ∧ trace σ'' = trace σ ∧ released σ'' = released σ.
Proof.
  intros Hs Hcb [Hb Hr] Hsc Hwc.
  eexists _, _.
  split; [unfold WeakPtr_from_shared; munfold; repeat mstep; reflexivity|].
  unfold counts, WeakPtr_expired, WeakPtr_use_count. munfold. repeat mstep.
  rewrite size_t_id by (unfold is_size_t; lia).
  destruct (Z.eqb_spec (shared_cnt b) 0) as [?|_]; [lia|].
  do 6 (split; [done|]).
  split.
  { erewrite (WeakPtr_dtor_eval _ (length (weaks σ)) _ a).
    2: { cbn [weaks]. apply lookup_snoc. }
    2: reflexivity.
    2: { split; cbn [heap released]; [apply lookup_insert_eq | done]. }
    2: { cbn [weak_cnt]. lia. }
    reflexivity. }
  cbn. rewrite !decide_False by lia. rewrite app_nil_r. repeat split.
  rewrite insert_insert_eq. apply insert_id. rewrite Hb. f_equal.
  destruct b; cbn. f_equal. lia.
Qed.

Lemma WeakPtr_from_shared_spec_witness :
  ∃ σ' σ'',
    WeakPtr_from_shared 0 one_strong = Ok 0%nat σ' ∧
    weaks σ' !! 0%nat = Some {| w_cb := Some 1%positive; w_ptr := P100 |} ∧
    strongs σ' = strongs one_strong ∧
    counts σ' 1%positive = Some (1, 0 + 1) ∧
    WeakPtr_expired 0 σ' = Ok false σ' ∧
    WeakPtr_use_count 0 σ' = Ok 1 σ' ∧
    trace σ' = trace one_strong ∧
    WeakPtr_dtor 0 σ' = Ok tt σ'' ∧
    heap σ'' = heap one_strong ∧ trace σ'' = trace one_strong ∧
    released σ'' = released one_strong.
Proof.
  apply (WeakPtr_from_shared_spec one_strong 0%nat
           {| s_cb := Some 1%positive; s_ptr := P100 |} 1%positive
           {| shared_cnt := 1; weak_cnt := 0; variant := ControlBlockRegular P100 |}).
  - reflexivity.
  - reflexivity.
  - split; [reflexivity | by vm_compute].
  - simpl; lia.
  - unfold SIZE_MAX; simpl; lia.
Defined.

(** X15: [WeakPtr::operator=(WeakPtr&&)] applied to the pointer itself leaves
    it as it was, empty or not, and touches no count: the temporary
    takes the fields, the swap gives them back. *)
Theorem WeakPtr_assign_move_self σ this w :
  weaks σ !! this = Some w →
  WeakPtr_assign_move this this σ = Ok tt (with_weaks (λ l, l ++ [null_weak]) σ).
Proof.
  intros Hw.
  assert (Hlt : (this < length (weaks σ))%nat) by (by eapply lookup_lt_Some).
  unfold WeakPtr_assign_move, WeakPtr_move, WeakPtr_swap, WeakPtr_dtor. munfold.
  repeat mstep. rewrite rebuild_weak. cbn.
  do 2 f_equal.
  rewrite list_insert_insert_eq.
  rewrite (list_insert_id (weaks σ ++ [_])) by (by apply lookup_snoc_old).
  rewrite insert_app_r_alt by lia. by rewrite Nat.sub_diag.
Qed.

Lemma WeakPtr_assign_move_self_witness :
  WeakPtr_assign_move 0 0 empty_weak =
    Ok tt (with_weaks (λ l, l ++ [null_weak]) empty_weak) ∧
  WeakPtr_assign_move 0 0 strong_and_weak =
    Ok tt (with_weaks (λ l, l ++ [null_weak]) strong_and_weak).
Proof.
  split.
  - apply (WeakPtr_assign_move_self empty_weak 0%nat null_weak). reflexivity.
  - apply (WeakPtr_assign_move_self strong_and_weak 0%nat
             {| w_cb := Some 1%positive; w_ptr := P100 |}). reflexivity.
Defined.

(** X16: The templated [WeakPtr::operator=(const SharedPtr<Derived>&)]
    returns a [WeakPtr] by value: assigning a strong pointer to an empty
    weak pointer makes it observe the block, and the weak count is 2
    higher while the returned temporary lives and 1 higher once the
    statement has destroyed it. *)
Theorem WeakPtr_assign_shared_conv_spec σ delta this shared s a b :
  weaks σ !! this = Some null_weak →
  strongs σ !! shared = Some s → s_cb s = Some a → live σ a b →
  0 <= weak_cnt b → weak_cnt b + 2 <= SIZE_MAX →
  ∃ σ1 σ2,
    WeakPtr_assign_shared_conv delta this shared σ = Ok (S (length (weaks σ))) σ1 ∧
    weaks σ1 !! this =
      Some {| w_cb := Some a; w_ptr := static_cast delta (s_ptr s) |} ∧
    weaks σ1 !! S (length (weaks σ)) =
      Some {| w_cb := Some a; w_ptr := static_cast delta (s_ptr s) |} ∧
    counts σ1 a = Some (shared_cnt b, weak_cnt b + 2) ∧
    exec (WAssignSharedConv delta this shared) σ = Ok tt σ2 ∧
    weaks σ2 !! this =
      Some {| w_cb := Some a; w_ptr := static_cast delta (s_ptr s) |} ∧
    weaks σ2 !! S (length (weaks σ)) = Some null_weak ∧
    counts σ2 a = Some (shared_cnt b, weak_cnt b + 1) ∧
    strongs σ2 = strongs σ ∧ trace σ2 = trace σ ∧ released σ2 = released σ.
Proof.
  intros Hw Hs Hcb [Hb Hr] Hwc0 Hwc.
  assert (Hlt : (this < length (weaks σ))%nat) by (by eapply lookup_lt_Some).
  unfold exec, WeakPtr_assign_shared_conv, WeakPtr_from_shared_conv, WeakPtr_swap,
    WeakPtr_copy, WeakPtr_dtor, Deallocate.
  unfold null_weak in *. munfold. repeat mstep.
  rewrite !length_insert, length_app, Nat.add_1_r.
  repeat first
    [ mstep
    | rewrite (size_t_id (weak_cnt b + 1)) by (unfold is_size_t; lia)
    | rewrite (size_t_id (weak_cnt b + 1 + 1)) by (unfold is_size_t; lia)
    | rewrite (size_t_id (weak_cnt b + 1 + 1 - 1)) by (unfold is_size_t; lia) ].
  destruct (Z.eqb_spec (weak_cnt b + 1 + 1 - 1) 0) as [?|_]; [lia|].
  eexists _, _. split; [reflexivity|]. unfold counts. repeat mstep.
  assert (E2 : weak_cnt b + 1 + 1 = weak_cnt b + 2) by lia.
  assert (E1 : weak_cnt b + 2 - 1 = weak_cnt b + 1) by lia.
  rewrite !E2, !E1.
  split; [reflexivity|]. split; [reflexivity|]. split; [reflexivity|].
  split; [reflexivity|]. cbn. repeat mstep.
  rewrite list_lookup_insert_eq
    by (rewrite length_app, !length_insert, length_app; simpl; lia).
  done.
Qed.

Lemma WeakPtr_assign_shared_conv_spec_witness :
  ∃ σ1 σ2,
    WeakPtr_assign_shared_conv 8 1 0 self_observer_adopted = Ok 4%nat σ1 ∧
    weaks σ1 !! 1%nat = Some {| w_cb := Some 2%positive; w_ptr := static_cast 8 P1 |} ∧
    weaks σ1 !! 4%nat = Some {| w_cb := Some 2%positive; w_ptr := static_cast 8 P1 |} ∧
    counts σ1 2%positive = Some (1, 1 + 2) ∧
    exec (WAssignSharedConv 8 1 0) self_observer_adopted = Ok tt σ2 ∧
    weaks σ2 !! 1%nat = Some {| w_cb := Some 2%positive; w_ptr := static_cast 8 P1 |} ∧
    weaks σ2 !! 4%nat = Some null_weak ∧
    counts σ2 2%positive = Some (1, 1 + 1) ∧
    strongs σ2 = strongs self_observer_adopted ∧
    trace σ2 = trace self_observer_adopted ∧
    released σ2 = released self_observer_adopted.
Proof.
  apply (WeakPtr_assign_shared_conv_spec self_observer_adopted 8 1%nat 0%nat
           {| s_cb := Some 2%positive; s_ptr := P1 |} 2%positive
           {| shared_cnt := 1; weak_cnt := 1; variant := ControlBlockRegular P1 |}).
  - reflexivity.
  - reflexivity.
  - reflexivity.
  - split; [reflexivity | by vm_compute].
  - simpl; lia.
  - unfold SIZE_MAX; simpl; lia.
Defined.

Lemma snoc_reset {A} (l : list A) x y : <[length l := y]> (l ++ [x]) = l ++ [y].
Proof. rewrite insert_app_r_alt by lia. by rewrite Nat.sub_diag. Qed.

Lemma restore_block (h : gmap addr BaseControlBlock) a b sc :
  h !! a = Some b → sc = shared_cnt b →
  <[a := {| shared_cnt := sc; weak_cnt := weak_cnt b; variant := variant b |}]> h = h.
Proof. intros Hb ->. apply insert_id. rewrite Hb. by destruct b. Qed.

(** X19: A temporary strong pointer is neutral: copying a strong pointer
    (with or without conversion) or locking a weak pointer whose block
    still has a strong pointer, and destroying the result, leaves the
    counts, the storage and the log as they were; only the dead, empty
    temporary remains. *)
Theorem SharedPtr_temporary_neutral σ a b :
  live σ a b → 1 <= shared_cnt b < SIZE_MAX →
  (∀ other s delta, strongs σ !! other = Some s → s_cb s = Some a →
     (SharedPtr_copy other ≫= SharedPtr_dtor) σ =
       Ok tt (with_strongs (λ l, l ++ [null_shared]) σ) ∧
     (SharedPtr_copy_conv delta other ≫= SharedPtr_dtor) σ =
       Ok tt (with_strongs (λ l, l ++ [null_shared]) σ)) ∧
  (∀ this w, weaks σ !! this = Some w → w_cb w = Some a →
     (WeakPtr_lock this ≫= SharedPtr_dtor) σ =
       Ok tt (with_strongs (λ l, l ++ [null_shared]) σ)).
Proof.
  intros [Hb Hr] Hsc.
  assert (E : shared_cnt b + 1 - 1 = shared_cnt b) by lia.
  split.
  - intros other s delta Hs Hcb. split.
    + unfold SharedPtr_copy. munfold. repeat mstep.
      rewrite size_t_id by (unfold is_size_t; lia).
      erewrite (SharedPtr_dtor_not_last _ (length (strongs σ)) _ a).
      2: { cbn [strongs]. apply lookup_snoc. }
      2: done.
      2: { split; cbn [heap released]; [apply lookup_insert_eq | done]. }
      2: { cbn [shared_cnt]. lia. }
      unfold with_strongs, with_heap. cbn. rewrite insert_insert_eq, snoc_reset.
      by rewrite (restore_block _ a b) by done.
    + unfold SharedPtr_copy_conv. munfold. repeat mstep.
      rewrite size_t_id by (unfold is_size_t; lia).
      erewrite (SharedPtr_dtor_not_last _ (length (strongs σ)) _ a).
      2: { cbn [strongs]. apply lookup_snoc. }
      2: done.
      2: { split; cbn [heap released]; [apply lookup_insert_eq | done]. }
      2: { cbn [shared_cnt]. lia. }
      unfold with_strongs, with_heap. cbn. rewrite insert_insert_eq, snoc_reset.
      by rewrite (restore_block _ a b) by done.
  - intros this w Hw Hcb.
    unfold WeakPtr_lock, SharedPtr_from_weak. munfold. repeat mstep.
    rewrite size_t_id by (unfold is_size_t; lia).
    erewrite (SharedPtr_dtor_not_last _ (length (strongs σ)) _ a).
    2: { cbn [strongs]. apply lookup_snoc. }
    2: done.
    2: { split; cbn [heap released]; [apply lookup_insert_eq | done]. }
    2: { cbn [shared_cnt]. lia. }
    unfold with_strongs, with_heap. cbn. rewrite insert_insert_eq, snoc_reset.
    by rewrite (restore_block _ a b) by done.
Qed.

Lemma SharedPtr_temporary_neutral_witness :
  (SharedPtr_copy 0 ≫= SharedPtr_dtor) strong_and_weak =
    Ok tt (with_strongs (λ l, l ++ [null_shared]) strong_and_weak) ∧
  (SharedPtr_copy_conv 8 0 ≫= SharedPtr_dtor) strong_and_weak =
    Ok tt (with_strongs (λ l, l ++ [null_shared]) strong_and_weak) ∧
  (WeakPtr_lock 0 ≫= SharedPtr_dtor) strong_and_weak =
    Ok tt (with_strongs (λ l, l ++ [null_shared]) strong_and_weak).
Proof.
  assert (Hl : live strong_and_weak 1%positive
                 {| shared_cnt := 1; weak_cnt := 1; variant := ControlBlockRegular P100 |})
    by (split; [reflexivity | by vm_compute]).
  assert (Hc : 1 <= 1 < SIZE_MAX) by (unfold SIZE_MAX; simpl; lia).
  split; [|split].
  - apply (proj1 (SharedPtr_temporary_neutral strong_and_weak 1%positive _ Hl Hc)
             0%nat {| s_cb := Some 1%positive; s_ptr := P100 |} 0); reflexivity.
  - apply (proj1 (SharedPtr_temporary_neutral strong_and_weak 1%positive _ Hl Hc)
             0%nat {| s_cb := Some 1%positive; s_ptr := P100 |} 8); reflexivity.
  - apply (proj2 (SharedPtr_temporary_neutral strong_and_weak 1%positive _ Hl Hc)
             0%nat {| w_cb := Some 1%positive; w_ptr := P100 |}); reflexivity.
Defined.

(** X22: [WeakPtr::operator=(const WeakPtr&)]: assigning from an empty weak
    pointer dereferences a null control block; assigning from a
    non-empty one makes the target observe the source's block, adds 1
    to that block's weak count and takes 1 off the weak count of the
    target's old block, which is deallocated if that was its last weak
    pointer and it has no strong pointer. *)
Theorem WeakPtr_assign_copy_spec :
  (∀ σ this other,
     weaks σ !! other = Some null_weak →
     status (WeakPtr_assign_copy this other σ) = Some NullDeref) ∧
  (∀ σ this other o c d,
     weaks σ !! this = Some null_weak →
     weaks σ !! other = Some o → w_cb o = Some c → live σ c d →
     0 <= weak_cnt d < SIZE_MAX →
     ∃ σ', WeakPtr_assign_copy this other σ = Ok tt σ' ∧
       weaks σ' !! this = Some o ∧ weaks σ' !! other = Some o ∧
       counts σ' c = Some (shared_cnt d, weak_cnt d + 1) ∧
       trace σ' = trace σ ∧ released σ' = released σ) ∧
  (∀ σ this other t o a b c d,
     a ≠ c →
     weaks σ !! this = Some t → w_cb t = Some a → live σ a b →
     1 <= weak_cnt b <= SIZE_MAX →
     weaks σ !! other = Some o → w_cb o = Some c → live σ c d →
     0 <= weak_cnt d < SIZE_MAX →
     ∃ σ', WeakPtr_assign_copy this other σ = Ok tt σ' ∧
       weaks σ' !! this = Some o ∧ weaks σ' !! other = Some o ∧
       counts σ' a = Some (shared_cnt b, weak_cnt b - 1) ∧
       counts σ' c = Some (shared_cnt d, weak_cnt d + 1) ∧
       trace σ' =
         trace σ ++
         (if decide (weak_cnt b = 1 ∧ shared_cnt b = 0) then [EvDeallocate a] else []) ∧
       (a ∈ released σ' ↔ weak_cnt b = 1 ∧ shared_cnt b = 0)).
Proof.
  split; [|split].
  - intros σ this other Ho.
    unfold WeakPtr_assign_copy, WeakPtr_copy, status. unfold null_weak in *.
    munfold. repeat mstep. reflexivity.
  - intros σ this other o c d Ht Ho Hoc [Hd Hrd] Hdc.
    assert (Hlt : (this < length (weaks σ))%nat) by (by eapply lookup_lt_Some).
    assert (Hlo : (other < length (weaks σ))%nat) by (by eapply lookup_lt_Some).
    assert (Hne : this ≠ other).
    { intros ->. rewrite Ht in Ho. injection Ho as <-. discriminate. }
    unfold WeakPtr_assign_copy, WeakPtr_copy, WeakPtr_swap, WeakPtr_dtor.
    unfold null_weak in *. munfold. repeat mstep.
    rewrite size_t_id by (unfold is_size_t; lia).
    eexists; split; [reflexivity|]. unfold counts. cbn. repeat mstep.
    rewrite <- Hoc, rebuild_weak. done.
  - intros σ this other t o a b c d Hac Ht Hta [Hb Hr] Hbc Ho Hoc [Hd Hrd] Hdc.
    assert (Hlt : (this < length (weaks σ))%nat) by (by eapply lookup_lt_Some).
    assert (Hlo : (other < length (weaks σ))%nat) by (by eapply lookup_lt_Some).
    assert (Hne : this ≠ other).
    { intros ->. rewrite Ht in Ho. injection Ho as <-. congruence. }
    unfold WeakPtr_assign_copy, WeakPtr_copy, WeakPtr_swap. munfold. repeat mstep.
    erewrite (WeakPtr_dtor_eval _ (length (weaks σ)) t a b).
    2: { cbn [weaks]. repeat mstep. reflexivity. }
    2: done.
    2: { split; cbn [heap released]; [by rewrite lookup_insert_ne | done]. }
    2: done.
    eexists; split; [reflexivity|]. unfold counts. cbn. repeat mstep.
    rewrite lookup_insert_ne by done. repeat mstep.
    rewrite size_t_id by (unfold is_size_t; lia).
    rewrite <- Hoc, rebuild_weak. repeat split; try done.
    + destruct (decide (weak_cnt b = 1 ∧ shared_cnt b = 0)); [tauto|done].
    + destruct (decide (weak_cnt b = 1 ∧ shared_cnt b = 0)); [tauto|done].
    + intros H. rewrite decide_True by done. apply elem_of_union_l.
      by apply elem_of_singleton.
Qed.

Lemma WeakPtr_assign_copy_spec_witness :
  status (WeakPtr_assign_copy 0 2 two_weak_blocks) = Some NullDeref ∧
  (∃ σ', WeakPtr_assign_copy 2 0 two_weak_blocks = Ok tt σ' ∧
     weaks σ' !! 2%nat = Some {| w_cb := Some 1%positive; w_ptr := P100 |} ∧
     weaks σ' !! 0%nat = Some {| w_cb := Some 1%positive; w_ptr := P100 |} ∧
     counts σ' 1%positive = Some (1, 1 + 1) ∧
     trace σ' = trace two_weak_blocks ∧ released σ' = released two_weak_blocks) ∧
  (∃ σ', WeakPtr_assign_copy 0 1 two_weak_blocks = Ok tt σ' ∧
     weaks σ' !! 0%nat = Some {| w_cb := Some 2%positive; w_ptr := P200 |} ∧
     weaks σ' !! 1%nat = Some {| w_cb := Some 2%positive; w_ptr := P200 |} ∧
     counts σ' 1%positive = Some (1, 1 - 1) ∧
     counts σ' 2%positive = Some (1, 1 + 1) ∧
     trace σ' = trace two_weak_blocks ++ [] ∧
     (1%positive ∈ released σ' ↔ 1 = 1 ∧ 1 = 0)).
Proof.
  split; [|split].
  - apply (proj1 WeakPtr_assign_copy_spec two_weak_blocks 0%nat 2%nat). reflexivity.
  - apply (proj1 (proj2 WeakPtr_assign_copy_spec) two_weak_blocks 2%nat 0%nat
             {| w_cb := Some 1%positive; w_ptr := P100 |} 1%positive
             {| shared_cnt := 1; weak_cnt := 1; variant := ControlBlockRegular P100 |}).
    + reflexivity.
    + reflexivity.
    + reflexivity.
    + split; [reflexivity | by vm_compute].
    + unfold SIZE_MAX; simpl; lia.
  - apply (proj2 (proj2 WeakPtr_assign_copy_spec) two_weak_blocks 0%nat 1%nat
             {| w_cb := Some 1%positive; w_ptr := P100 |}
             {| w_cb := Some 2%positive; w_ptr := P200 |}
             1%positive
             {| shared_cnt := 1; weak_cnt := 1; variant := ControlBlockRegular P100 |}
             2%positive
             {| shared_cnt := 1; weak_cnt := 1; variant := ControlBlockRegular P200 |}).
    + lia.
    + reflexivity.
    + reflexivity.
    + split; [reflexivity | by vm_compute].
    + unfold SIZE_MAX; simpl; lia.
    + reflexivity.
    + reflexivity.
    + split; [reflexivity | by vm_compute].
    + unfold SIZE_MAX; simpl; lia.
Defined.

(** X23: [WeakPtr::operator=(WeakPtr&&)] between two pointers: the target
    takes what the source held, the source becomes empty, and the
    counts of the source's block are not touched; an empty source is
    accepted and resets the target.  The target's old block loses one
    weak reference and is deallocated if that was its last weak pointer
    and it has no strong pointer. *)
Theorem WeakPtr_assign_move_spec :
  (∀ σ this other o,
     this ≠ other →
     weaks σ !! this = Some null_weak → weaks σ !! other = Some o →
     ∃ σ', WeakPtr_assign_move this other σ = Ok tt σ' ∧
       weaks σ' !! this = Some o ∧ weaks σ' !! other = Some null_weak ∧
       heap σ' = heap σ ∧ trace σ' = trace σ ∧ released σ' = released σ) ∧
  (∀ σ this other t o a b,
     this ≠ other →
     weaks σ !! this = Some t → w_cb t = Some a → live σ a b →
     1 <= weak_cnt b <= SIZE_MAX →
     weaks σ !! other = Some o →
     ∃ σ', WeakPtr_assign_move this other σ = Ok tt σ' ∧
       weaks σ' !! this = Some o ∧ weaks σ' !! other = Some null_weak ∧
       heap σ' = <[a := {| shared_cnt := shared_cnt b; weak_cnt := weak_cnt b - 1;
                           variant := variant b |}]> (heap σ) ∧
       trace σ' =
         trace σ ++
         (if decide (weak_cnt b = 1 ∧ shared_cnt b = 0) then [EvDeallocate a] else []) ∧
       (a ∈ released σ' ↔ weak_cnt b = 1 ∧ shared_cnt b = 0)).
Proof.
  split.
  - intros σ this other o Hne Ht Ho.
    assert (Hlt : (this < length (weaks σ))%nat) by (by eapply lookup_lt_Some).
    assert (Hlo : (other < length (weaks σ))%nat) by (by eapply lookup_lt_Some).
    unfold WeakPtr_assign_move, WeakPtr_move, WeakPtr_swap, WeakPtr_dtor.
    unfold null_weak in *. munfold. repeat mstep.
    eexists; split; [reflexivity|]. cbn. repeat mstep.
    by rewrite rebuild_weak.
  - intros σ this other t o a b Hne Ht Hta [Hb Hr] Hbc Ho.
    assert (Hlt : (this < length (weaks σ))%nat) by (by eapply lookup_lt_Some).
    assert (Hlo : (other < length (weaks σ))%nat) by (by eapply lookup_lt_Some).
    unfold WeakPtr_assign_move, WeakPtr_move, WeakPtr_swap. munfold. repeat mstep.
    erewrite (WeakPtr_dtor_eval _ (length (weaks σ)) t a b).
    2: { cbn [weaks]. repeat mstep. reflexivity. }
    2: done.
    2: { by split. }
    2: done.
    eexists; split; [reflexivity|]. cbn. repeat mstep.
    rewrite rebuild_weak. repeat split; try done.
    + destruct (decide (weak_cnt b = 1 ∧ shared_cnt b = 0)); [tauto|done].
    + destruct (decide (weak_cnt b = 1 ∧ shared_cnt b = 0)); [tauto|done].
    + intros H. rewrite decide_True by done. apply elem_of_union_l.
      by apply elem_of_singleton.
Qed.

Lemma WeakPtr_assign_move_spec_witness :
  (∃ σ', WeakPtr_assign_move 2 0 two_weak_blocks = Ok tt σ' ∧
     weaks σ' !! 2%nat = Some {| w_cb := Some 1%positive; w_ptr := P100 |} ∧
     weaks σ' !! 0%nat = Some null_weak ∧
     heap σ' = heap two_weak_blocks ∧ trace σ' = trace two_weak_blocks ∧
     released σ' = released two_weak_blocks) ∧
  (∃ σ', WeakPtr_assign_move 0 2 two_weak_blocks = Ok tt σ' ∧
     weaks σ' !! 0%nat = Some null_weak ∧ weaks σ' !! 2%nat = Some null_weak ∧
     heap σ' = <[1%positive := {| shared_cnt := 1; weak_cnt := 1 - 1;
                                  variant := ControlBlockRegular P100 |}]>
                 (heap two_weak_blocks) ∧
     trace σ' = trace two_weak_blocks ++ [] ∧
     (1%positive ∈ released σ' ↔ 1 = 1 ∧ 1 = 0)).
Proof.
  split.
  - apply (proj1 WeakPtr_assign_move_spec two_weak_blocks 2%nat 0%nat
             {| w_cb := Some 1%positive; w_ptr := P100 |}).
    + lia.
    + reflexivity.
    + reflexivity.
  - apply (proj2 WeakPtr_assign_move_spec two_weak_blocks 0%nat 2%nat
             {| w_cb := Some 1%positive; w_ptr := P100 |} null_weak 1%positive
             {| shared_cnt := 1; weak_cnt := 1; variant := ControlBlockRegular P100 |}).
    + lia.
    + reflexivity.
    + reflexivity.
    + split; [reflexivity | by vm_compute].
    + unfold SIZE_MAX; simpl; lia.
    + reflexivity.
Defined.

Lemma Deallocate_once_when_drained_witness :
  (0 = strong_refs (final (run strong_then_weak init)) 1%positive ∧
   0 = weak_refs (final (run strong_then_weak init)) 1%positive ∧
   deallocations (final (run strong_then_weak init)) 1%positive = 1%nat) ∧
  (1 = strong_refs strong_and_weak 1%positive ∧
   1 = weak_refs strong_and_weak 1%positive ∧
   deallocations strong_and_weak 1%positive = 0%nat).
Proof.
  split.
  - apply (Deallocate_once_when_drained (final (run strong_then_weak init)) 1%positive
             {| shared_cnt := 0; weak_cnt := 0; variant := ControlBlockRegular P100 |}).
    + exists strong_then_weak. vm_compute. reflexivity.
    + split; by vm_compute.
    + reflexivity.
  - apply (Deallocate_once_when_drained strong_and_weak 1%positive
             {| shared_cnt := 1; weak_cnt := 1; variant := ControlBlockRegular P100 |}).
    + exists [SAdopt false P100; WFromShared 0]. vm_compute. reflexivity.
    + split; by vm_compute.
    + reflexivity.
Defined.

Lemma nonempty_pointer_live_witness :
  (∃ b, live strong_and_weak 1%positive b ∧
     1 <= shared_cnt b <= Z.of_nat (length (strongs strong_and_weak)) ∧
     0 <= weak_cnt b <= Z.of_nat (length (weaks strong_and_weak))) ∧
  (∃ b, live strong_and_weak 1%positive b ∧
     0 <= shared_cnt b <= Z.of_nat (length (strongs strong_and_weak)) ∧
     1 <= weak_cnt b <= Z.of_nat (length (weaks strong_and_weak))).
Proof.
  assert (Hreach : reachable strong_and_weak)
    by (exists [SAdopt false P100; WFromShared 0]; vm_compute; reflexivity).
  assert (HB : Bounded strong_and_weak) by (split; by vm_compute).
  split.
  - apply (proj1 (nonempty_pointer_live strong_and_weak Hreach HB) 0%nat
             {| s_cb := Some 1%positive; s_ptr := P100 |} 1%positive); reflexivity.
  - apply (proj2 (nonempty_pointer_live strong_and_weak Hreach HB) 0%nat
             {| w_cb := Some 1%positive; w_ptr := P100 |} 1%positive); reflexivity.
Defined.

(** X24: [WeakPtr(const WeakPtr&)] and its converting form, on a non-empty
    pointer: the copy observes the same block through the (converted)
    payload pointer, the weak count rises by 1, and the strong count,
    the strong pointers and the log are left alone, whether or not the
    block still has a strong pointer. *)
Theorem WeakPtr_copy_spec σ other w a b delta :
  weaks σ !! other = Some w → w_cb w = Some a → live σ a b →
  0 <= weak_cnt b < SIZE_MAX →
  ∃ σ' σ'',
    WeakPtr_copy other σ = Ok (length (weaks σ)) σ' ∧
    WeakPtr_copy_conv delta other σ = Ok (length (weaks σ)) σ'' ∧
    weaks σ' !! length (weaks σ) = Some w ∧
    weaks σ'' !! length (weaks σ) =
      Some {| w_cb := Some a; w_ptr := static_cast delta (w_ptr w) |} ∧
    weaks σ' !! other = Some w ∧ weaks σ'' !! other = Some w ∧
    counts σ' a = Some (shared_cnt b, weak_cnt b + 1) ∧
    heap σ'' = heap σ' ∧
    (∀ a', a' ≠ a → heap σ' !! a' = heap σ !! a') ∧
    strongs σ' = strongs σ ∧ trace σ' = trace σ ∧ released σ' = released σ ∧
    strongs σ'' = strongs σ ∧ trace σ'' = trace σ ∧ released σ'' = released σ.
Proof.
  intros Hw Hcb [Hb Hr] Hwc.
  unfold WeakPtr_copy, WeakPtr_copy_conv. munfold. repeat mstep.
  rewrite size_t_id by (unfold is_size_t; lia).
  eexists _, _. split; [reflexivity|]. split; [reflexivity|].
  unfold counts. cbn. repeat mstep.
  rewrite <- Hcb, rebuild_weak. repeat split; try done.
  intros a' Ha'. by rewrite lookup_insert_ne.
Qed.

Lemma WeakPtr_copy_spec_witness :
  ∃ σ' σ'',
    WeakPtr_copy 0 expired_weak = Ok 1%nat σ' ∧
    WeakPtr_copy_conv 8 0 expired_weak = Ok 1%nat σ'' ∧
    weaks σ' !! 1%nat = Some {| w_cb := Some 1%positive; w_ptr := P100 |} ∧
    weaks σ'' !! 1%nat =
      Some {| w_cb := Some 1%positive; w_ptr := static_cast 8 P100 |} ∧
    weaks σ' !! 0%nat = Some {| w_cb := Some 1%positive; w_ptr := P100 |} ∧
    weaks σ'' !! 0%nat = Some {| w_cb := Some 1%positive; w_ptr := P100 |} ∧
    counts σ' 1%positive = Some (0, 1 + 1) ∧
    heap σ'' = heap σ' ∧
    (∀ a', a' ≠ 1%positive → heap σ' !! a' = heap expired_weak !! a') ∧
    strongs σ' = strongs expired_weak ∧ trace σ' = trace expired_weak ∧
    released σ' = released expired_weak ∧
    strongs σ'' = strongs expired_weak ∧ trace σ'' = trace expired_weak ∧
    released σ'' = released expired_weak.
Proof.
  apply (WeakPtr_copy_spec expired_weak 0%nat
           {| w_cb := Some 1%positive; w_ptr := P100 |} 1%positive
           {| shared_cnt := 0; weak_cnt := 1; variant := ControlBlockRegular P100 |} 8).
  - reflexivity.
  - reflexivity.
  - split; [reflexivity | by vm_compute].
  - unfold SIZE_MAX; simpl; lia.
Defined.

(** * Destruction, assignment and reset, whatever the payload holds *)

(** ** The strong pointer objects as a frame *)

Lemma frame_ret {A} (x : A) : frame (mret x).
Proof. by intros f σ. Qed.

Lemma frame_bind {A B} (m : M A) (k : A → M B) :
  frame m → (∀ x, frame (k x)) → frame (m ≫= k).
Proof.
  intros Hm Hk f σ. cbv [mbind M_bind]. rewrite Hm.
  destruct (m σ) as [x σ1|e σ1]; cbn; [apply Hk | done].
Qed.

Lemma frame_deref cb : frame (deref cb).
Proof.
  intros f σ. unfold deref. destruct cb as [a|]; [|done]. cbn.
  destruct (heap σ !! a); [|done]. by case_decide.
Qed.

Lemma frame_store a b : frame (store a b).
Proof. by intros f σ. Qed.

Lemma frame_emit e : frame (emit e).
Proof. by intros f σ. Qed.

Lemma frame_release a : frame (release a).
Proof. by intros f σ. Qed.

Lemma frame_read_weak i : frame (read_weak i).
Proof. intros f σ. unfold read_weak. cbn. by destruct (weaks σ !! i). Qed.

Lemma frame_write_weak i w : frame (write_weak i w).
Proof. by intros f σ. Qed.

Lemma frame_payloads g : frame (modify (with_payloads g)).
Proof. by intros f σ. Qed.

Create HintDb frame discriminated.
#[local] Hint Resolve frame_ret frame_deref frame_store frame_emit frame_release
  frame_read_weak frame_write_weak frame_payloads : frame.

Ltac frame_solve :=
  repeat first
    [ solve [auto 1 with frame nocore]
    | apply frame_bind
    | lazymatch goal with
      | |- frame (if ?c then _ else _) => destruct c
      | |- frame (match ?x with _ => _ end) => destruct x
      | |- frame _ => fail
      | |- ∀ _, _ => intro
      end ].

Lemma frame_Deallocate cb : frame (Deallocate cb).
Proof. unfold Deallocate. frame_solve. Qed.

#[local] Hint Resolve frame_Deallocate : frame.

Lemma frame_WeakPtr_dtor this : frame (WeakPtr_dtor this).
Proof.
  unfold WeakPtr_dtor, decr_weak_cnt, get_weak_cnt, get_shared_cnt. frame_solve.
Qed.

Lemma frame_payload_dtor ptr : frame (payload_dtor ptr).
Proof.
  intros f σ. unfold payload_dtor. destruct ptr as [l|]; [|done].
  cbv [mbind M_bind get_state]. cbn [payloads with_strongs].
  destruct (payloads σ !! obj l) as [wptr|]; [|done].
  rewrite frame_WeakPtr_dtor. by destruct (WeakPtr_dtor wptr σ).
Qed.

#[local] Hint Resolve frame_payload_dtor : frame.

Lemma frame_useDeleter cb : frame (useDeleter cb).
Proof. unfold useDeleter. frame_solve. Qed.

Lemma frame_Destroy cb : frame (Destroy cb).
Proof. unfold Destroy. frame_solve. Qed.

#[local] Hint Resolve frame_useDeleter frame_Destroy : frame.

Lemma frame_SharedPtr_release cb : frame (SharedPtr_release cb).
Proof.
  unfold SharedPtr_release, decr_shared_cnt, get_weak_cnt, get_shared_cnt.
  frame_solve.
Qed.


(** [~SharedPtr] is its null test, [SharedPtr_release], and the reset of
    the fields. *)
Lemma SharedPtr_dtor_release this σ :
  SharedPtr_dtor this σ =
    match strongs σ !! this with
    | Some s =>
      match s_cb s with
      | Some a => (SharedPtr_release (Some a);; write_strong this null_shared) σ
      | None => Ok tt σ
      end
    | None => Fault BadObject σ
    end.
Proof.
  unfold SharedPtr_dtor, SharedPtr_release, read_strong. cbv [mbind M_bind].
  destruct (strongs σ !! this) as [s|]; [|done].
  destruct (s_cb s) as [a|]; [|done].
  destruct (decr_shared_cnt (Some a) σ) as [[] σ1|]; [|done].
  by destruct (get_shared_cnt (Some a) σ1).
Qed.

(** What [~SharedPtr] does depends on the fields of the pointer it is
    called on, not on which object that is, nor on the other strong
    pointers: on any object holding the same fields, in any store of
    strong pointers, it has the same outcome. *)
Lemma SharedPtr_dtor_frame σ this s L i :
  strongs σ !! this = Some s → is_Some (s_cb s) → L !! i = Some s →
  SharedPtr_dtor i (with_strongs (λ _, L) σ) =
    rebase (with_strongs (λ _, <[i := null_shared]> L)) (with_strongs (λ _, L))
      (SharedPtr_dtor this σ).
Proof.
  intros Hs [a Ha] Hi. rewrite !SharedPtr_dtor_release. cbn [strongs with_strongs].
  rewrite Hs, Hi, Ha. cbv [mbind M_bind]. rewrite frame_SharedPtr_release.
  by destruct (SharedPtr_release (Some a) σ) as [[] σ1|e σ1].
Qed.

(** Swap with a temporary, then destroy the temporary: the second half
    of every assignment and of [reset].  The target's old block is
    released as [~SharedPtr] on the target would release it. *)
Lemma swap_dtor σ this tmp t o :
  this ≠ tmp → strongs σ !! this = Some t → strongs σ !! tmp = Some o →
  is_Some (s_cb t) →
  (SharedPtr_swap this tmp;; SharedPtr_dtor tmp) σ =
    rebase
      (with_strongs (λ _, <[tmp := null_shared]> (<[this := o]> (strongs σ))))
      (with_strongs (λ _, <[tmp := t]> (<[this := o]> (strongs σ))))
      (SharedPtr_dtor this σ).
Proof.
  intros Hne Ht Ho Hcb.
  assert (Hlt : (this < length (strongs σ))%nat) by (by eapply lookup_lt_Some).
  assert (Hlo : (tmp < length (strongs σ))%nat) by (by eapply lookup_lt_Some).
  unfold SharedPtr_swap. munfold. rewrite Ht, Ho.
  change {| heap := heap σ; released := released σ; next_addr := next_addr σ;
            strongs := <[tmp:=t]> (<[this:=o]> (strongs σ));
            weaks := weaks σ; payloads := payloads σ; trace := trace σ |}
    with (with_strongs (λ _, <[tmp:=t]> (<[this:=o]> (strongs σ))) σ).
  rewrite (SharedPtr_dtor_frame σ this t _ tmp Ht Hcb).
  2: { apply list_lookup_insert_eq. by rewrite length_insert. }
  by rewrite list_insert_insert_eq.
Qed.

Lemma rebase_rebase {A} ok ko ok' ko' (o : outcome A) :
  rebase ok ko (rebase ok' ko' o) = rebase (ok ∘ ok') (ko ∘ ko') o.
Proof. by destruct o. Qed.

Lemma member_of_None σ a b :
  member_of σ a b = None →
  match variant b with
  | ControlBlockRegular (Some l) => payloads σ !! obj l = None
  | ControlBlockRegular None => True
  | ControlBlockMakeShared => payloads σ !! a = None
  end.
Proof. unfold member_of, payload_of. by destruct (variant b) as [[l|]|]. Qed.

(** [~SharedPtr] on the last strong pointer of a block whose payload
    holds a weak pointer to the block: the state it ends in. *)
Lemma SharedPtr_dtor_eval_self σ this s a b wp w :
  strongs σ !! this = Some s → s_cb s = Some a → live σ a b →
  shared_cnt b = 1 → member_of σ a b = Some wp →
  weaks σ !! wp = Some w → w_cb w = Some a →
  1 <= weak_cnt b <= SIZE_MAX →
  ∃ o, payload_of a b = Some o ∧
  SharedPtr_dtor this σ =
    if decide (weak_cnt b = 1) then
      Fault UseAfterFree
        {| heap := <[a := {| shared_cnt := 0; weak_cnt := 0; variant := variant b |}]>
                     (heap σ);
           released := {[a]} ∪ released σ;
           next_addr := next_addr σ;
           strongs := strongs σ;
           weaks := <[wp := null_weak]> (weaks σ);
           payloads := delete o (payloads σ);
           trace := trace σ ++ cleanup a b ++ [EvDeallocate a] |}
    else
      Ok tt
        {| heap := <[a := {| shared_cnt := 0; weak_cnt := weak_cnt b - 1;
                             variant := variant b |}]> (heap σ);
           released := released σ;
           next_addr := next_addr σ;
           strongs := <[this := null_shared]> (strongs σ);
           weaks := <[wp := null_weak]> (weaks σ);
           payloads := delete o (payloads σ);
           trace := trace σ ++ cleanup a b |}.
Proof.
  intros Hs Hcb [Hb Hr] Hsc Hm Hw Hwcb Hwc.
  unfold member_of, payload_of, cleanup in *.
  unfold SharedPtr_dtor. munfold_calls. repeat mstep.
  rewrite Hsc. change (size_t (1 - 1)) with 0. change (0 =? 0) with true. cbn iota.
  destruct (variant b) as [[l|]|] eqn:Hv; [|done|]; cbn in Hm; eexists;
    (split; [reflexivity|]); msteps.
  - erewrite (WeakPtr_dtor_eval _ wp w a).
    2: done.
    2: done.
    2: { split; cbn [heap released]; [apply lookup_insert_eq | done]. }
    2: { cbn [weak_cnt]. done. }
    cbn [heap released next_addr strongs weaks payloads trace shared_cnt weak_cnt variant].
    destruct (decide (weak_cnt b = 1)) as [H1|H1].
    + rewrite !decide_True by done. msteps.
      rewrite decide_True by (apply elem_of_union_l; by apply elem_of_singleton).
      rewrite H1, insert_insert_eq, <- app_assoc. reflexivity.
    + rewrite !decide_False by tauto. msteps.
      destruct (Z.eqb_spec (weak_cnt b - 1) 0) as [?|_]; [lia|].
      msteps. rewrite insert_insert_eq, app_nil_r. reflexivity.
  - erewrite (WeakPtr_dtor_eval _ wp w a).
    2: done.
    2: done.
    2: { split; cbn [heap released]; [apply lookup_insert_eq | done]. }
    2: { cbn [weak_cnt]. done. }
    cbn [heap released next_addr strongs weaks payloads trace shared_cnt weak_cnt variant].
    destruct (decide (weak_cnt b = 1)) as [H1|H1].
    + rewrite !decide_True by done. msteps.
      rewrite decide_True by (apply elem_of_union_l; by apply elem_of_singleton).
      rewrite H1, insert_insert_eq, <- app_assoc. reflexivity.
    + rewrite !decide_False by tauto. msteps.
      destruct (Z.eqb_spec (weak_cnt b - 1) 0) as [?|_]; [lia|].
      msteps. rewrite insert_insert_eq, app_nil_r. reflexivity.
Qed.

(** X4: [~SharedPtr] leaves an empty pointer alone.  On a pointer that
    is not the last strong pointer of its block it lowers the strong
    count by 1, empties the pointer and calls nothing.  On the last
    strong pointer of a block whose payload holds no [WeakPtr] member,
    it calls the deleter (adopted payload) or destroys [data] in place
    ([makeShared]), and then [Deallocate] if and only if no weak pointer
    is left.  On the last strong pointer of a block whose payload holds
    a [WeakPtr] to that block, the payload's destructor takes 1 off the
    weak count; if that was the last weak pointer the block is
    deallocated inside the payload's destruction and [~SharedPtr] then
    uses the released block (use after free, its fields still set);
    otherwise it returns and calls no [Deallocate]. *)
Theorem SharedPtr_dtor_spec :
  (∀ σ this s, strongs σ !! this = Some s → s_cb s = None →
     SharedPtr_dtor this σ = Ok tt σ) ∧
  (∀ σ this s a b,
     strongs σ !! this = Some s → s_cb s = Some a → live σ a b →
     2 <= shared_cnt b <= SIZE_MAX →
     ∃ σ', SharedPtr_dtor this σ = Ok tt σ' ∧
       strongs σ' !! this = Some null_shared ∧
       counts σ' a = Some (shared_cnt b - 1, weak_cnt b) ∧
       weaks σ' = weaks σ ∧ trace σ' = trace σ ∧ released σ' = released σ) ∧
  (∀ σ this s a b,
     strongs σ !! this = Some s → s_cb s = Some a → live σ a b →
     shared_cnt b = 1 → member_of σ a b = None →
     ∃ σ', SharedPtr_dtor this σ = Ok tt σ' ∧
       strongs σ' !! this = Some null_shared ∧
       counts σ' a = Some (0, weak_cnt b) ∧
       weaks σ' = weaks σ ∧
       (weak_cnt b ≠ 0 →
          trace σ' = trace σ ++ cleanup a b ∧ released σ' = released σ) ∧
       (weak_cnt b = 0 →
          trace σ' = trace σ ++ cleanup a b ++ [EvDeallocate a] ∧
          released σ' = {[a]} ∪ released σ)) ∧
  (∀ σ this s a b wp w,
     strongs σ !! this = Some s → s_cb s = Some a → live σ a b →
     shared_cnt b = 1 → member_of σ a b = Some wp →
     weaks σ !! wp = Some w → w_cb w = Some a →
     (weak_cnt b = 1 →
        ∃ σ', SharedPtr_dtor this σ = Fault UseAfterFree σ' ∧
          trace σ' = trace σ ++ cleanup a b ++ [EvDeallocate a] ∧
          a ∈ released σ' ∧
          counts σ' a = Some (0, 0) ∧
          strongs σ' !! this = Some s) ∧
     (2 <= weak_cnt b <= SIZE_MAX →
        ∃ σ', SharedPtr_dtor this σ = Ok tt σ' ∧
          strongs σ' !! this = Some null_shared ∧
          weaks σ' !! wp = Some null_weak ∧
          counts σ' a = Some (0, weak_cnt b - 1) ∧
          trace σ' = trace σ ++ cleanup a b ∧ released σ' = released σ)).
Proof.
  split; [|split; [|split]].
  - intros σ this s Hs Hcb. unfold SharedPtr_dtor. munfold. by repeat mstep.
  - intros σ this s a b Hs Hcb Hlive Hsc.
    rewrite (SharedPtr_dtor_not_last σ this s a b) by done.
    eexists; split; [reflexivity|]. unfold counts. cbn. by repeat mstep.
  - intros σ this s a b Hs Hcb Hlive Hsc Hm.
    rewrite (SharedPtr_dtor_eval σ this s a b);
      [|done|done|done|unfold SIZE_MAX; lia|by apply member_of_None].
    eexists; split; [reflexivity|]. unfold counts, cleanup. repeat mstep.
    rewrite Hsc. rewrite (decide_True (P := 1 = 1)) by done.
    split; [done|]. split; [done|]. split; [done|]. split.
    + intros H0. rewrite decide_False by done. rewrite decide_False by tauto.
      by rewrite app_nil_r.
    + intros H0. rewrite decide_True by done. by rewrite decide_True by done.
  - intros σ this s a b wp w Hs Hcb Hlive Hsc Hm Hw Hwcb. split.
    + intros H1.
      destruct (SharedPtr_dtor_eval_self σ this s a b wp w) as (o & _ & ->);
        [done..|unfold SIZE_MAX; lia|].
      rewrite decide_True by done.
      eexists; split; [reflexivity|]. unfold counts. cbn. repeat mstep.
      repeat split; try done. apply elem_of_union_l. by apply elem_of_singleton.
    + intros H2.
      destruct (SharedPtr_dtor_eval_self σ this s a b wp w) as (o & _ & ->);
        [done..|lia|].
      rewrite decide_False by lia.
      eexists; split; [reflexivity|]. unfold counts. cbn. repeat mstep. done.
Qed.

Lemma SharedPtr_dtor_spec_witness :
  SharedPtr_dtor 0 expired_weak = Ok tt expired_weak ∧
  (∃ σ', SharedPtr_dtor 0 two_strong = Ok tt σ' ∧
     strongs σ' !! 0%nat = Some null_shared ∧
     counts σ' 1%positive = Some (2 - 1, 0) ∧
     weaks σ' = weaks two_strong ∧ trace σ' = trace two_strong ∧
     released σ' = released two_strong) ∧
  (∃ σ', SharedPtr_dtor 0 strong_and_weak = Ok tt σ' ∧
     strongs σ' !! 0%nat = Some null_shared ∧
     counts σ' 1%positive = Some (0, 1) ∧
     weaks σ' = weaks strong_and_weak ∧
     (1 ≠ 0 →
        trace σ' = trace strong_and_weak ++ [EvDeleter 1%positive P100] ∧
        released σ' = released strong_and_weak) ∧
     (1 = 0 →
        trace σ' =
          trace strong_and_weak ++ [EvDeleter 1%positive P100] ++
          [EvDeallocate 1%positive] ∧
        released σ' = {[1%positive]} ∪ released strong_and_weak)) ∧
  (∃ σ', SharedPtr_dtor 0 self_observer_adopted = Fault UseAfterFree σ' ∧
     trace σ' =
       trace self_observer_adopted ++ [EvDeleter 2%positive P1] ++
       [EvDeallocate 2%positive] ∧
     2%positive ∈ released σ' ∧
     counts σ' 2%positive = Some (0, 0) ∧
     strongs σ' !! 0%nat = Some {| s_cb := Some 2%positive; s_ptr := P1 |}) ∧
  (∃ σ', SharedPtr_dtor 0 self_observer_and_weak = Ok tt σ' ∧
     strongs σ' !! 0%nat = Some null_shared ∧
     weaks σ' !! 0%nat = Some null_weak ∧
     counts σ' 2%positive = Some (0, 2 - 1) ∧
     trace σ' = trace self_observer_and_weak ++ [EvDeleter 2%positive P1] ∧
     released σ' = released self_observer_and_weak).
Proof.
  split; [|split; [|split; [|split]]].
  - apply (proj1 SharedPtr_dtor_spec expired_weak 0%nat null_shared); reflexivity.
  - apply (proj1 (proj2 SharedPtr_dtor_spec) two_strong 0%nat
             {| s_cb := Some 1%positive; s_ptr := P100 |} 1%positive
             {| shared_cnt := 2; weak_cnt := 0; variant := ControlBlockRegular P100 |}).
    + reflexivity.
    + reflexivity.
    + split; [reflexivity | by vm_compute].
    + unfold SIZE_MAX; simpl; lia.
  - apply (proj1 (proj2 (proj2 SharedPtr_dtor_spec)) strong_and_weak 0%nat
             {| s_cb := Some 1%positive; s_ptr := P100 |} 1%positive
             {| shared_cnt := 1; weak_cnt := 1; variant := ControlBlockRegular P100 |}).
    + reflexivity.
    + reflexivity.
    + split; [reflexivity | by vm_compute].
    + reflexivity.
    + reflexivity.
  - apply (proj2 (proj2 (proj2 SharedPtr_dtor_spec)) self_observer_adopted 0%nat
             {| s_cb := Some 2%positive; s_ptr := P1 |} 2%positive
             {| shared_cnt := 1; weak_cnt := 1; variant := ControlBlockRegular P1 |}
             0%nat {| w_cb := Some 2%positive; w_ptr := P1 |}).
    + reflexivity.
    + reflexivity.
    + split; [reflexivity | by vm_compute].
    + reflexivity.
    + reflexivity.
    + reflexivity.
    + reflexivity.
    + reflexivity.
  - apply (proj2 (proj2 (proj2 SharedPtr_dtor_spec)) self_observer_and_weak 0%nat
             {| s_cb := Some 2%positive; s_ptr := P1 |} 2%positive
             {| shared_cnt := 1; weak_cnt := 2; variant := ControlBlockRegular P1 |}
             0%nat {| w_cb := Some 2%positive; w_ptr := P1 |}).
    + reflexivity.
    + reflexivity.
    + split; [reflexivity | by vm_compute].
    + reflexivity.
    + reflexivity.
    + reflexivity.
    + reflexivity.
    + unfold SIZE_MAX; simpl; lia.
Defined.

(** [~SharedPtr] on a pointer to a live block, the payload holding no
    [WeakPtr] member if this is the last strong pointer: the state it
    ends in. *)
Lemma SharedPtr_dtor_eval_plain σ this s a b :
  strongs σ !! this = Some s → s_cb s = Some a → live σ a b →
  1 <= shared_cnt b <= SIZE_MAX →
  (shared_cnt b = 1 → member_of σ a b = None) →
  SharedPtr_dtor this σ =
    Ok tt
      {| heap := <[a := {| shared_cnt := shared_cnt b - 1; weak_cnt := weak_cnt b;
                           variant := variant b |}]> (heap σ);
         released :=
           if decide (shared_cnt b = 1 ∧ weak_cnt b = 0)
           then {[a]} ∪ released σ else released σ;
         next_addr := next_addr σ;
         strongs := <[this := null_shared]> (strongs σ);
         weaks := weaks σ;
         payloads := payloads σ;
         trace :=
           trace σ ++
           (if decide (shared_cnt b = 1) then
              cleanup a b ++
              (if decide (weak_cnt b = 0) then [EvDeallocate a] else [])
            else []) |}.
Proof.
  intros Hs Hcb Hlive Hsc Hm. destruct (decide (shared_cnt b = 1)) as [H1|H1].
  - rewrite (SharedPtr_dtor_eval σ this s a b);
      [|done|done|done|done|by apply member_of_None, Hm].
    by rewrite (decide_True (P := shared_cnt b = 1)) by done.
  - rewrite (SharedPtr_dtor_not_last σ this s a b) by (try done; lia).
    rewrite decide_False by tauto.
    unfold with_strongs, with_heap. cbn. by rewrite app_nil_r.
Qed.

Lemma bind_Ok {A B} (m : M A) (k : A → M B) σ x σ' :
  m σ = Ok x σ' → (m ≫= k) σ = k x σ'.
Proof. intros H. cbv [mbind M_bind]. by rewrite H. Qed.

Lemma rebase_ext {A} ok ko ok' ko' (o : outcome A) :
  (∀ σ, ok σ = ok' σ) → (∀ σ, ko σ = ko' σ) → rebase ok ko o = rebase ok' ko' o.
Proof. intros H1 H2. destruct o; cbn; by rewrite ?H1, ?H2. Qed.

Lemma snoc_insert_old {A} (l : list A) i x y z :
  (i < length l)%nat →
  <[length l := z]> (<[i := x]> (l ++ [y])) = <[i := x]> l ++ [z].
Proof.
  intros Hi. rewrite insert_app_l by done.
  rewrite insert_app_r_alt by (rewrite length_insert; lia).
  by rewrite length_insert, Nat.sub_diag.
Qed.

(** X9: [reset()] on a non-empty pointer releases the block as
    [~SharedPtr] does, whatever the payload holds: it has the outcome of
    the destructor (the same counts, log and released blocks, and the
    same fault where the destructor faults), with the pointer empty and
    one temporary more in the store, which is empty if [reset()]
    returns and holds the pointer's old fields if it faults. *)
Theorem SharedPtr_reset_as_dtor σ this s a :
  strongs σ !! this = Some s → s_cb s = Some a →
  SharedPtr_reset this σ =
    rebase
      (with_strongs (λ _, <[this := null_shared]> (strongs σ) ++ [null_shared]))
      (with_strongs (λ _, <[this := null_shared]> (strongs σ) ++ [s]))
      (SharedPtr_dtor this σ).
Proof.
  intros Hs Hcb.
  assert (Hlt : (this < length (strongs σ))%nat) by (by eapply lookup_lt_Some).
  unfold SharedPtr_reset.
  rewrite (bind_Ok SharedPtr_default _ σ (length (strongs σ))
             (with_strongs (λ _, strongs σ ++ [null_shared]) σ)) by reflexivity.
  rewrite (swap_dtor _ this (length (strongs σ)) s null_shared);
    [|lia|by apply lookup_snoc_old|apply lookup_snoc|by rewrite Hcb].
  rewrite (SharedPtr_dtor_frame σ this s (strongs σ ++ [null_shared]) this Hs);
    [|by rewrite Hcb|by apply lookup_snoc_old].
  rewrite rebase_rebase. apply rebase_ext; intros σ1; unfold with_strongs; cbn;
    by rewrite snoc_insert_old.
Qed.

Lemma SharedPtr_reset_as_dtor_witness :
  SharedPtr_reset 0 one_strong =
    rebase
      (with_strongs (λ _, <[0%nat := null_shared]> (strongs one_strong) ++ [null_shared]))
      (with_strongs (λ _, <[0%nat := null_shared]> (strongs one_strong) ++
                            [{| s_cb := Some 1%positive; s_ptr := P100 |}]))
      (SharedPtr_dtor 0 one_strong) ∧
  SharedPtr_reset 0 self_observer_adopted =
    rebase
      (with_strongs
         (λ _, <[0%nat := null_shared]> (strongs self_observer_adopted) ++ [null_shared]))
      (with_strongs
         (λ _, <[0%nat := null_shared]> (strongs self_observer_adopted) ++
                 [{| s_cb := Some 2%positive; s_ptr := P1 |}]))
      (SharedPtr_dtor 0 self_observer_adopted).
Proof.
  split.
  - apply (SharedPtr_reset_as_dtor one_strong 0%nat
             {| s_cb := Some 1%positive; s_ptr := P100 |} 1%positive); reflexivity.
  - apply (SharedPtr_reset_as_dtor self_observer_adopted 0%nat
             {| s_cb := Some 2%positive; s_ptr := P1 |} 2%positive); reflexivity.
Defined.

Lemma SharedPtr_copy_strongs σ other tmp σc :
  SharedPtr_copy other σ = Ok tmp σc →
  ∃ o, strongs σ !! other = Some o ∧ tmp = length (strongs σ) ∧
    strongs σc = strongs σ ++ [o].
Proof.
  intros H. unfold SharedPtr_copy in H. munfold_in H. mcases H; finish H.
  all: eexists; split; [reflexivity|]; split; [reflexivity|]; cbn.
  all: destruct s; cbn in *; by subst.
Qed.

(** X8: [SharedPtr::operator=(const SharedPtr&)].  Assigning a pointer
    to itself does nothing.  Assigning between two pointers of one
    block rebinds the payload pointer and leaves the counts alone.
    Otherwise, on a non-empty target, the assignment is the copy
    constructor followed by what [~SharedPtr] does to the target,
    whatever the payload holds: it has the destructor's outcome (counts,
    log, released blocks, fault), and the target then holds the source's
    fields.  In particular, assigning from a pointer of another block
    adds 1 to the strong count of the new block and takes 1 off the old
    block's; if the target was the old block's last strong pointer and
    the payload holds no [WeakPtr] member, the payload is cleaned up and
    the block is deallocated if it has no weak pointer. *)
Theorem SharedPtr_assign_copy_spec :
  (∀ σ this, SharedPtr_assign_copy this this σ = Ok tt σ) ∧
  (∀ σ this other t o a b,
     this ≠ other →
     strongs σ !! this = Some t → strongs σ !! other = Some o →
     s_cb t = Some a → s_cb o = Some a → live σ a b →
     1 <= shared_cnt b < SIZE_MAX →
     ∃ σ', SharedPtr_assign_copy this other σ = Ok tt σ' ∧
       strongs σ' !! this = Some o ∧ strongs σ' !! other = Some o ∧
       heap σ' = heap σ ∧ released σ' = released σ ∧ trace σ' = trace σ) ∧
  (∀ σ this other t a tmp σc,
     this ≠ other →
     strongs σ !! this = Some t → s_cb t = Some a →
     SharedPtr_copy other σ = Ok tmp σc →
     ∃ o, strongs σ !! other = Some o ∧ strongs σc = strongs σ ++ [o] ∧
       SharedPtr_assign_copy this other σ =
         rebase
           (with_strongs (λ _, <[this := o]> (strongs σ) ++ [null_shared]))
           (with_strongs (λ _, <[this := o]> (strongs σ) ++ [t]))
           (SharedPtr_dtor this σc)) ∧
  (∀ σ this other t o a b c d,
     this ≠ other → a ≠ c →
     strongs σ !! this = Some t → strongs σ !! other = Some o →
     s_cb t = Some a → live σ a b → 1 <= shared_cnt b <= SIZE_MAX →
     s_cb o = Some c → live σ c d → 0 <= shared_cnt d < SIZE_MAX →
     (shared_cnt b = 1 → member_of σ a b = None) →
     ∃ σ', SharedPtr_assign_copy this other σ = Ok tt σ' ∧
       strongs σ' !! this = Some o ∧ strongs σ' !! other = Some o ∧
       counts σ' a = Some (shared_cnt b - 1, weak_cnt b) ∧
       counts σ' c = Some (shared_cnt d + 1, weak_cnt d) ∧
       trace σ' =
         trace σ ++
         (if decide (shared_cnt b = 1) then
            cleanup a b ++ (if decide (weak_cnt b = 0) then [EvDeallocate a] else [])
          else []) ∧
       (a ∈ released σ' ↔ shared_cnt b = 1 ∧ weak_cnt b = 0)).
Proof.
  split; [|split; [|split]].
  - intros σ this. unfold SharedPtr_assign_copy. by rewrite decide_True.
  - intros σ this other t o a b Hne Ht Ho Hta Hoa [Hb Hr] Hsc.
    unfold SharedPtr_assign_copy. rewrite decide_False by done.
    unfold SharedPtr_copy, SharedPtr_swap. munfold. repeat mstep.
    erewrite (SharedPtr_dtor_not_last _ (length (strongs σ)) t a).
    2: { cbn [strongs]. repeat mstep. reflexivity. }
    2: done.
    2: { split; cbn [heap released]; [apply lookup_insert_eq | done]. }
    2: { cbn [shared_cnt]. rewrite size_t_id by (unfold is_size_t; lia). lia. }
    eexists; split; [reflexivity|]. cbn. repeat mstep.
    rewrite size_t_id by (unfold is_size_t; lia).
    rewrite <- Hoa, rebuild_shared. repeat split.
    rewrite insert_insert_eq. apply insert_id. rewrite Hb. f_equal.
    destruct b; cbn. f_equal. lia.
  - intros σ this other t a tmp σc Hne Ht Hta Hcopy.
    assert (Hlt : (this < length (strongs σ))%nat) by (by eapply lookup_lt_Some).
    destruct (SharedPtr_copy_strongs _ _ _ _ Hcopy) as (o & Ho & -> & Hc).
    exists o. split; [done|]. split; [done|].
    unfold SharedPtr_assign_copy. rewrite decide_False by done.
    rewrite (bind_Ok _ _ _ _ _ Hcopy).
    rewrite (swap_dtor σc this (length (strongs σ)) t o);
      [|lia|rewrite Hc; by apply lookup_snoc_old|rewrite Hc; apply lookup_snoc
       |by rewrite Hta].
    rewrite Hc. apply rebase_ext; intros σ1; unfold with_strongs; cbn;
      by rewrite snoc_insert_old.
  - intros σ this other t o a b c d Hne Hac Ht Ho Hta [Hb Hr] Hsc Hoc [Hd Hrd] Hdc Hm.
    unfold SharedPtr_assign_copy. rewrite decide_False by done.
    unfold SharedPtr_copy, SharedPtr_swap. munfold. repeat mstep.
    erewrite (SharedPtr_dtor_eval_plain _ (length (strongs σ)) t a b).
    2: { cbn [strongs]. repeat mstep. reflexivity. }
    2: done.
    2: { split; cbn [heap released]; [by rewrite lookup_insert_ne | done]. }
    2: done.
    2: { exact Hm. }
    eexists; split; [reflexivity|]. unfold counts. cbn. repeat mstep.
    rewrite lookup_insert_ne by done. repeat mstep.
    rewrite size_t_id by (unfold is_size_t; lia).
    rewrite <- Hoc, rebuild_shared. repeat split; try done.
    + destruct (decide (shared_cnt b = 1 ∧ weak_cnt b = 0)); [tauto|done].
    + destruct (decide (shared_cnt b = 1 ∧ weak_cnt b = 0)); [tauto|done].
    + intros H. rewrite decide_True by done. apply elem_of_union_l.
      by apply elem_of_singleton.
Qed.

Lemma SharedPtr_assign_copy_spec_witness :
  (∃ σ', SharedPtr_assign_copy 0 1 two_strong = Ok tt σ' ∧
     strongs σ' !! 0%nat = Some {| s_cb := Some 1%positive; s_ptr := P100 |} ∧
     strongs σ' !! 1%nat = Some {| s_cb := Some 1%positive; s_ptr := P100 |} ∧
     heap σ' = heap two_strong ∧ released σ' = released two_strong ∧
     trace σ' = trace two_strong) ∧
  (∃ o, strongs self_observer_and_block !! 1%nat = Some o ∧
     strongs (final (SharedPtr_copy 1 self_observer_and_block)) =
       strongs self_observer_and_block ++ [o] ∧
     SharedPtr_assign_copy 0 1 self_observer_and_block =
       rebase
         (with_strongs
            (λ _, <[0%nat := o]> (strongs self_observer_and_block) ++ [null_shared]))
         (with_strongs
            (λ _, <[0%nat := o]> (strongs self_observer_and_block) ++
                    [{| s_cb := Some 2%positive; s_ptr := P1 |}]))
         (SharedPtr_dtor 0 (final (SharedPtr_copy 1 self_observer_and_block)))) ∧
  (∃ σ', SharedPtr_assign_copy 0 1 two_blocks = Ok tt σ' ∧
     strongs σ' !! 0%nat = Some {| s_cb := Some 2%positive; s_ptr := P200 |} ∧
     strongs σ' !! 1%nat = Some {| s_cb := Some 2%positive; s_ptr := P200 |} ∧
     counts σ' 1%positive = Some (1 - 1, 0) ∧
     counts σ' 2%positive = Some (1 + 1, 0) ∧
     trace σ' =
       trace two_blocks ++ [EvDeleter 1%positive P100; EvDeallocate 1%positive] ∧
     (1%positive ∈ released σ' ↔ 1 = 1 ∧ 0 = 0)).
Proof.
  split; [|split].
  - apply (proj1 (proj2 SharedPtr_assign_copy_spec) two_strong 0%nat 1%nat
             {| s_cb := Some 1%positive; s_ptr := P100 |}
             {| s_cb := Some 1%positive; s_ptr := P100 |} 1%positive
             {| shared_cnt := 2; weak_cnt := 0; variant := ControlBlockRegular P100 |}).
    + lia.
    + reflexivity.
    + reflexivity.
    + reflexivity.
    + reflexivity.
    + split; [reflexivity | by vm_compute].
    + unfold SIZE_MAX; simpl; lia.
  - apply (proj1 (proj2 (proj2 SharedPtr_assign_copy_spec)) self_observer_and_block
             0%nat 1%nat {| s_cb := Some 2%positive; s_ptr := P1 |} 2%positive 2%nat
             (final (SharedPtr_copy 1 self_observer_and_block))).
    + lia.
    + reflexivity.
    + reflexivity.
    + vm_compute. reflexivity.
  - apply (proj2 (proj2 (proj2 SharedPtr_assign_copy_spec)) two_blocks 0%nat 1%nat
             {| s_cb := Some 1%positive; s_ptr := P100 |}
             {| s_cb := Some 2%positive; s_ptr := P200 |}
             1%positive
             {| shared_cnt := 1; weak_cnt := 0; variant := ControlBlockRegular P100 |}
             2%positive
             {| shared_cnt := 1; weak_cnt := 0; variant := ControlBlockRegular P200 |}).
    + lia.
    + lia.
    + reflexivity.
    + reflexivity.
    + reflexivity.
    + split; [reflexivity | by vm_compute].
    + unfold SIZE_MAX; simpl; lia.
    + reflexivity.
    + split; [reflexivity | by vm_compute].
    + unfold SIZE_MAX; simpl; lia.
    + reflexivity.
Defined.

Lemma SharedPtr_move_eval σ other o :
  strongs σ !! other = Some o →
  SharedPtr_move other σ =
    Ok (length (strongs σ))
       (with_strongs (λ _, <[other := null_shared]> (strongs σ) ++ [o]) σ).
Proof.
  intros Ho. assert (Hlo : (other < length (strongs σ))%nat) by (by eapply lookup_lt_Some).
  unfold SharedPtr_move. munfold. rewrite Ho. unfold with_strongs. cbn.
  by rewrite rebuild_shared, insert_app_l.
Qed.

Lemma SharedPtr_move_conv_eval σ delta other o :
  strongs σ !! other = Some o →
  SharedPtr_move_conv delta other σ =
    Ok (length (strongs σ))
       (with_strongs
          (λ _, <[other := null_shared]> (strongs σ) ++
                  [{| s_cb := s_cb o; s_ptr := static_cast delta (s_ptr o) |}]) σ).
Proof.
  intros Ho. assert (Hlo : (other < length (strongs σ))%nat) by (by eapply lookup_lt_Some).
  unfold SharedPtr_move_conv. munfold. rewrite Ho. unfold with_strongs. cbn.
  by rewrite insert_app_l.
Qed.

(** A temporary [o] pushed on the store of strong pointers, swapped with
    the target and destroyed, the other strong pointers being [L] with
    the target's fields still in place. *)
Lemma push_swap_dtor σ this t a L o :
  strongs σ !! this = Some t → s_cb t = Some a →
  L !! this = Some t → length L = length (strongs σ) →
  (SharedPtr_swap this (length L);; SharedPtr_dtor (length L))
    (with_strongs (λ _, L ++ [o]) σ) =
  rebase (with_strongs (λ _, <[this := o]> L ++ [null_shared]))
         (with_strongs (λ _, <[this := o]> L ++ [t]))
         (SharedPtr_dtor this σ).
Proof.
  intros Ht Hta HL Hlen.
  assert (Hlt : (this < length L)%nat) by (by eapply lookup_lt_Some).
  rewrite (swap_dtor _ this (length L) t o);
    [|lia|by apply lookup_snoc_old|apply lookup_snoc|by rewrite Hta].
  rewrite (SharedPtr_dtor_frame σ this t (L ++ [o]) this Ht);
    [|by rewrite Hta|by apply lookup_snoc_old].
  rewrite rebase_rebase. apply rebase_ext; intros σ1; unfold with_strongs; cbn;
    by rewrite snoc_insert_old.
Qed.

(** X20: [SharedPtr::operator=(SharedPtr&&)] and its converting form.
    Assigning a pointer to itself does nothing.  Otherwise, on a
    non-empty target, the assignment has the outcome of [~SharedPtr] on
    the target, whatever the payload holds (the same counts, log and
    released blocks, the same fault), after which the target holds the
    source's block and (converted) payload pointer and the source is
    empty; the counts of the source's block are not touched.  In
    particular the target's old block loses one strong reference; if
    that was its last and the payload holds no [WeakPtr] member, the
    payload is cleaned up and the block is deallocated if it has no
    weak pointer. *)
Theorem SharedPtr_assign_move_spec :
  (∀ σ this delta,
     SharedPtr_assign_move this this σ = Ok tt σ ∧
     SharedPtr_assign_move_conv delta this this σ = Ok tt σ) ∧
  (∀ σ this other t a o delta,
     this ≠ other →
     strongs σ !! this = Some t → s_cb t = Some a → strongs σ !! other = Some o →
     SharedPtr_assign_move this other σ =
       rebase
         (with_strongs
            (λ _, <[this := o]> (<[other := null_shared]> (strongs σ)) ++ [null_shared]))
         (with_strongs
            (λ _, <[this := o]> (<[other := null_shared]> (strongs σ)) ++ [t]))
         (SharedPtr_dtor this σ) ∧
     SharedPtr_assign_move_conv delta this other σ =
       rebase
         (with_strongs
            (λ _, <[this := {| s_cb := s_cb o; s_ptr := static_cast delta (s_ptr o) |}]>
                    (<[other := null_shared]> (strongs σ)) ++ [null_shared]))
         (with_strongs
            (λ _, <[this := {| s_cb := s_cb o; s_ptr := static_cast delta (s_ptr o) |}]>
                    (<[other := null_shared]> (strongs σ)) ++ [t]))
         (SharedPtr_dtor this σ)) ∧
  (∀ σ this other t o a b delta,
     this ≠ other →
     strongs σ !! this = Some t → strongs σ !! other = Some o →
     s_cb t = Some a → live σ a b → 1 <= shared_cnt b <= SIZE_MAX →
     (shared_cnt b = 1 → member_of σ a b = None) →
     ∃ σ' σ'',
       SharedPtr_assign_move this other σ = Ok tt σ' ∧
       SharedPtr_assign_move_conv delta this other σ = Ok tt σ'' ∧
       strongs σ' !! this = Some o ∧
       strongs σ'' !! this =
         Some {| s_cb := s_cb o; s_ptr := static_cast delta (s_ptr o) |} ∧
       strongs σ' !! other = Some null_shared ∧
       strongs σ'' !! other = Some null_shared ∧
       heap σ' = <[a := {| shared_cnt := shared_cnt b - 1; weak_cnt := weak_cnt b;
                           variant := variant b |}]> (heap σ) ∧
       heap σ'' = heap σ' ∧ trace σ'' = trace σ' ∧ released σ'' = released σ' ∧
       trace σ' =
         trace σ ++
         (if decide (shared_cnt b = 1) then
            cleanup a b ++ (if decide (weak_cnt b = 0) then [EvDeallocate a] else [])
          else []) ∧
       (a ∈ released σ' ↔ shared_cnt b = 1 ∧ weak_cnt b = 0)).
Proof.
  split; [|split].
  - intros σ this delta. unfold SharedPtr_assign_move, SharedPtr_assign_move_conv.
    by rewrite !decide_True.
  - intros σ this other t a o delta Hne Ht Hta Ho.
    assert (Hlt : (this < length (strongs σ))%nat) by (by eapply lookup_lt_Some).
    unfold SharedPtr_assign_move, SharedPtr_assign_move_conv.
    rewrite !decide_False by done.
    rewrite (bind_Ok _ _ _ _ _ (SharedPtr_move_eval σ other o Ho)).
    rewrite (bind_Ok _ _ _ _ _ (SharedPtr_move_conv_eval σ delta other o Ho)).
    rewrite <- (length_insert (strongs σ) other null_shared).
    split; (rewrite (push_swap_dtor σ this t a);
      [done|done|done|by rewrite list_lookup_insert_ne|by rewrite length_insert]).
  - intros σ this other t o a b delta Hne Ht Ho Hta [Hb Hr] Hsc Hm.
    assert (Hlt : (this < length (strongs σ))%nat) by (by eapply lookup_lt_Some).
    assert (Hlo : (other < length (strongs σ))%nat) by (by eapply lookup_lt_Some).
    unfold SharedPtr_assign_move, SharedPtr_assign_move_conv.
    rewrite !decide_False by done.
    unfold SharedPtr_move, SharedPtr_move_conv, SharedPtr_swap. munfold. repeat mstep.
    erewrite (SharedPtr_dtor_eval_plain _ (length (strongs σ)) t a b).
    2: { cbn [strongs]. repeat mstep. reflexivity. }
    2: done.
    2: { by split. }
    2: done.
    2: { exact Hm. }
    erewrite (SharedPtr_dtor_eval_plain _ (length (strongs σ)) t a b).
    2: { cbn [strongs]. repeat mstep. reflexivity. }
    2: done.
    2: { by split. }
    2: done.
    2: { exact Hm. }
    eexists _, _. split; [reflexivity|]. split; [reflexivity|].
    cbn. repeat mstep. rewrite rebuild_shared. repeat split; try done.
    + destruct (decide (shared_cnt b = 1 ∧ weak_cnt b = 0)); [tauto|done].
    + destruct (decide (shared_cnt b = 1 ∧ weak_cnt b = 0)); [tauto|done].
    + intros H. rewrite decide_True by done. apply elem_of_union_l.
      by apply elem_of_singleton.
Qed.

Lemma SharedPtr_assign_move_spec_witness :
  (SharedPtr_assign_move 0 1 self_observer_and_block =
     rebase
       (with_strongs
          (λ _, <[0%nat := {| s_cb := Some 3%positive; s_ptr := P100 |}]>
                  (<[1%nat := null_shared]> (strongs self_observer_and_block)) ++
                [null_shared]))
       (with_strongs
          (λ _, <[0%nat := {| s_cb := Some 3%positive; s_ptr := P100 |}]>
                  (<[1%nat := null_shared]> (strongs self_observer_and_block)) ++
                [{| s_cb := Some 2%positive; s_ptr := P1 |}]))
       (SharedPtr_dtor 0 self_observer_and_block) ∧
   SharedPtr_assign_move_conv 8 0 1 self_observer_and_block =
     rebase
       (with_strongs
          (λ _, <[0%nat := {| s_cb := Some 3%positive; s_ptr := static_cast 8 P100 |}]>
                  (<[1%nat := null_shared]> (strongs self_observer_and_block)) ++
                [null_shared]))
       (with_strongs
          (λ _, <[0%nat := {| s_cb := Some 3%positive; s_ptr := static_cast 8 P100 |}]>
                  (<[1%nat := null_shared]> (strongs self_observer_and_block)) ++
                [{| s_cb := Some 2%positive; s_ptr := P1 |}]))
       (SharedPtr_dtor 0 self_observer_and_block)) ∧
  (∃ σ' σ'',
     SharedPtr_assign_move 0 1 two_blocks = Ok tt σ' ∧
     SharedPtr_assign_move_conv 8 0 1 two_blocks = Ok tt σ'' ∧
     strongs σ' !! 0%nat = Some {| s_cb := Some 2%positive; s_ptr := P200 |} ∧
     strongs σ'' !! 0%nat =
       Some {| s_cb := Some 2%positive; s_ptr := static_cast 8 P200 |} ∧
     strongs σ' !! 1%nat = Some null_shared ∧
     strongs σ'' !! 1%nat = Some null_shared ∧
     heap σ' = <[1%positive := {| shared_cnt := 1 - 1; weak_cnt := 0;
                                  variant := ControlBlockRegular P100 |}]>
                 (heap two_blocks) ∧
     heap σ'' = heap σ' ∧ trace σ'' = trace σ' ∧ released σ'' = released σ' ∧
     trace σ' = trace two_blocks ++ [EvDeleter 1%positive P100; EvDeallocate 1%positive] ∧
     (1%positive ∈ released σ' ↔ 1 = 1 ∧ 0 = 0)).
Proof.
  split.
  - apply (proj1 (proj2 SharedPtr_assign_move_spec) self_observer_and_block 0%nat 1%nat
             {| s_cb := Some 2%positive; s_ptr := P1 |} 2%positive
             {| s_cb := Some 3%positive; s_ptr := P100 |} 8).
    + lia.
    + reflexivity.
    + reflexivity.
    + reflexivity.
  - apply (proj2 (proj2 SharedPtr_assign_move_spec) two_blocks 0%nat 1%nat
             {| s_cb := Some 1%positive; s_ptr := P100 |}
             {| s_cb := Some 2%positive; s_ptr := P200 |} 1%positive
             {| shared_cnt := 1; weak_cnt := 0; variant := ControlBlockRegular P100 |} 8).
    + lia.
    + reflexivity.
    + reflexivity.
    + reflexivity.
    + split; [reflexivity | by vm_compute].
    + unfold SIZE_MAX; simpl; lia.
    + reflexivity.
Defined.

Lemma SharedPtr_adopt_eval σ ptr :
  SharedPtr_adopt false ptr σ =
    Ok (length (strongs σ))
       {| heap := <[next_addr σ := {| shared_cnt := 1; weak_cnt := 0;
                                      variant := ControlBlockRegular ptr |}]> (heap σ);
          released := released σ;
          next_addr := Pos.succ (next_addr σ);
          strongs := strongs σ ++ [{| s_cb := Some (next_addr σ); s_ptr := ptr |}];
          weaks := weaks σ;
          payloads := payloads σ;
          trace := trace σ |}.
Proof. unfold SharedPtr_adopt. cbn [negb orb]. munfold. by rewrite snoc_reset. Qed.

(** X21: [reset(ptr)] adopts [ptr] in a new block with counts (1, 0),
    which the pointer then holds.  On an empty pointer nothing else
    happens.  On a non-empty pointer it then has the outcome of
    [~SharedPtr] on the pointer, run after the adoption, whatever the
    payload holds (the same counts, log and released blocks, the same
    fault).  In particular the old block loses one strong reference; if
    that was its last and the payload holds no [WeakPtr] member, the
    payload is cleaned up and the block is deallocated if it has no
    weak pointer. *)
Theorem SharedPtr_reset_ptr_spec :
  (∀ σ this ptr,
     strongs σ !! this = Some null_shared →
     ∃ σ', SharedPtr_reset_ptr false this ptr σ = Ok tt σ' ∧
       strongs σ' !! this = Some {| s_cb := Some (next_addr σ); s_ptr := ptr |} ∧
       counts σ' (next_addr σ) = Some (1, 0) ∧
       trace σ' = trace σ ∧ released σ' = released σ) ∧
  (∀ σ this s a ptr,
     strongs σ !! this = Some s → s_cb s = Some a →
     ∃ σa, SharedPtr_adopt false ptr σ = Ok (length (strongs σ)) σa ∧
       counts σa (next_addr σ) = Some (1, 0) ∧
       SharedPtr_reset_ptr false this ptr σ =
         rebase
           (with_strongs
              (λ _, <[this := {| s_cb := Some (next_addr σ); s_ptr := ptr |}]> (strongs σ) ++
                    [null_shared]))
           (with_strongs
              (λ _, <[this := {| s_cb := Some (next_addr σ); s_ptr := ptr |}]> (strongs σ) ++
                    [s]))
           (SharedPtr_dtor this σa)) ∧
  (∀ σ this s a b ptr,
     strongs σ !! this = Some s → s_cb s = Some a → live σ a b →
     1 <= shared_cnt b <= SIZE_MAX →
     heap σ !! next_addr σ = None →
     (shared_cnt b = 1 → member_of σ a b = None) →
     ∃ σ', SharedPtr_reset_ptr false this ptr σ = Ok tt σ' ∧
       strongs σ' !! this = Some {| s_cb := Some (next_addr σ); s_ptr := ptr |} ∧
       counts σ' (next_addr σ) = Some (1, 0) ∧
       counts σ' a = Some (shared_cnt b - 1, weak_cnt b) ∧
       trace σ' =
         trace σ ++
         (if decide (shared_cnt b = 1) then
            cleanup a b ++ (if decide (weak_cnt b = 0) then [EvDeallocate a] else [])
          else []) ∧
       (a ∈ released σ' ↔ shared_cnt b = 1 ∧ weak_cnt b = 0)).
Proof.
  split; [|split].
  - intros σ this ptr Hs.
    assert (Hlt : (this < length (strongs σ))%nat) by (by eapply lookup_lt_Some).
    unfold SharedPtr_reset_ptr, SharedPtr_adopt, SharedPtr_swap, SharedPtr_dtor.
    cbn [negb orb]. unfold null_shared in *. munfold. repeat mstep.
    eexists; split; [reflexivity|]. unfold counts. cbn. repeat mstep. done.
  - intros σ this s a ptr Hs Hcb.
    assert (Hlt : (this < length (strongs σ))%nat) by (by eapply lookup_lt_Some).
    eexists. split; [apply SharedPtr_adopt_eval|].
    split; [unfold counts; cbn; by rewrite lookup_insert_eq|].
    unfold SharedPtr_reset_ptr.
    rewrite (bind_Ok _ _ _ _ _ (SharedPtr_adopt_eval σ ptr)).
    rewrite (swap_dtor _ this (length (strongs σ)) s
               {| s_cb := Some (next_addr σ); s_ptr := ptr |});
      [|lia|by apply lookup_snoc_old|apply lookup_snoc|by rewrite Hcb].
    apply rebase_ext; intros σ1; unfold with_strongs; cbn;
      by rewrite snoc_insert_old.
  - intros σ this s a b ptr Hs Hcb [Hb Hr] Hsc Hfresh Hm.
    assert (Hlt : (this < length (strongs σ))%nat) by (by eapply lookup_lt_Some).
    assert (Hne : a ≠ next_addr σ) by (intros ->; congruence).
    unfold SharedPtr_reset_ptr, SharedPtr_adopt, SharedPtr_swap. cbn [negb orb].
    munfold. repeat mstep.
    erewrite (SharedPtr_dtor_eval_plain _ (length (strongs σ)) s a b).
    2: { cbn [strongs]. repeat mstep. reflexivity. }
    2: done.
    2: { split; cbn [heap released]; [by rewrite lookup_insert_ne | done]. }
    2: done.
    2: { exact Hm. }
    eexists; split; [reflexivity|]. unfold counts. cbn. repeat mstep.
    rewrite lookup_insert_ne by done. repeat mstep.
    repeat split; try done.
    + destruct (decide (shared_cnt b = 1 ∧ weak_cnt b = 0)); [tauto|done].
    + destruct (decide (shared_cnt b = 1 ∧ weak_cnt b = 0)); [tauto|done].
    + intros H. rewrite decide_True by done. apply elem_of_union_l.
      by apply elem_of_singleton.
Qed.

Lemma SharedPtr_reset_ptr_spec_witness :
  (∃ σ', SharedPtr_reset_ptr false 0 P200 expired_weak = Ok tt σ' ∧
     strongs σ' !! 0%nat = Some {| s_cb := Some 2%positive; s_ptr := P200 |} ∧
     counts σ' 2%positive = Some (1, 0) ∧
     trace σ' = trace expired_weak ∧ released σ' = released expired_weak) ∧
  (∃ σa, SharedPtr_adopt false P200 self_observer_adopted = Ok 1%nat σa ∧
     counts σa 3%positive = Some (1, 0) ∧
     SharedPtr_reset_ptr false 0 P200 self_observer_adopted =
       rebase
         (with_strongs
            (λ _, <[0%nat := {| s_cb := Some 3%positive; s_ptr := P200 |}]>
                    (strongs self_observer_adopted) ++ [null_shared]))
         (with_strongs
            (λ _, <[0%nat := {| s_cb := Some 3%positive; s_ptr := P200 |}]>
                    (strongs self_observer_adopted) ++
                  [{| s_cb := Some 2%positive; s_ptr := P1 |}]))
         (SharedPtr_dtor 0 σa)) ∧
  (∃ σ', SharedPtr_reset_ptr false 0 P200 one_strong = Ok tt σ' ∧
     strongs σ' !! 0%nat = Some {| s_cb := Some 2%positive; s_ptr := P200 |} ∧
     counts σ' 2%positive = Some (1, 0) ∧
     counts σ' 1%positive = Some (1 - 1, 0) ∧
     trace σ' = trace one_strong ++ [EvDeleter 1%positive P100; EvDeallocate 1%positive] ∧
     (1%positive ∈ released σ' ↔ 1 = 1 ∧ 0 = 0)).
Proof.
  split; [|split].
  - apply (proj1 SharedPtr_reset_ptr_spec expired_weak 0%nat P200). reflexivity.
  - apply (proj1 (proj2 SharedPtr_reset_ptr_spec) self_observer_adopted 0%nat
             {| s_cb := Some 2%positive; s_ptr := P1 |} 2%positive P200); reflexivity.
  - apply (proj2 (proj2 SharedPtr_reset_ptr_spec) one_strong 0%nat
             {| s_cb := Some 1%positive; s_ptr := P100 |} 1%positive
             {| shared_cnt := 1; weak_cnt := 0; variant := ControlBlockRegular P100 |}
             P200).
    + reflexivity.
    + reflexivity.
    + split; [reflexivity | by vm_compute].
    + unfold SIZE_MAX; simpl; lia.
    + reflexivity.
    + reflexivity.
Defined.

(** X18: when the payload holds no [WeakPtr] member, the last strong and
    the last weak pointer of a block can be destroyed in either order,
    and both orders end in the same state: destroying the strong
    pointer first cleans the payload up and leaves the block allocated
    for the weak pointer, which is then expired; destroying the weak
    pointer first logs nothing; [Deallocate] is called once, by the
    second destructor.  When the last weak pointer is the [WeakPtr]
    member of the payload itself, destroying the strong pointer
    deallocates the block inside the payload's destruction and then
    uses it: a use after free. *)
Theorem last_pointers_either_order :
  (∀ σ sp wp s w a b,
     strongs σ !! sp = Some s → s_cb s = Some a →
     weaks σ !! wp = Some w → w_cb w = Some a →
     live σ a b → shared_cnt b = 1 → weak_cnt b = 1 →
     member_of σ a b = None →
     ∃ σs σw σ',
       SharedPtr_dtor sp σ = Ok tt σs ∧
       trace σs = trace σ ++ cleanup a b ∧ (a ∉ released σs) ∧
       WeakPtr_expired wp σs = Ok true σs ∧
       WeakPtr_dtor wp σs = Ok tt σ' ∧
       WeakPtr_dtor wp σ = Ok tt σw ∧
       trace σw = trace σ ∧ (a ∉ released σw) ∧
       WeakPtr_expired wp σw = Ok true σw ∧
       SharedPtr_dtor sp σw = Ok tt σ' ∧
       trace σ' = trace σ ++ cleanup a b ++ [EvDeallocate a] ∧
       released σ' = {[a]} ∪ released σ ∧
       counts σ' a = Some (0, 0) ∧
       strongs σ' !! sp = Some null_shared ∧ weaks σ' !! wp = Some null_weak) ∧
  (∀ σ sp wp s w a b,
     strongs σ !! sp = Some s → s_cb s = Some a →
     weaks σ !! wp = Some w → w_cb w = Some a →
     live σ a b → shared_cnt b = 1 → weak_cnt b = 1 →
     member_of σ a b = Some wp →
     ∃ σ', SharedPtr_dtor sp σ = Fault UseAfterFree σ' ∧
       trace σ' = trace σ ++ cleanup a b ++ [EvDeallocate a] ∧
       a ∈ released σ' ∧
       strongs σ' !! sp = Some s).
Proof.
  split.
  - intros σ sp wp s w a b Hs Hscb Hw Hwcb [Hb Hr] Hsc Hwc Hm.
    pose proof (member_of_None _ _ _ Hm) as Hp. unfold cleanup.
    assert (Hsl : (sp < length (strongs σ))%nat) by (by eapply lookup_lt_Some).
    assert (Hwl : (wp < length (weaks σ))%nat) by (by eapply lookup_lt_Some).
    eexists _, _, _.
    split.
    { apply (SharedPtr_dtor_eval σ sp s a b); try done. unfold SIZE_MAX. lia. }
    rewrite (decide_True (P := shared_cnt b = 1)) by done.
    rewrite (decide_False (P := weak_cnt b = 0)) by lia.
    rewrite (decide_False (P := shared_cnt b = 1 ∧ weak_cnt b = 0)) by lia.
    cbn [trace released]. rewrite app_nil_r.
    split; [done|]. split; [done|].
    split.
    { unfold WeakPtr_expired. munfold. repeat mstep. rewrite Hsc. reflexivity. }
    split.
    { erewrite (WeakPtr_dtor_eval _ wp w a).
      2: { cbn [weaks]. done. }
      2: done.
      2: { split; cbn [heap released]; [apply lookup_insert_eq | done]. }
      2: { cbn [weak_cnt]. unfold SIZE_MAX. lia. }
      cbn [heap released next_addr strongs weaks payloads trace shared_cnt weak_cnt variant].
      rewrite Hsc, Hwc. cbn. rewrite insert_insert_eq. reflexivity. }
    split.
    { apply (WeakPtr_dtor_eval σ wp w a b); try done. unfold SIZE_MAX. lia. }
    rewrite !(decide_False (P := weak_cnt b = 1 ∧ shared_cnt b = 0)) by lia.
    cbn [trace released]. rewrite app_nil_r.
    split; [done|]. split; [done|].
    split.
    { unfold WeakPtr_expired. munfold. repeat mstep. reflexivity. }
    split.
    { erewrite (SharedPtr_dtor_eval _ sp s a).
      2: { cbn [strongs]. done. }
      2: done.
      2: { split; cbn [heap released]; [apply lookup_insert_eq | done]. }
      2: { cbn [shared_cnt]. unfold SIZE_MAX. lia. }
      2: { cbn [variant payloads]. done. }
      cbn [heap released next_addr strongs weaks payloads trace shared_cnt weak_cnt variant].
      rewrite Hsc, Hwc. cbn. rewrite insert_insert_eq, <- app_assoc. reflexivity. }
    rewrite !(decide_True (P := 1 = 1 ∧ 1 - 1 = 0)) by lia.
    unfold counts. cbn. repeat mstep.
    rewrite <- app_assoc. repeat split; done.
  - intros σ sp wp s w a b Hs Hscb Hw Hwcb Hlive Hsc Hwc Hm.
    destruct (SharedPtr_dtor_eval_self σ sp s a b wp w) as (o & _ & ->);
      [done..|unfold SIZE_MAX; lia|].
    rewrite decide_True by done.
    eexists; split; [reflexivity|]. cbn. repeat split; try done.
    apply elem_of_union_l. by apply elem_of_singleton.
Qed.

Lemma last_pointers_either_order_witness :
  (∃ σs σw σ',
     SharedPtr_dtor 0 strong_and_weak = Ok tt σs ∧
     trace σs = trace strong_and_weak ++ [EvDeleter 1%positive P100] ∧
     (1%positive ∉ released σs) ∧
     WeakPtr_expired 0 σs = Ok true σs ∧
     WeakPtr_dtor 0 σs = Ok tt σ' ∧
     WeakPtr_dtor 0 strong_and_weak = Ok tt σw ∧
     trace σw = trace strong_and_weak ∧ (1%positive ∉ released σw) ∧
     WeakPtr_expired 0 σw = Ok true σw ∧
     SharedPtr_dtor 0 σw = Ok tt σ' ∧
     trace σ' =
       trace strong_and_weak ++ [EvDeleter 1%positive P100] ++ [EvDeallocate 1%positive] ∧
     released σ' = {[1%positive]} ∪ released strong_and_weak ∧
     counts σ' 1%positive = Some (0, 0) ∧
     strongs σ' !! 0%nat = Some null_shared ∧ weaks σ' !! 0%nat = Some null_weak) ∧
  (∃ σ', SharedPtr_dtor 0 self_observer_adopted = Fault UseAfterFree σ' ∧
     trace σ' =
       trace self_observer_adopted ++ [EvDeleter 2%positive P1] ++
       [EvDeallocate 2%positive] ∧
     2%positive ∈ released σ' ∧
     strongs σ' !! 0%nat = Some {| s_cb := Some 2%positive; s_ptr := P1 |}).
Proof.
  split.
  - apply (proj1 last_pointers_either_order strong_and_weak 0%nat 0%nat
             {| s_cb := Some 1%positive; s_ptr := P100 |}
             {| w_cb := Some 1%positive; w_ptr := P100 |} 1%positive
             {| shared_cnt := 1; weak_cnt := 1; variant := ControlBlockRegular P100 |}).
    + reflexivity.
    + reflexivity.
    + reflexivity.
    + reflexivity.
    + split; [reflexivity | by vm_compute].
    + reflexivity.
    + reflexivity.
    + reflexivity.
  - apply (proj2 last_pointers_either_order self_observer_adopted 0%nat 0%nat
             {| s_cb := Some 2%positive; s_ptr := P1 |}
             {| w_cb := Some 2%positive; w_ptr := P1 |} 2%positive
             {| shared_cnt := 1; weak_cnt := 1; variant := ControlBlockRegular P1 |}).
    + reflexivity.
    + reflexivity.
    + reflexivity.
    + reflexivity.
    + split; [reflexivity | by vm_compute].
    + reflexivity.
    + reflexivity.
    + reflexivity.
Defined.

(** X17: [shared_from_this()] locks the payload's [wptr] without a null
    test, so on a payload whose [wptr] is empty it dereferences a null
    control block.  [makeShared] never sets [wptr] (and the raw-pointer
    constructor, the only code that names it, has no instance for a
    type deriving from the mixin): after [makeShared] the block has
    counts (1, 0), [wptr] is empty, and [shared_from_this()] on the
    payload dereferences a null control block. *)
Theorem shared_from_this_spec :
  (∀ σ l wptr,
     payloads σ !! obj l = Some wptr → weaks σ !! wptr = Some null_weak →
     status (shared_from_this (Some l) σ) = Some NullDeref ∧
     heap (final (shared_from_this (Some l) σ)) = heap σ ∧
     trace (final (shared_from_this (Some l) σ)) = trace σ) ∧
  (∀ σ, ∃ σ' p wptr,
     makeShared true σ = Ok (length (strongs σ)) σ' ∧
     counts σ' (next_addr σ) = Some (1, 0) ∧
     SharedPtr_get (length (strongs σ)) σ' = Ok p σ' ∧
     wptr_of p σ' = Ok wptr σ' ∧
     weaks σ' !! wptr = Some null_weak ∧
     status (shared_from_this p σ') = Some NullDeref).
Proof.
  split.
  - intros σ l wptr Hp Hw.
    unfold shared_from_this, wptr_of, WeakPtr_lock, SharedPtr_from_weak, status, final.
    unfold null_weak in *. munfold. by repeat mstep.
  - intros σ. unfold makeShared, allocateShared, EnableSharedFromThis_ctor,
      SharedPtr_from_block, SharedPtr_get, shared_from_this, wptr_of, WeakPtr_lock,
      SharedPtr_from_weak, status, counts.
    munfold. eexists _, _, _. split; [reflexivity|]. msteps.
    split; [reflexivity|]. split; [reflexivity|]. msteps.
    split; [reflexivity|]. msteps. split; reflexivity.
Qed.

Lemma shared_from_this_spec_witness :
  status (shared_from_this (Some {| obj := 1%positive; off := 0 |}) mixin_made_shared) =
    Some NullDeref ∧
  heap (final (shared_from_this (Some {| obj := 1%positive; off := 0 |})
                 mixin_made_shared)) = heap mixin_made_shared ∧
  trace (final (shared_from_this (Some {| obj := 1%positive; off := 0 |})
                  mixin_made_shared)) = trace mixin_made_shared.
Proof.
  apply (proj1 shared_from_this_spec mixin_made_shared
           {| obj := 1%positive; off := 0 |} 0%nat); reflexivity.
Defined.
